(** * ctbc: peer-to-peer networking core (communication.c)

    A shallow embedding of the stream framer, the protocol handler, the
    data-exchange tick, the candidate selection and the admin listener of
    [src/communication.c], and the properties of the specification that
    were checked against it.

    Conventions of the embedding:
    - C integers are [Z]; where the source computes on a fixed width the
      wrap-around is written out ([u32], [u64]).
    - [double] values are the rationals [Q] they denote.  The scores of
      [rate_candidate] are computed as the machine does, every operation
      rounded to binary64 ([Binary64]); clock readings and their
      differences are only stored and compared, and are kept as they are.
    - bytes are [Byte.byte]; a C array is a [list byte] of the array's size.
    - calls that leave the function (writes to a socket, closing a socket,
      calls into the chain store) are recorded in the order they are made
      as a list of actions. *)

From Stdlib Require Import ZArith NArith QArith Qround Qpower Qabs Lia Lqa Bool.
From Stdlib Require Import Strings.Byte Strings.String Strings.Ascii.
From Stdlib Require Floats.
From stdpp Require Import base list.

#[local] Open Scope Z_scope.

(** ** Bytes and fixed-width integers *)

Definition u32 (x : Z) : Z := x mod 2 ^ 32.
Definition u64 (x : Z) : Z := x mod 2 ^ 64.

Definition byte_of_N (n : N) : byte :=
  match Byte.of_N (n mod 256)%N with
  | Some b => b
  | None => x00
  end.

Definition byteZ (b : byte) : Z := Z.of_N (Byte.to_N b).

#[global] Instance byte_eq_dec : EqDecision byte := Byte.byte_eq_dec.

(** Little-endian decoding of an unsigned integer (all integers of the wire
    protocol are little-endian). *)
Fixpoint le_decode (bs : list byte) : Z :=
  match bs with
  | [] => 0
  | b :: rest => byteZ b + 256 * le_decode rest
  end.

Fixpoint le_encode (n : nat) (x : Z) : list byte :=
  match n with
  | O => []
  | S n' => byte_of_N (Z.to_N (x mod 256)) :: le_encode n' (x / 256)
  end.

(** The bytes of a C string literal. *)
Definition bytes_of_string (s : string) : list byte := list_byte_of_string s.

(** ** SHA-256 and the payload checksum *)

Module SHA256.
#[local] Open Scope N_scope.

Definition w32 (x : N) : N := x mod 2 ^ 32.
Definition add32 (x y : N) : N := w32 (x + y).
Definition rotr (n x : N) : N :=
  N.lor (N.shiftr x n) (w32 (N.shiftl x (32 - n))).
Definition shr (n x : N) : N := N.shiftr x n.

Definition Ch (x y z : N) : N :=
  N.lxor (N.land x y) (N.land (N.lxor x 0xffffffff) z).
Definition Maj (x y z : N) : N :=
  N.lxor (N.lxor (N.land x y) (N.land x z)) (N.land y z).
Definition Sigma0 (x : N) : N := N.lxor (N.lxor (rotr 2 x) (rotr 13 x)) (rotr 22 x).
Definition Sigma1 (x : N) : N := N.lxor (N.lxor (rotr 6 x) (rotr 11 x)) (rotr 25 x).
Definition sigma0 (x : N) : N := N.lxor (N.lxor (rotr 7 x) (rotr 18 x)) (shr 3 x).
Definition sigma1 (x : N) : N := N.lxor (N.lxor (rotr 17 x) (rotr 19 x)) (shr 10 x).

(** The constants of FIPS 180-4: the first 32 bits of the fractional parts
    of the cube roots ([K]) and of the square roots ([H0]) of the first
    primes. *)
Definition primes : list N :=
  [ 2; 3; 5; 7; 11; 13; 17; 19; 23; 29; 31; 37; 41; 43; 47; 53; 59; 61; 67; 71;
    73; 79; 83; 89; 97; 101; 103; 107; 109; 113; 127; 131; 137; 139; 149; 151;
    157; 163; 167; 173; 179; 181; 191; 193; 197; 199; 211; 223; 227; 229; 233;
    239; 241; 251; 257; 263; 269; 271; 277; 281; 283; 293; 307; 311 ].

(** the integer cube root, bit by bit from bit [n - 1] down *)
Fixpoint cbrt_bits (n : nat) (x r : N) : N :=
  match n with
  | O => r
  | S n' =>
      let r' := r + 2 ^ N.of_nat n' in
      cbrt_bits n' x (if r' * r' * r' <=? x then r' else r)
  end.

Definition K : list N :=
  Eval vm_compute in map (fun p => w32 (cbrt_bits 36 (p * 2 ^ 96) 0)) primes.

Definition H0 : list N :=
  Eval vm_compute in map (fun p => w32 (N.sqrt (p * 2 ^ 64))) (take 8 primes).

(** big-endian words *)
Fixpoint be_decode_acc (acc : N) (bs : list byte) : N :=
  match bs with
  | [] => acc
  | b :: rest => be_decode_acc (acc * 256 + Byte.to_N b) rest
  end.

Fixpoint be_encode (n : nat) (x : N) : list byte :=
  match n with
  | O => []
  | S n' => be_encode n' (x / 256) ++ [byte_of_N x]
  end.

Fixpoint words (n : nat) (bs : list byte) : list N :=
  match n with
  | O => []
  | S n' => be_decode_acc 0 (take 4 bs) :: words n' (drop 4 bs)
  end.

(** message padding: 0x80, zeros up to 56 mod 64, the bit length on 8 bytes *)
Definition pad (msg : list byte) : list byte :=
  let len := N.of_nat (length msg) in
  let zeros := N.to_nat ((119 - len mod 64) mod 64) in
  msg ++ [x80] ++ repeat x00 zeros ++ be_encode 8 (len * 8).

(** the message schedule: [w] holds the words computed so far, latest first *)
Fixpoint schedule (n : nat) (w : list N) : list N :=
  match n with
  | O => w
  | S n' =>
      let wt := add32 (add32 (sigma1 (nth 1 w 0)) (nth 6 w 0))
                      (add32 (sigma0 (nth 14 w 0)) (nth 15 w 0)) in
      schedule n' (wt :: w)
  end.

Definition round (st : list N) (kw : N * N) : list N :=
  match st with
  | [a; b; c; d; e; f; g; h] =>
      let t1 := add32 (add32 (add32 h (Sigma1 e)) (add32 (Ch e f g) (fst kw))) (snd kw) in
      let t2 := add32 (Sigma0 a) (Maj a b c) in
      [add32 t1 t2; a; b; c; add32 d t1; e; f; g]
  | _ => st
  end.

Definition zip_add (xs ys : list N) : list N :=
  map (fun p => add32 (fst p) (snd p)) (zip xs ys).

Definition compress (h : list N) (block : list byte) : list N :=
  let w := rev (schedule 48 (rev (words 16 block))) in
  zip_add h (fold_left round (zip K w) h).

Fixpoint blocks (n : nat) (h : list N) (bs : list byte) : list N :=
  match n with
  | O => h
  | S n' => blocks n' (compress h (take 64 bs)) (drop 64 bs)
  end.

Definition sha256 (msg : list byte) : list byte :=
  let p := pad msg in
  concat (map (be_encode 4) (blocks (length p / 64) H0 p)).
End SHA256.

(** Modelled from the spec: [calculate_data_checksum] is declared outside
    [src/]; "the checksum is the first four bytes of the double-SHA-256 of
    the payload". *)
Definition CHECKSUM_SIZE : nat := 4.

Definition calculate_data_checksum (data : list byte) : list byte :=
  take CHECKSUM_SIZE (SHA256.sha256 (SHA256.sha256 data)).

(** ** Wire header *)

(** Modelled from the spec: the [Header] struct and [parse_message_header]
    are declared outside [src/]; a header is
    [{magic: u32 LE, command: 12-byte zero-padded ASCII, length: u32 LE,
    checksum: 4 bytes}], 24 bytes in all. *)
Record Header := {
  hdr_magic : Z;
  hdr_command : list byte;
  hdr_length : Z;
  hdr_checksum : list byte
}.

Definition sizeof_Header : Z := 24.

Definition parse_message_header (ptrBuffer : list byte) : Header :=
  {| hdr_magic := le_decode (take 4 ptrBuffer);
     hdr_command := take 12 (drop 4 ptrBuffer);
     hdr_length := le_decode (take 4 (drop 16 ptrBuffer));
     hdr_checksum := take 4 (drop 20 ptrBuffer) |}.

(** Modelled from the spec: [mainnet.magic] is declared outside [src/];
    the magic is the 4-byte Bitcoin mainnet prefix. *)
Definition mainnet_magic : list byte := [xf9; xbe; xb4; xd9].
Definition sizeof_magic : Z := 4.

(** Modelled from the spec: [starts_with_magic] is declared outside [src/];
    a frame begins with the magic prefix. *)
Definition starts_with_magic (p : list byte) : bool :=
  bool_decide (take 4 p = mainnet_magic).

(** The C string held in a zero-padded field: the bytes before the first NUL. *)
Fixpoint cstring (bs : list byte) : list byte :=
  match bs with
  | [] => []
  | b :: rest => if bool_decide (b = x00) then [] else b :: cstring rest
  end.

(** [strcmp(a, literal) == 0] *)
Definition strcmp_eq (field : list byte) (literal : string) : bool :=
  bool_decide (cstring field = bytes_of_string literal).

(** Modelled from the spec: the [CMD_*] constants are declared outside
    [src/]; they are the command names of section 4.1. *)
Definition CMD_VERSION : string := "version".
Definition CMD_VERACK : string := "verack".
Definition CMD_INV : string := "inv".
Definition CMD_ADDR : string := "addr".
Definition CMD_REJECT : string := "reject".
Definition CMD_PING : string := "ping".
Definition CMD_PONG : string := "pong".
Definition CMD_HEADERS : string := "headers".
Definition CMD_BLOCK : string := "block".
Definition CMD_GETDATA : string := "getdata".
Definition CMD_GETADDR : string := "getaddr".
Definition CMD_GETHEADERS : string := "getheaders".

(** ** Messages *)

Definition SHA256_LENGTH : nat := 32.
Definition SHA256_HASH := list byte.

Record NetworkAddress := {
  services : Z;      (* uint64_t *)
  ip : list byte;    (* IP, 16 bytes *)
  port : Z           (* uint16_t *)
}.

Record VersionPayload := {
  version : Z;               (* int32_t *)
  vp_services : Z;           (* uint64_t services *)
  vp_timestamp : Z;          (* int64_t timestamp *)
  addr_recv : NetworkAddress;
  addr_from : NetworkAddress;
  vp_nonce : Z;              (* uint64_t nonce *)
  user_agent : list byte;
  start_height : Z;          (* int32_t *)
  relay : bool
}.

Record PingpongPayload := { nonce : Z (* uint64_t *) }.

Record AddrRecord := {
  ar_timestamp : Z;          (* uint32_t timestamp *)
  net_addr : NetworkAddress
}.

(** The payload a message points to.  The payloads whose fields the handler
    does not read are kept as their bytes. *)
Inductive Payload :=
  | PVersion (p : VersionPayload)
  | PPingpong (p : PingpongPayload)
  | PAddr (addr_list : list AddrRecord)
  | PHeaders (headers : list (list byte))
  | PBlock (block : list byte)
  | PNone
  | POpaque (raw : list byte).

Record Message := {
  header : Header;
  ptrPayload : Payload
}.

(** The per-command payload parsers ([parse_into_*_message]) are declared
    outside [src/]: they are an interface of the embedding.  Each takes the
    buffer that starts with the frame and returns the message, or [None]
    where the C function returns a nonzero error. *)
Class PayloadParsers := {
  parse_into_version_message : list byte -> option Message;
  parse_into_verack_message : list byte -> option Message;
  parse_into_inv_message : list byte -> option Message;
  parse_into_addr_message : list byte -> option Message;
  parse_into_reject_message : list byte -> option Message;
  parse_into_pingpong_message : list byte -> option Message;
  parse_into_headers_message : list byte -> option Message;
  parse_into_block_message : list byte -> option Message;
  parse_into_blockreq_message : list byte -> option Message
}.

Section Codec.
Context `{PayloadParsers}.

(** [parse_buffer_into_message], communication.c:333 *)
Definition parse_buffer_into_message (ptrBuffer : list byte) : option Message :=
  let header := parse_message_header ptrBuffer in
  let command := hdr_command header in
  if strcmp_eq command CMD_VERSION then parse_into_version_message ptrBuffer
  else if strcmp_eq command CMD_VERACK then parse_into_verack_message ptrBuffer
  else if strcmp_eq command CMD_INV then parse_into_inv_message ptrBuffer
  else if strcmp_eq command CMD_ADDR then parse_into_addr_message ptrBuffer
  else if strcmp_eq command CMD_REJECT then parse_into_reject_message ptrBuffer
  else if strcmp_eq command CMD_PING then parse_into_pingpong_message ptrBuffer
  else if strcmp_eq command CMD_PONG then parse_into_pingpong_message ptrBuffer
  else if strcmp_eq command CMD_HEADERS then parse_into_headers_message ptrBuffer
  else if strcmp_eq command CMD_BLOCK then parse_into_block_message ptrBuffer
  else if strcmp_eq command CMD_GETDATA then parse_into_blockreq_message ptrBuffer
  else None.
End Codec.

(** [checksum_match], communication.c:617 *)
Definition checksum_match (ptrBuffer : list byte) : bool :=
  let messageHeader := parse_message_header ptrBuffer in
  let checksum :=
    calculate_data_checksum
      (take (Z.to_nat (hdr_length messageHeader))
            (drop (Z.to_nat sizeof_Header) ptrBuffer)) in
  bool_decide (checksum = hdr_checksum messageHeader).

(** ** Stream framer *)

(** [struct MessageCache] of peer.h: [Byte buffer[65536]] and the cursor
    [bufferIndex]. *)
Definition CAPACITY : Z := 65536.

Record MessageCache := {
  bufferIndex : Z;       (* uint64_t *)
  buffer : list byte     (* Byte buffer[65536] *)
}.

(** The outcome of a step that writes into the fixed buffer.  C gives no
    meaning to a write past the end of the array: the embedding stops
    there with [OutOfBounds].  [OutOfFuel] is the loop bound of the
    embedding running out; [extract_returns] shows it never does. *)
Inductive Outcome (A : Type) :=
  | Returned (a : A)
  | OutOfBounds
  | OutOfFuel.
Arguments Returned {A} a.
Arguments OutOfBounds {A}.
Arguments OutOfFuel {A}.

(** [memcpy(dst + off, src, n)] into an array [dst]; defined when the
    written range lies inside the array. *)
Definition memcpy_into (dst : list byte) (off : Z) (src : list byte) (n : Z)
  : option (list byte) :=
  if (0 <=? off) && (0 <=? n) && (off + n <=? Z.of_nat (length dst)) then
    Some (take (Z.to_nat off) dst ++ take (Z.to_nat n) src
            ++ drop (Z.to_nat (off + n)) dst)
  else None.

(** [memcpy(buffer, buffer + off, n)]: the bytes are moved to the front of
    the same array (the ranges overlap; the copy runs front to back, as the
    memmove the spec asks for). *)
Definition move_to_front (buf : list byte) (off n : Z) : list byte :=
  take (Z.to_nat n) (drop (Z.to_nat off) buf) ++ drop (Z.to_nat n) buf.

(** [find_first_magic], communication.c:625.  The loop over [p] is the
    recursion over the offset [p - data]; it makes at most [maxLength]
    turns. *)
Fixpoint find_first_magic_from (turns : nat) (data : list byte) (off maxLength : Z) : Z :=
  match turns with
  | O => -1
  | S turns' =>
      if u64 (off + sizeof_magic) <? maxLength then
        if starts_with_magic (drop (Z.to_nat off) data) then off
        else find_first_magic_from turns' data (off + 1) maxLength
      else -1
  end.

Definition find_first_magic (data : list byte) (maxLength : Z) : Z :=
  find_first_magic_from (Z.to_nat maxLength) data 0 maxLength.

(** What the framer does, in order: the log lines it prints and the
    messages it hands to the protocol handler. *)
Inductive FramerEvent :=
  | Trimmed (magicOffset : Z)                (* "Trimmed preceding ... non-magic bytes" *)
  | HeaderParsed (buffered messageSize : Z)  (* parse_message_header, line 645;
                                                the "Message loading" line *)
  | ChecksumMismatch (h : Header)            (* "Payload checksum mismatch" *)
  | ParseFailed                              (* parse_buffer_into_message returned an error *)
  | Handled (m : Message).                   (* handle_incoming_message(ptrPeer, message) *)

Section Framer.
Context `{PayloadParsers}.

(** What is done with a frame that lies complete at the front of the
    buffer (lines 655 to 668): its checksum is verified, it is parsed,
    and the message is handed to the handler. *)
Definition frame_event (ptrBuffer : list byte) : FramerEvent :=
  if negb (checksum_match ptrBuffer)
  then ChecksumMismatch (parse_message_header ptrBuffer)
  else match parse_buffer_into_message ptrBuffer with
       | None => ParseFailed
       | Some message => Handled message
       end.

(** [memcpy(buffer, buffer + n, bufferIndex - n); bufferIndex -= n]: the
    first [n] bytes are shifted out. *)
Definition shift_out (c : MessageCache) (n : Z) : MessageCache :=
  {| bufferIndex := u64 (bufferIndex c - n);
     buffer := move_to_front (buffer c) n (u64 (bufferIndex c - n)) |}.

(** The [while (magicOffset >= 0)] loop of
    [extract_message_from_stream_buffer], communication.c:636. *)
Fixpoint extract_loop (turns : nat) (c : MessageCache) (magicOffset : Z)
  : Outcome (MessageCache * list FramerEvent) :=
  if 0 <=? magicOffset then
    match turns with
    | O => OutOfFuel
    | S turns' =>
        let '(c1, ev1) :=
          if negb (magicOffset =? 0)
          then (shift_out c magicOffset, [Trimmed magicOffset])
          else (c, []) in
        let header := parse_message_header (buffer c1) in
        let messageSize := u64 (sizeof_Header + hdr_length header) in
        let ev2 := ev1 ++ [HeaderParsed (bufferIndex c1) messageSize] in
        if messageSize <=? bufferIndex c1 then
          let ev3 := [frame_event (buffer c1)] in
          let c2 := shift_out c1 messageSize in
          match extract_loop turns' c2
                  (find_first_magic (buffer c2) (bufferIndex c2)) with
          | Returned (c3, ev4) => Returned (c3, ev2 ++ ev3 ++ ev4)
          | OutOfBounds => OutOfBounds
          | OutOfFuel => OutOfFuel
          end
        else Returned (c1, ev2)
    end
  else Returned (c, []).

(** Every turn that goes on removes at least the 24 bytes of a header, so
    [bufferIndex] turns are more than the loop can make. *)
Definition extract_message_from_stream_buffer (c : MessageCache)
  : Outcome (MessageCache * list FramerEvent) :=
  extract_loop (S (Z.to_nat (bufferIndex c))) c
    (find_first_magic (buffer c) (bufferIndex c)).

(** A read handed to [on_incoming_segment]: the buffer [buf] that
    [allocate_read_buffer] allocated ([buf->len] bytes, of which the
    first [nread] were filled by the read) and [nread]. *)
Record Segment := {
  base : list byte;    (* buf->base, buf->len = length base *)
  nread : Z            (* ssize_t nread *)
}.

(** [on_incoming_segment], communication.c:679.  A negative [nread] is an
    error or the end of the stream: the function returns before it
    touches the cache.  Otherwise it copies [buf->len] bytes behind the
    cursor and moves the cursor by [nread].  (The stamp [lastHeard] that
    it also sets on the peer is not part of the cache.) *)
Definition on_incoming_segment (c : MessageCache) (seg : Segment)
  : Outcome (MessageCache * list FramerEvent) :=
  if nread seg <? 0 then Returned (c, [])
  else
    match memcpy_into (buffer c) (bufferIndex c) (base seg)
            (Z.of_nat (length (base seg))) with
    | None => OutOfBounds
    | Some buffer' =>
        extract_message_from_stream_buffer
          {| bufferIndex := u64 (bufferIndex c + nread seg); buffer := buffer' |}
    end.

(** The segments of a connection, fed in order. *)
Fixpoint feed (c : MessageCache) (segs : list Segment)
  : Outcome (MessageCache * list FramerEvent) :=
  match segs with
  | [] => Returned (c, [])
  | seg :: rest =>
      match on_incoming_segment c seg with
      | Returned (c1, ev1) =>
          match feed c1 rest with
          | Returned (c2, ev2) => Returned (c2, ev1 ++ ev2)
          | OutOfBounds => OutOfBounds
          | OutOfFuel => OutOfFuel
          end
      | OutOfBounds => OutOfBounds
      | OutOfFuel => OutOfFuel
      end
  end.
End Framer.

(** The cache of a fresh [SocketContext] (it is [CALLOC]ed). *)
Definition empty_cache : MessageCache :=
  {| bufferIndex := 0; buffer := repeat x00 (Z.to_nat CAPACITY) |}.

(** The messages handed to the handler, in order. *)
Definition handled (evs : list FramerEvent) : list Message :=
  omap (fun e => match e with Handled m => Some m | _ => None end) evs.

(** *** Frames for the worked examples *)

(** Modelled from the spec: the serializers are declared outside [src/];
    a message on the wire is [Header ‖ Payload] with the header fields of
    section 4.1. *)
Definition frame_with_checksum (command : string) (checksum payload : list byte)
  : list byte :=
  mainnet_magic
    ++ take 12 (bytes_of_string command ++ repeat x00 12)
    ++ le_encode 4 (Z.of_nat (length payload))
    ++ checksum ++ payload.

Definition frame (command : string) (payload : list byte) : list byte :=
  frame_with_checksum command (calculate_data_checksum payload) payload.

Definition message_of (buf : list byte) (p : Payload) : Message :=
  {| header := parse_message_header buf; ptrPayload := p |}.

(** Modelled from the spec: parsers for the commands whose payload the
    spec fixes ([verack] has none, [ping] and [pong] carry a 64-bit nonce);
    the other parsers, whose wire layout the spec leaves abstract, report
    an error. *)
#[local] Instance basic_parsers : PayloadParsers := {|
  parse_into_version_message := fun _ => None;
  parse_into_verack_message := fun buf => Some (message_of buf PNone);
  parse_into_inv_message := fun _ => None;
  parse_into_addr_message := fun _ => None;
  parse_into_reject_message := fun _ => None;
  parse_into_pingpong_message := fun buf =>
    Some (message_of buf
            (PPingpong {| nonce := le_decode (take 8 (drop (Z.to_nat sizeof_Header) buf)) |}));
  parse_into_headers_message := fun _ => None;
  parse_into_block_message := fun _ => None;
  parse_into_blockreq_message := fun _ => None
|}.

Definition verack_frame : list byte := frame CMD_VERACK [].
Definition ping_frame (n : Z) : list byte := frame CMD_PING (le_encode 8 n).
Definition pong_frame (n : Z) : list byte := frame CMD_PONG (le_encode 8 n).

(** A read that filled its whole buffer. *)
Definition full_read (data : list byte) : Segment :=
  {| base := data; nread := Z.of_nat (length data) |}.

(** A read of [data] into a buffer of [len] bytes, as libuv hands it
    over: the bytes after [nread] are whatever the allocation held. *)
Definition read_into (len : nat) (data : list byte) : Segment :=
  {| base := take len (data ++ repeat x00 len); nread := Z.of_nat (length data) |}.

(** ** Peers and candidates *)

(** The structs below are those that communication.c reads and writes;
    their declarations are outside [src/] (the [peer.h] of [src/] is an
    older layout), so each field is typed by its uses. *)

(** The source names only the status [PEER_CANDIDATE_STATUS_DISABLED];
    the other status stands for every status that is not disabled. *)
Inductive PeerCandidateStatus :=
  | PEER_CANDIDATE_STATUS_NORMAL
  | PEER_CANDIDATE_STATUS_DISABLED.

#[global] Instance PeerCandidateStatus_eq_dec : EqDecision PeerCandidateStatus.
Proof. solve_decision. Defined.

Record PeerCandidate := {
  addr : AddrRecord;               (* addr.timestamp, addr.net_addr *)
  status : PeerCandidateStatus;
  averageLatency : Q               (* double; 0 when untested *)
}.

Record HandshakeState := {
  acceptThem : bool;
  acceptUs : bool;
  handshakeStart : Q
}.

Record PingState := {
  ping_nonce : Z;                  (* uint64_t ping.nonce *)
  pingSent : Q;
  pongReceived : Q
}.

Record Networking := {
  ping : PingState;
  requesting : SHA256_HASH;
  lastHeard : Q;
  latencies : list Q               (* the recorded samples, newest first *)
}.

(** [candidacy] points into [global.peerCandidates]; the handler reads and
    writes the candidate through it, so the peer is modelled together with
    the candidate it points to. *)
Record Peer := {
  index : Z;
  connectionStart : Q;
  handshake : HandshakeState;
  chain_height : Z;
  networking : Networking;
  candidacy : PeerCandidate;
  address : NetworkAddress
}.

Definition set_handshake (p : Peer) (h : HandshakeState) : Peer :=
  {| index := index p; connectionStart := connectionStart p; handshake := h;
     chain_height := chain_height p; networking := networking p;
     candidacy := candidacy p; address := address p |}.

Definition set_chain_height (p : Peer) (h : Z) : Peer :=
  {| index := index p; connectionStart := connectionStart p; handshake := handshake p;
     chain_height := h; networking := networking p;
     candidacy := candidacy p; address := address p |}.

Definition set_networking (p : Peer) (n : Networking) : Peer :=
  {| index := index p; connectionStart := connectionStart p; handshake := handshake p;
     chain_height := chain_height p; networking := n;
     candidacy := candidacy p; address := address p |}.

Definition set_candidacy (p : Peer) (c : PeerCandidate) : Peer :=
  {| index := index p; connectionStart := connectionStart p; handshake := handshake p;
     chain_height := chain_height p; networking := networking p;
     candidacy := c; address := address p |}.

Definition set_ping (n : Networking) (pg : PingState) : Networking :=
  {| ping := pg; requesting := requesting n; lastHeard := lastHeard n;
     latencies := latencies n |}.

Definition set_requesting (n : Networking) (h : SHA256_HASH) : Networking :=
  {| ping := ping n; requesting := h; lastHeard := lastHeard n;
     latencies := latencies n |}.

Definition set_latencies (n : Networking) (l : list Q) : Networking :=
  {| ping := ping n; requesting := requesting n; lastHeard := lastHeard n;
     latencies := l |}.

Definition set_timestamp (c : PeerCandidate) (ts : Z) : PeerCandidate :=
  {| addr := {| ar_timestamp := ts; net_addr := net_addr (addr c) |};
     status := status c; averageLatency := averageLatency c |}.

Definition set_services (c : PeerCandidate) (s : Z) : PeerCandidate :=
  {| addr := {| ar_timestamp := ar_timestamp (addr c);
                net_addr := {| services := s; ip := ip (net_addr (addr c));
                               port := port (net_addr (addr c)) |} |};
     status := status c; averageLatency := averageLatency c |}.

Definition set_averageLatency (c : PeerCandidate) (l : Q) : PeerCandidate :=
  {| addr := addr c; status := status c; averageLatency := l |}.

(** The globals and configuration constants that the functions read. *)
Record Env := {
  ibdMode : bool;                   (* global.ibdMode *)
  max_full_block_height_from_genesis : Z;
  mainTip_height : Z;               (* global.mainTip.context.height *)
  peerCandidateCount : Z;           (* global.peerCandidateCount *)
  getaddrThreshold : Z;             (* config.getaddrThreshold *)
  minimalPeerVersion : Z;           (* mainnet.minimalPeerVersion *)
  tolerance_latency : Q;            (* config.tolerances.latency *)
  latency_ring_size : nat           (* slots of the latency ring *)
}.

(** What the environment answers during one call of the handler: the
    clock read at its entry, the clock read inside [ping_peer], and the
    value of [random_uint64]. *)
Record Oracle := {
  get_now : Q;
  get_now_ping : Q;
  random_uint64 : Z
}.

(** Calls that leave the handler, in the order they are made. *)
Inductive Action :=
  | SendMessage (command : string) (ptrData : option Payload)
  | ReplacePeer
  | AddAddressAsCandidate (a : NetworkAddress) (timestamp : Z)
  | ProcessIncomingBlockHeader (h : list byte)
  | ProcessIncomingBlock (b : list byte)
  | SendGetheaders
  | SendGetdataForBlock (hash : option SHA256_HASH)
  | UnexpectedPongNonce (received expecting : Z).

(** Modelled from the spec: [peer_hand_shaken] is declared outside [src/];
    "both true ⇒ handshake complete". *)
Definition peer_hand_shaken (p : Peer) : bool :=
  acceptThem (handshake p) && acceptUs (handshake p).

(** Modelled from the spec: [is_hash_empty] is declared outside [src/];
    "all-zero means idle". *)
Definition is_hash_empty (h : SHA256_HASH) : bool :=
  forallb (fun b => bool_decide (b = x00)) h.

(** Modelled from the spec: [record_latency], [is_latency_fully_tested]
    and [average_peer_latency] are declared outside [src/]; the peer keeps
    "a fixed-size ring of N recent round-trip samples", "fully tested once
    the ring is filled".  The ring is the newest [N] of the recorded
    samples. *)
Definition record_latency (p : Peer) (latency : Q) : Peer :=
  set_networking p
    (set_latencies (networking p) (latency :: latencies (networking p))).

Definition is_latency_fully_tested (env : Env) (p : Peer) : bool :=
  (latency_ring_size env <=? length (latencies (networking p)))%nat.

Definition Qsum (l : list Q) : Q := fold_right Qplus 0%Q l.

Definition average_peer_latency (env : Env) (p : Peer) : Q :=
  (Qsum (take (latency_ring_size env) (latencies (networking p)))
     / inject_Z (Z.of_nat (latency_ring_size env)))%Q.

(** Modelled from the spec: [is_ipv4] is declared outside [src/]; an
    address is a "16-byte IP (IPv4 embedded in IPv6-mapped form)". *)
Definition is_ipv4 (a : list byte) : bool :=
  bool_decide (take 12 a = repeat x00 10 ++ [xff; xff]).

(** C truth value of a [double]. *)
Definition Qtrue (q : Q) : bool := negb (Qeq_bool q 0).

(** C [round]: to the nearest integer, halves away from zero. *)
Definition round (q : Q) : Z :=
  if Qle_bool 0 q then Qfloor (q + (1 # 2))%Q else Qceiling (q - (1 # 2))%Q.

(** Modelled from the spec: the unit macros are declared outside [src/];
    the spec gives the periods they build in seconds, minutes and days. *)
Definition SECOND_TO_MILLISECOND (x : Q) : Q := (x * 1000)%Q.
Definition DAY_TO_MILLISECOND (x : Q) : Q := (x * 86400000)%Q.
Definition HOUR_TO_SECOND (x : Z) : Z := x * 3600.

Section Handler.
Variable env : Env.

(** [replace_peer], communication.c:50: the socket is closed; the slot is
    bound again in the close callback. *)
Definition replace_peer (p : Peer) : Peer * list Action := (p, [ReplacePeer]).

(** [ping_peer], communication.c:72 *)
Definition ping_peer (o : Oracle) (p : Peer) : Peer * list Action :=
  let pg := ping (networking p) in
  let p1 :=
    if Qtrue (pingSent pg) && negb (Qtrue (pongReceived pg))
    then record_latency p (get_now_ping o - pingSent pg)%Q
    else p in
  let pg1 := {| ping_nonce := random_uint64 o;
                pingSent := pingSent (ping (networking p1));
                pongReceived := 0%Q |} in
  (set_networking p1 (set_ping (networking p1) pg1),
   [SendMessage CMD_PING (Some (PPingpong {| nonce := random_uint64 o |}))]).

(** [on_handshake_success], communication.c:511.  [maxFullBlockHeight]
    is a [uint32_t], so the peer's height is compared on 32 unsigned
    bits: a negative height reads as a large one. *)
Definition on_handshake_success (o : Oracle) (p : Peer) : Peer * list Action :=
  if ibdMode env && (u32 (chain_height p) <? max_full_block_height_from_genesis env)
  then replace_peer p
  else
    let shouldSendGetaddr := peerCandidateCount env <? getaddrThreshold env in
    let sent := if shouldSendGetaddr then [SendMessage CMD_GETADDR None] else [] in
    let '(p1, pinged) := ping_peer o p in
    (p1, sent ++ pinged).

(** [handle_incoming_message], communication.c:531.  A payload whose
    shape is not the one of the command cannot reach a branch: the
    parser that built it was chosen by the same command string; such a
    branch leaves the peer as it is. *)
Definition handle_incoming_message (o : Oracle) (ptrPeer : Peer) (message : Message)
  : Peer * list Action :=
  let now := get_now o in
  let timestamp := u32 (round (now / SECOND_TO_MILLISECOND 1)) in
  let p := set_candidacy ptrPeer (set_timestamp (candidacy ptrPeer) timestamp) in
  let command := hdr_command (header message) in
  if strcmp_eq command CMD_VERSION then
    match ptrPayload message with
    | PVersion ptrPayloadTyped =>
        let p1 :=
          if minimalPeerVersion env <=? version ptrPayloadTyped
          then set_handshake p {| acceptThem := true;
                                  acceptUs := acceptUs (handshake p);
                                  handshakeStart := handshakeStart (handshake p) |}
          else p in
        let p2 := set_chain_height p1 (start_height ptrPayloadTyped) in
        let p3 := set_candidacy p2
                    (set_services (candidacy p2) (vp_services ptrPayloadTyped)) in
        if peer_hand_shaken p3 then on_handshake_success o p3 else (p3, [])
    | _ => (p, [])
    end
  else if strcmp_eq command CMD_VERACK then
    let p1 := set_handshake p {| acceptThem := acceptThem (handshake p);
                                 acceptUs := true;
                                 handshakeStart := handshakeStart (handshake p) |} in
    let sent := [SendMessage CMD_VERACK None] in
    if peer_hand_shaken p1 then
      let '(p2, acts) := on_handshake_success o p1 in (p2, sent ++ acts)
    else (p1, sent)
  else if strcmp_eq command CMD_ADDR then
    match ptrPayload message with
    | PAddr addr_list =>
        (p, omap (fun record =>
                    if is_ipv4 (ip (net_addr record))
                    then Some (AddAddressAsCandidate (net_addr record)
                                 (u32 (ar_timestamp record - HOUR_TO_SECOND 2)))
                    else None) addr_list)
    | _ => (p, [])
    end
  else if strcmp_eq command CMD_PING then
    (p, [SendMessage CMD_PONG (Some (ptrPayload message))])
  else if strcmp_eq command CMD_PONG then
    match ptrPayload message with
    | PPingpong ptrPayload =>
        if nonce ptrPayload =? ping_nonce (ping (networking p)) then
          let pg := ping (networking p) in
          let p1 := set_networking p
                      (set_ping (networking p)
                         {| ping_nonce := ping_nonce pg; pingSent := pingSent pg;
                            pongReceived := now |}) in
          let latency := (now - pingSent pg)%Q in
          let p2 := record_latency p1 latency in
          if is_latency_fully_tested env p2
          then (set_candidacy p2
                  (set_averageLatency (candidacy p2) (average_peer_latency env p2)),
                [])
          else (p2, [])
        else (p, [UnexpectedPongNonce (nonce ptrPayload)
                    (ping_nonce (ping (networking p)))])
    | _ => (p, [])
    end
  else if strcmp_eq command CMD_HEADERS then
    match ptrPayload message with
    | PHeaders headers => (p, map ProcessIncomingBlockHeader headers)
    | _ => (p, [])
    end
  else if strcmp_eq command CMD_BLOCK then
    match ptrPayload message with
    | PBlock ptrBlock =>
        (set_networking p
           (set_requesting (networking p) (repeat x00 SHA256_LENGTH)),
         [ProcessIncomingBlock ptrBlock])
    | _ => (p, [])
    end
  else (p, []).

(** The messages of a connection, handled in order; the actions of each
    message are kept apart. *)
Fixpoint handle_all (p : Peer) (inputs : list (Oracle * Message))
  : Peer * list (list Action) :=
  match inputs with
  | [] => (p, [])
  | (o, m) :: rest =>
      let '(p1, acts) := handle_incoming_message o p m in
      let '(p2, trace) := handle_all p1 rest in
      (p2, acts :: trace)
  end.
End Handler.

(** ** Data exchange *)

Section DataExchange.
Variable env : Env.

(** The chain store's [find_missing_blocks(blocksDesired, n)]: the
    hashes it writes, at most [n]; their number is its return value. *)
Variable find_missing_blocks : Z -> list SHA256_HASH.

(** [is_peer_idle], communication.c:145 *)
Definition is_peer_idle (p : Peer) : bool :=
  peer_hand_shaken p && is_hash_empty (requesting (networking p)).

(** [count_idle_peers], communication.c:149 *)
Definition count_idle_peers (peers : list Peer) : Z :=
  fold_left (fun count p => if is_peer_idle p then u32 (count + 1) else count)
            peers 0.

(** [send_getheaders], communication.c:304 *)
Definition send_getheaders : list Action := [SendGetheaders].

(** [send_getdata_for_block], communication.c:317.  [hash = None] is the
    NULL pointer: the function copies 32 bytes from it (line 324) without
    a test, which ends the process before anything is sent.  The action
    records the call. *)
Definition send_getdata_for_block (hash : option SHA256_HASH) : list Action :=
  [SendGetdataForBlock hash].

(** The body of the [for] loop of [exchange_data_with_peers]: the peers
    still to visit, the array [blocksDesired] and the cursor
    [blockIndex].  The result lists the peers as the loop leaves them and
    the calls made, each with the slot it was made for.  The peer's
    height is compared with the [uint32_t] height of the tip on 32
    unsigned bits.  A call of [send_getdata_for_block] with the NULL
    pointer is the last call: the process ends in it and the peers behind
    it are not visited. *)
Fixpoint exchange_loop (i : Z) (peers : list Peer)
    (blocksDesired : list SHA256_HASH) (blockIndex : Z)
  : list Peer * list (Z * Action) :=
  match peers with
  | [] => ([], [])
  | ptrPeer :: rest =>
      if negb (peer_hand_shaken ptrPeer) then
        let '(rest', acts) := exchange_loop (i + 1) rest blocksDesired blockIndex in
        (ptrPeer :: rest', acts)
      else
        let headers :=
          if mainTip_height env <? u32 (chain_height ptrPeer)
          then send_getheaders else [] in
        let '(blockToRequest, blockIndex') :=
          if is_peer_idle ptrPeer && (blockIndex <? Z.of_nat (length blocksDesired))
          then (blocksDesired !! Z.to_nat blockIndex, u32 (blockIndex + 1))
          else (None, blockIndex) in
        let data := send_getdata_for_block blockToRequest in
        match blockToRequest with
        | Some _ =>
            let '(rest', acts) :=
              exchange_loop (i + 1) rest blocksDesired blockIndex' in
            (ptrPeer :: rest', map (pair i) (headers ++ data) ++ acts)
        | None => (ptrPeer :: rest, map (pair i) (headers ++ data))
        end
  end.

(** [exchange_data_with_peers], communication.c:160 *)
Definition exchange_data_with_peers (peers : list Peer)
  : list Peer * list (Z * Action) :=
  let idlePeers := count_idle_peers peers in
  let blocksDesired := find_missing_blocks idlePeers in
  exchange_loop 0 peers blocksDesired 0.
End DataExchange.

(** ** Candidate selection *)

(** ** Binary64 arithmetic

    The values of a C [double] and the operations [rate_candidate] uses,
    each the exact result rounded to the nearest value of the format,
    ties to the even significand: 53 bits, the last place never below
    [2^-1074], and infinity when the rounded value reaches [2^1024].  The
    two zeros are not told apart: no operation used here depends on the
    sign of a zero, and the division is made on finite operands with a
    divisor that is not zero. *)

Module Binary64.

(** A finite value, an infinity, or not a number. *)
Inductive double :=
  | Finite (q : Q)
  | PlusInfinity
  | MinusInfinity
  | NaN.

(** [2^e], for any integer [e]. *)
Definition pow2 (e : Z) : Q := (2 ^ e)%Q.

(** The integer part of the binary logarithm of a positive rational. *)
Definition ilog2 (q : Q) : Z :=
  let k := Z.log2 (Qnum q) - Z.log2 (Zpos (Qden q)) in
  if Qle_bool (pow2 k) q then k else k - 1.

(** The nearest integer, a tie going to the even one. *)
Definition nearest_even (x : Q) : Z :=
  let f := Qfloor x in
  match (x - inject_Z f ?= 1 # 2)%Q with
  | Lt => f
  | Gt => f + 1
  | Eq => if Z.even f then f else f + 1
  end.

(** The exponent of the last place of the value a positive rational
    rounds to; -1074 is that of the subnormal values. *)
Definition exponent (q : Q) : Z := Z.max (ilog2 q - 52) (-1074).

(** The nearest multiple of [2^exponent]. *)
Definition nearest (q : Q) : Q :=
  (inject_Z (nearest_even (q / pow2 (exponent q))) * pow2 (exponent q))%Q.

Definition round_pos (q : Q) : double :=
  if Qle_bool (pow2 1024) (nearest q) then PlusInfinity else Finite (Qred (nearest q)).

Definition opp (x : double) : double :=
  match x with
  | Finite q => Finite (Qred (- q))
  | PlusInfinity => MinusInfinity
  | MinusInfinity => PlusInfinity
  | NaN => NaN
  end.

(** The exact result [q] of an operation, as the machine returns it. *)
Definition round (q : Q) : double :=
  match Qnum q with
  | Z0 => Finite 0
  | Zpos _ => round_pos q
  | Zneg _ => opp (round_pos (- q))
  end.

(** [x + y] *)
Definition add (x y : double) : double :=
  match x, y with
  | Finite a, Finite b => round (a + b)
  | NaN, _ | _, NaN => NaN
  | PlusInfinity, MinusInfinity | MinusInfinity, PlusInfinity => NaN
  | PlusInfinity, _ | _, PlusInfinity => PlusInfinity
  | MinusInfinity, _ | _, MinusInfinity => MinusInfinity
  end.

(** [x - y] *)
Definition sub (x y : double) : double := add x (opp y).

(** [x < y]; false when either is not a number. *)
Definition ltb (x y : double) : bool :=
  match x, y with
  | NaN, _ | _, NaN => false
  | Finite a, Finite b => negb (Qle_bool b a)
  | MinusInfinity, MinusInfinity => false
  | MinusInfinity, _ => true
  | _, MinusInfinity => false
  | PlusInfinity, _ => false
  | Finite _, PlusInfinity => true
  end.

(** [x <= y]; false when either is not a number. *)
Definition leb (x y : double) : bool :=
  match x, y with
  | NaN, _ | _, NaN => false
  | Finite a, Finite b => Qle_bool a b
  | MinusInfinity, _ => true
  | _, MinusInfinity => false
  | _, PlusInfinity => true
  | PlusInfinity, _ => false
  end.

(** [x] is the finite value [v]. *)
Definition is_value (x : double) (v : Q) : Prop := exists w, x = Finite w /\ w == v.


End Binary64.

(** The value of a machine [double], for comparing [Binary64] with the
    binary64 arithmetic of the machine on examples. *)
Definition of_float (f : PrimFloat.float) : Binary64.double :=
  match FloatOps.Prim2SF f with
  | SpecFloat.S754_zero _ => Binary64.Finite 0
  | SpecFloat.S754_infinity false => Binary64.PlusInfinity
  | SpecFloat.S754_infinity true => Binary64.MinusInfinity
  | SpecFloat.S754_nan => Binary64.NaN
  | SpecFloat.S754_finite s m e =>
      Binary64.Finite
        (Qred ((if s then -1 else 1) * inject_Z (Zpos m) * Binary64.pow2 e))
  end.

(** The machine [double] [m * 2^e]. *)
Definition to_float (m e : Z) : PrimFloat.float :=
  match m with
  | Z0 => PrimFloat.zero
  | Zpos p => FloatOps.SF2Prim (SpecFloat.S754_finite false p e)
  | Zneg p => FloatOps.SF2Prim (SpecFloat.S754_finite true p e)
  end.

Definition same_double (x y : Binary64.double) : bool :=
  match x, y with
  | Binary64.Finite a, Binary64.Finite b => Qeq_bool a b
  | Binary64.PlusInfinity, Binary64.PlusInfinity => true
  | Binary64.MinusInfinity, Binary64.MinusInfinity => true
  | Binary64.NaN, Binary64.NaN => true
  | _, _ => false
  end.

Definition finite_value (x : Binary64.double) : Q :=
  match x with Binary64.Finite q => q | _ => 0%Q end.

(** The sum, the product and the quotient of two machine [double]s agree
    with the rounded exact results. *)
Definition machine_agrees (a b : PrimFloat.float) : bool :=
  let x := finite_value (of_float a) in
  let y := finite_value (of_float b) in
  same_double (of_float (PrimFloat.add a b)) (Binary64.add (of_float a) (of_float b))
  && same_double (of_float (PrimFloat.sub a b)) (Binary64.sub (of_float a) (of_float b))
  && same_double (of_float (PrimFloat.mul a b)) (Binary64.round (x * y))
  && (Qeq_bool y 0
      || same_double (of_float (PrimFloat.div a b)) (Binary64.round (x / y)))
  && Bool.eqb (PrimFloat.ltb a b) (Binary64.ltb (of_float a) (of_float b)).

(** Mantissas and exponents of the sample values: 0.8, 0.5, 1, -10,
    2000, 2000/2^60, the smallest and the largest finite positive
    values, the smallest normal value, 2^53 + 2, 2^60, 0.1, -0.3 and
    1e300. *)
Definition machine_samples : list (Z * Z) :=
  [ (7205759403792794, -53); (1, -1); (1, 0); (-10, 0); (2000, 0); (125, -56);
    (1, -1074); (9007199254740991, 971); (1, -1022); (4503599627370497, 1);
    (1, 60); (7205759403792794, -56); (-5404319552844595, -54);
    (6726619170695580, 944); (3, -1074); (0, 0) ].


(** What the environment answers to the [k]-th call of [rate_candidate]
    during one selection: the clock and the jitter sample. *)
Record RateOracle := {
  now_at : nat -> Q;
  random_betwen_0_1 : nat -> Q
}.

Section Selection.
Variable env : Env.
#[local] Open Scope Q_scope.

(** [rate_candidate], communication.c:844; [now] and [jitter] are the
    results of its calls to [get_now] and [random_betwen_0_1].  The
    score is a [double]: each operation is rounded.  The division is
    made only by a latency that is not zero. *)
Definition rate_candidate (now jitter : Q) (ptrCandidate : PeerCandidate)
  : Binary64.double :=
  let statusScore :=
    if bool_decide (status ptrCandidate = PEER_CANDIDATE_STATUS_DISABLED)
    then Binary64.Finite (-10) else Binary64.Finite 0 in
  let deltaT :=
    Binary64.sub (Binary64.Finite now)
      (Binary64.round
         (SECOND_TO_MILLISECOND (inject_Z (ar_timestamp (addr ptrCandidate)) * 1))) in
  let timestampScore :=
    if Binary64.ltb (Binary64.Finite (DAY_TO_MILLISECOND 7)) deltaT
    then Binary64.round (8 # 10)
    else if Binary64.ltb (Binary64.Finite (DAY_TO_MILLISECOND 1)) deltaT
    then Binary64.Finite 1
    else Binary64.Finite (1 # 2) in
  let latencyScore :=
    if Qtrue (averageLatency ptrCandidate)
    then Binary64.round (tolerance_latency env / averageLatency ptrCandidate)
    else Binary64.Finite 1 in
  let shuffleScore := Binary64.round (jitter * 2) in
  Binary64.add (Binary64.add (Binary64.add statusScore timestampScore) latencyScore)
    shuffleScore.

(** Modelled from the spec: [is_peer] is declared outside [src/]; a
    candidate is a peer when it is "currently bound to a slot".  [bound]
    lists, for the peer slots, the index of the candidate each
    [candidacy] points to. *)
Definition is_peer (bound : list nat) (i : nat) : bool := bool_decide (i ∈ bound).

(** The [for] loop of [pick_best_nonpeer_candidate] from index [i] on;
    [k] counts the calls of [rate_candidate] made so far. *)
Fixpoint pick_loop (o : RateOracle) (bound : list nat) (i : nat)
    (candidates : list PeerCandidate) (best : nat) (bestScore : Binary64.double)
    (k : nat)
  : nat * Binary64.double :=
  match candidates with
  | [] => (best, bestScore)
  | ptrCandidate :: rest =>
      if is_peer bound i then pick_loop o bound (S i) rest best bestScore k
      else
        let score := rate_candidate (now_at o k) (random_betwen_0_1 o k) ptrCandidate in
        if Binary64.ltb bestScore score
        then pick_loop o bound (S i) rest i score (S k)
        else pick_loop o bound (S i) rest best bestScore (S k)
  end.

(** [pick_best_nonpeer_candidate], communication.c:879: the index of the
    candidate returned and [*finalScore].  With no candidate at all the
    source reads [peerCandidates[0]] all the same; the embedding has no
    value for that. *)
Definition pick_best_nonpeer_candidate (o : RateOracle)
    (peerCandidates : list PeerCandidate) (bound : list nat)
  : option (nat * Binary64.double) :=
  match peerCandidates with
  | [] => None
  | ptrBestCandidate :: _ =>
      let bestScore :=
        rate_candidate (now_at o 0%nat) (random_betwen_0_1 o 0%nat) ptrBestCandidate in
      Some (pick_loop o bound 0%nat peerCandidates 0%nat bestScore 1%nat)
  end.
End Selection.

(** ** Admin listener *)

(** Modelled from the spec: [INSTRUCTION_KILL] is declared outside [src/];
    it is "the literal KILL sentinel". *)
Definition INSTRUCTION_KILL : string := "KILL".

Definition UV_EOF : Z := -4095.

Inductive LoopAction :=
  | UvTimerStop
  | UvStop            (* uv_stop(uv_default_loop()) *)
  | UvLoopClose       (* uv_loop_close(uv_default_loop()) *)
  | UvClose.          (* uv_close(socket, NULL) *)

(** [terminate_main_loop], communication.c:211 *)
Definition terminate_main_loop (handle : bool) : list LoopAction :=
  (if handle then [UvTimerStop] else []) ++ [UvStop; UvLoopClose].

(** [on_incoming_segment_to_api], communication.c:775.  [memcmp] reads the
    first [strlen(INSTRUCTION_KILL)] bytes of [buf->base]. *)
Definition on_incoming_segment_to_api (seg : Segment) : list LoopAction :=
  if nread seg <? 0 then
    if negb (nread seg =? UV_EOF) then [UvClose] else []
  else if bool_decide (take (String.length INSTRUCTION_KILL) (base seg)
                       = bytes_of_string INSTRUCTION_KILL)
  then terminate_main_loop false
  else [].

(** The bytes a read delivered. *)
Definition payload_of (seg : Segment) : list byte :=
  take (Z.to_nat (nread seg)) (base seg).

(** The event loop is stopped by a call. *)
Definition stops_loop (acts : list LoopAction) : Prop := UvStop ∈ acts.

(** ** The framer seen from the byte stream *)

(** The cache is what the C struct can hold: the array has its 65536
    bytes and the cursor is inside it. *)
Definition cache_wf (c : MessageCache) : Prop :=
  length (buffer c) = Z.to_nat CAPACITY /\ 0 <= bufferIndex c <= CAPACITY.

(** The bytes received and not yet consumed. *)
Definition pending (c : MessageCache) : list byte :=
  take (Z.to_nat (bufferIndex c)) (buffer c).

(** A complete frame: the magic, and as many bytes as the header declares. *)
Definition framed (f : list byte) : Prop :=
  take 4 f = mainnet_magic
  /\ Z.of_nat (length f) = sizeof_Header + hdr_length (parse_message_header f).

(** What the read contract of libuv gives: [0 <= nread <= buf->len]. *)
Definition segment_ok (seg : Segment) : Prop :=
  0 <= nread seg <= Z.of_nat (length (base seg)).

(** The bytes not yet received of a frame, or nothing. *)
Definition partial (p : list byte) : Prop :=
  p = [] \/ exists f, framed f /\ p = take (length p) f /\ (length p < length f)%nat.

(** The trace of the framer over complete frames [fs] that yield the
    events [evs], starting with [buffered] bytes in the cache. *)
Fixpoint frames_trace (buffered : Z) (fs : list (list byte)) (evs : list FramerEvent)
  : list FramerEvent :=
  match fs, evs with
  | f :: fs', e :: evs' =>
      HeaderParsed buffered (Z.of_nat (length f)) :: e
        :: frames_trace (buffered - Z.of_nat (length f)) fs' evs'
  | _, _ => []
  end.

Section FrameValidity.
Context `{PayloadParsers}.

(** The frame gives the same event whatever follows it in the buffer. *)
Definition frame_yields (f : list byte) (e : FramerEvent) : Prop :=
  framed f /\ forall rest, frame_event (f ++ rest) = e.

(** [f] is a valid encoding of the message [m]: a complete frame whose
    checksum matches its payload and that parses to [m]. *)
Definition valid_frame (m : Message) (f : list byte) : Prop :=
  framed f
  /\ checksum_match f = true
  /\ forall rest, parse_buffer_into_message (f ++ rest) = Some m.
End FrameValidity.

(** The frames still to come when [p] is buffered: [p] is shorter than
    the first of them. *)
Definition head_short (p : list byte) (frames : list (list byte)) : Prop :=
  match frames with
  | [] => True
  | f :: _ => (length p < length f)%nat
  end.

Definition is_out_of_bounds {A : Type} (o : Outcome A) : bool :=
  match o with
  | OutOfBounds => true
  | _ => false
  end.

(** ** Sample values for the worked examples *)

(** The constants are those of [config.c] where it has them; the minimal
    peer version and the size of the latency ring are chosen here. *)

Definition sample_env : Env := {|
  ibdMode := false;
  max_full_block_height_from_genesis := 0;
  mainTip_height := 0;
  peerCandidateCount := 2000;
  getaddrThreshold := 1000;
  minimalPeerVersion := 70001;
  tolerance_latency := 2000;
  latency_ring_size := 3
|}.

Definition zero_address : NetworkAddress :=
  {| services := 0; ip := repeat x00 16; port := 0 |}.

Definition zero_candidate : PeerCandidate :=
  {| addr := {| ar_timestamp := 0; net_addr := zero_address |};
     status := PEER_CANDIDATE_STATUS_NORMAL;
     averageLatency := 0 |}.

(** A peer slot as [reset_peer] leaves it: every field zero. *)
Definition zero_peer : Peer := {|
  index := 0;
  connectionStart := 0;
  handshake := {| acceptThem := false; acceptUs := false; handshakeStart := 0 |};
  chain_height := 0;
  networking := {| ping := {| ping_nonce := 0; pingSent := 0; pongReceived := 0 |};
                   requesting := repeat x00 SHA256_LENGTH;
                   lastHeard := 0;
                   latencies := [] |};
  candidacy := zero_candidate;
  address := zero_address
|}.

Definition sample_oracle : Oracle :=
  {| get_now := 5000; get_now_ping := 5000; random_uint64 := 42 |}.

Definition version_message (v h s : Z) : Message :=
  message_of (frame CMD_VERSION [])
    (PVersion {| version := v; vp_services := s; vp_timestamp := 0;
                 addr_recv := zero_address; addr_from := zero_address;
                 vp_nonce := 0; user_agent := []; start_height := h;
                 relay := false |}).

Definition verack_message : Message := message_of verack_frame PNone.

Definition ping_message (n : Z) : Message :=
  message_of (ping_frame n) (PPingpong {| nonce := n |}).

Definition pong_message (n : Z) : Message :=
  message_of (pong_frame n) (PPingpong {| nonce := n |}).

Definition handshaken_peer (requested : SHA256_HASH) : Peer :=
  set_networking
    (set_handshake zero_peer
       {| acceptThem := true; acceptUs := true; handshakeStart := 0 |})
    (set_requesting (networking zero_peer) requested).

Definition sample_hash : SHA256_HASH := repeat x01 SHA256_LENGTH.

Definition set_status (c : PeerCandidate) (s : PeerCandidateStatus) : PeerCandidate :=
  {| addr := addr c; status := s; averageLatency := averageLatency c |}.

(** The first call of [rate_candidate] draws the jitter 1/2, the later
    calls draw 0; the clock stands still. *)
Definition sample_rate_oracle : RateOracle :=
  {| now_at := fun _ => 0%Q;
     random_betwen_0_1 := fun k => match k with O => (1 # 2)%Q | S _ => 0%Q end |}.

(** A ping frame whose checksum field does not match its payload. *)
Definition corrupt_ping_frame (n : Z) : list byte :=
  frame_with_checksum CMD_PING [x00; x00; x00; x00] (le_encode 8 n).

(** The header of a [block] frame that declares 70000 bytes of payload,
    more than the buffer can hold after a header. *)
Definition oversize_header : list byte :=
  take 24 (frame_with_checksum CMD_BLOCK [x00; x00; x00; x00] (repeat x00 (Z.to_nat 70000))).

(** A cache that holds [stream] and nothing else. *)
Definition cache_holding (stream : list byte) : MessageCache :=
  {| bufferIndex := Z.of_nat (length stream);
     buffer := take (Z.to_nat CAPACITY) (stream ++ repeat x00 (Z.to_nat CAPACITY)) |}.

(** A verack and a ping, cut inside the magic of the verack, inside its
    header, inside the magic of the ping and inside its payload. *)
Definition sample_stream : list byte := verack_frame ++ ping_frame 7.

Definition sample_segments : list Segment :=
  [ full_read (take 2 sample_stream);
    full_read (take 8 (drop 2 sample_stream));
    full_read (take 16 (drop 10 sample_stream));
    full_read (take 24 (drop 26 sample_stream));
    full_read (drop 50 sample_stream) ].

(** Parsers that read back the [version] frame of the examples (its
    payload is empty; the message is [version_message 70015 0 1]). *)
Definition version_parsers : PayloadParsers := {|
  parse_into_version_message := fun buf =>
    Some (message_of buf (ptrPayload (version_message 70015 0 1)));
  parse_into_verack_message := fun buf => Some (message_of buf PNone);
  parse_into_inv_message := fun _ => None;
  parse_into_addr_message := fun _ => None;
  parse_into_reject_message := fun _ => None;
  parse_into_pingpong_message := fun _ => None;
  parse_into_headers_message := fun _ => None;
  parse_into_block_message := fun _ => None;
  parse_into_blockreq_message := fun _ => None
|}.

(** ** What the handshake claims speak of *)

Definition is_verack (m : Message) : bool :=
  strcmp_eq (hdr_command (header m)) CMD_VERACK.

(** A [version] message, as the handler reads it. *)
Definition is_version (m : Message) : bool :=
  strcmp_eq (hdr_command (header m)) CMD_VERSION
  && match ptrPayload m with PVersion _ => true | _ => false end.

(** A [version] message whose version is at least the minimum. *)
Definition accepting_version (env : Env) (m : Message) : bool :=
  strcmp_eq (hdr_command (header m)) CMD_VERSION
  && match ptrPayload m with
     | PVersion vp => minimalPeerVersion env <=? version vp
     | _ => false
     end.

Definition both_observed (env : Env) (ms : list Message) : bool :=
  existsb (accepting_version env) ms && existsb is_verack ms.

(** What one run of [on_handshake_success] always does: it replaces the
    peer (IBD mode, peer behind) or sends the first [ping]. *)
Definition is_success_outcome (a : Action) : bool :=
  match a with
  | ReplacePeer => true
  | SendMessage c _ => String.eqb c CMD_PING
  | _ => false
  end.

Definition is_ping_or_getaddr (a : Action) : bool :=
  match a with
  | SendMessage c _ => String.eqb c CMD_PING || String.eqb c CMD_GETADDR
  | _ => false
  end.

(** The number of runs of [on_handshake_success] in a trace. *)
Definition success_runs (trace : list (list Action)) : nat :=
  length (filter (fun a => is_success_outcome a = true) (concat trace)).

(** Actions among which there is no [ping], no [getaddr] and no outcome of
    [on_handshake_success]. *)
Definition quiet (acts : list Action) : Prop :=
  Forall (fun a => is_success_outcome a = false /\ is_ping_or_getaddr a = false) acts.

(** A message on which the handler tests whether the handshake is complete. *)
Definition retriggers (m : Message) : bool := is_version m || is_verack m.

(** The peer with its candidate's timestamp as the handler sets it. *)
Definition refreshed (o : Oracle) (p : Peer) : Peer :=
  set_candidacy p
    (set_timestamp (candidacy p)
       (u32 (round (get_now o / SECOND_TO_MILLISECOND 1)))).

(** ** Write completion *)

Section WriteCompletion.
Context `{PayloadParsers}.

(** [on_message_attempted], communication.c:373: the callback of a write.
    [status] is the result of the write, [buf] the bytes that were
    written and [now] the clock when the callback runs.  A failed write
    returns at once; otherwise the buffer is parsed back, and a [ping]
    stamps [pingSent], a [version] stamps [handshakeStart]. *)
Definition on_message_attempted (status : Z) (buf : list byte) (now : Q) (p : Peer)
  : Peer :=
  if negb (status =? 0) then p
  else
    match parse_buffer_into_message buf with
    | None => p
    | Some msg =>
        if strcmp_eq (hdr_command (header msg)) CMD_PING then
          set_networking p
            (set_ping (networking p)
               {| ping_nonce := ping_nonce (ping (networking p));
                  pingSent := now;
                  pongReceived := pongReceived (ping (networking p)) |})
        else if strcmp_eq (hdr_command (header msg)) CMD_VERSION then
          set_handshake p
            {| acceptThem := acceptThem (handshake p);
               acceptUs := acceptUs (handshake p);
               handshakeStart := now |}
        else p
    end.
End WriteCompletion.

(** The command names that [parse_buffer_into_message] dispatches on. *)
Definition known_command (field : list byte) : bool :=
  strcmp_eq field CMD_VERSION || strcmp_eq field CMD_VERACK
  || strcmp_eq field CMD_INV || strcmp_eq field CMD_ADDR
  || strcmp_eq field CMD_REJECT || strcmp_eq field CMD_PING
  || strcmp_eq field CMD_PONG || strcmp_eq field CMD_HEADERS
  || strcmp_eq field CMD_BLOCK || strcmp_eq field CMD_GETDATA.

(** The hashes a data-exchange tick asked for, in the order of the calls. *)
Definition requested (acts : list (Z * Action)) : list SHA256_HASH :=
  omap (fun a : Z * Action =>
          match a.2 with SendGetdataForBlock (Some h) => Some h | _ => None end) acts.

(** The call of [send_getdata_for_block] with the NULL pointer. *)
Definition null_getdata (a : Z * Action) : bool :=
  match a.2 with SendGetdataForBlock None => true | _ => false end.

(** How many peers are idle before the first that is not. *)
Fixpoint idle_prefix (peers : list Peer) : nat :=
  match peers with
  | [] => 0
  | p :: rest => if is_peer_idle p then S (idle_prefix rest) else 0
  end.

Definition is_getdata (a : Z * Action) : bool :=
  match a.2 with SendGetdataForBlock _ => true | _ => false end.

Definition is_getheaders (a : Z * Action) : bool :=
  match a.2 with SendGetheaders => true | _ => false end.

(** ** Maintenance ticks *)

(** [config.tolerances]: the handshake tolerance and the peer life, in
    milliseconds (the latency tolerance is in [Env]). *)
Record Tolerances := {
  tolerance_handshake : Z;
  tolerance_peerLife : Z       (* printed with %llu; 0 switches the check off *)
}.

(** The lines the checks print. *)
Inductive Diagnostic :=
  | TimeoutNoHandshake (timeSinceConnection : Q)
  | TimeoutLatency (averageLatency : Q)
  | TimeoutLife (life : Q).

(** [a > b] on doubles *)
Definition Qgtb (a b : Q) : bool := negb (Qle_bool a b).

(** [disable_candidate], communication.c:36; [None] is the NULL pointer. *)
Definition disable_candidate (ptrCandidate : option PeerCandidate)
  : option PeerCandidate * bool :=
  match ptrCandidate with
  | Some c => (Some (set_status c PEER_CANDIDATE_STATUS_DISABLED), true)
  | None => (None, false)
  end.

Section Maintenance.
Variable env : Env.
Variable tol : Tolerances.

(** [check_peer], communication.c:87; [now] is its call of [get_now]. *)
Definition check_peer (now : Q) (ptrPeer : Peer)
  : Peer * list Action * list Diagnostic * bool :=
  let timeSinceConnection := (now - handshakeStart (handshake ptrPeer))%Q in
  let timeoutForLateHandshake :=
    negb (peer_hand_shaken ptrPeer)
    && Qgtb timeSinceConnection (inject_Z (tolerance_handshake tol)) in
  if timeoutForLateHandshake then
    let p1 := match disable_candidate (Some (candidacy ptrPeer)) with
              | (Some c, _) => set_candidacy ptrPeer c
              | (None, _) => ptrPeer
              end in
    let '(p2, acts) := replace_peer p1 in
    (p2, acts, [TimeoutNoHandshake timeSinceConnection], true)
  else
    let latencyFullyTested := is_latency_fully_tested env ptrPeer in
    let averageLatency := average_peer_latency env ptrPeer in
    let timeoutForLatePong :=
      latencyFullyTested && Qgtb averageLatency (tolerance_latency env) in
    (ptrPeer, [], if timeoutForLatePong then [TimeoutLatency averageLatency] else [],
     false).

(** [check_peer_life], communication.c:112 *)
Definition check_peer_life (now : Q) (ptrPeer : Peer)
  : Peer * list Action * list Diagnostic :=
  let life := (now - connectionStart ptrPeer)%Q in
  if Qgtb life (inject_Z (tolerance_peerLife tol)) then
    let '(p1, acts) := replace_peer ptrPeer in
    (p1, acts, [TimeoutLife life])
  else (ptrPeer, [], []).

(** [check_peers_connectivity], communication.c:135.  [clock k] is the
    answer to the [k]-th call of [get_now] of the tick; the calls made
    are listed with the slot they were made for. *)
Fixpoint check_peers_loop (clock : nat -> Q) (k : nat) (i : Z) (peers : list Peer)
  : list Peer * list (Z * Action) * list Diagnostic :=
  match peers with
  | [] => ([], [], [])
  | ptrPeer :: rest =>
      let '(p1, acts1, log1, _) := check_peer (clock k) ptrPeer in
      let '(p2, acts2, log2, k') :=
        if negb (tolerance_peerLife tol =? 0) then
          let '(p2, acts2, log2) := check_peer_life (clock (S k)) p1 in
          (p2, acts2, log2, S (S k))
        else (p1, [], [], S k) in
      let '(rest', acts, log) := check_peers_loop clock k' (i + 1) rest in
      (p2 :: rest', map (pair i) (acts1 ++ acts2) ++ acts, log1 ++ log2 ++ log)
  end.

Definition check_peers_connectivity (clock : nat -> Q) (peers : list Peer)
  : list Peer * list (Z * Action) * list Diagnostic :=
  check_peers_loop clock 0 0 peers.

(** [ping_peers], communication.c:126; [oracles i] answers the calls made
    while slot [i] is pinged. *)
Fixpoint ping_peers_loop (oracles : nat -> Oracle) (i : nat) (peers : list Peer)
  : list Peer * list (nat * Action) :=
  match peers with
  | [] => ([], [])
  | ptrPeer :: rest =>
      let '(p1, acts1) :=
        if peer_hand_shaken ptrPeer then ping_peer (oracles i) ptrPeer
        else (ptrPeer, []) in
      let '(rest', acts) := ping_peers_loop oracles (S i) rest in
      (p1 :: rest', map (pair i) acts1 ++ acts)
  end.

Definition ping_peers (oracles : nat -> Oracle) (peers : list Peer)
  : list Peer * list (nat * Action) :=
  ping_peers_loop oracles 0 peers.
End Maintenance.

(** ** Binding slots to candidates *)

(** [config.maxOutgoing] and [config.maxOutgoingIBD]. *)
Record PoolConfig := {
  maxOutgoing : Z;
  maxOutgoingIBD : Z
}.

(** [config.c] *)
Definition config_pool : PoolConfig := {| maxOutgoing := 8; maxOutgoingIBD := 64 |}.

Section Binding.
Variable env : Env.

(** The samples [pick_best_nonpeer_candidate] draws in its loop from index
    [i] on: for every candidate that is not a peer, its index and the
    score the [k]-th, [k+1]-th, ... call of [rate_candidate] gives it. *)
Fixpoint rated (o : RateOracle) (bound : list nat) (i : nat)
    (candidates : list PeerCandidate) (k : nat) : list (nat * Binary64.double) :=
  match candidates with
  | [] => []
  | ptrCandidate :: rest =>
      if is_peer bound i then rated o bound (S i) rest k
      else (i, rate_candidate env (now_at o k) (random_betwen_0_1 o k) ptrCandidate)
             :: rated o bound (S i) rest (S k)
  end.

(** [connect_to_best_candidate_as_peer], communication.c:899, on a slot
    that is in use: the candidate is picked while the slot still points to
    its old candidate, and [initialize_peer] then binds the slot to the
    pick.  [bound] lists the candidate of every slot. *)
Definition connect_to_best_candidate_as_peer (o : RateOracle)
    (peerCandidates : list PeerCandidate) (bound : list nat) (peerIndex : nat)
  : option (list nat) :=
  match pick_best_nonpeer_candidate env o peerCandidates bound with
  | Some (best, _) => Some (<[peerIndex := best]> bound)
  | None => None
  end.

(** The loop of [connect_to_initial_peers], communication.c:905: slot
    [i] is bound to the pick made with the slots before it, then
    [peerCount] is incremented.  [oracles i] answers the calls made for
    slot [i]. *)
Fixpoint connect_loop (oracles : nat -> RateOracle)
    (peerCandidates : list PeerCandidate) (outgoing : nat) (i : nat) (bound : list nat)
  : list nat :=
  match outgoing with
  | O => bound
  | S outgoing' =>
      match pick_best_nonpeer_candidate env (oracles i) peerCandidates bound with
      | Some (best, _) =>
          connect_loop oracles peerCandidates outgoing' (S i) (bound ++ [best])
      | None => bound
      end
  end.

Definition connect_to_initial_peers (cfg : PoolConfig) (oracles : nat -> RateOracle)
    (peerCandidates : list PeerCandidate) : list nat :=
  let outgoingConfig := if ibdMode env then maxOutgoingIBD cfg else maxOutgoing cfg in
  let outgoing := Z.min outgoingConfig (Z.of_nat (length peerCandidates)) in
  connect_loop oracles peerCandidates (Z.to_nat outgoing) 0 [].
End Binding.

(** [initialize_peer], communication.c:736: the slot is reset, stamped
    with the clock and bound to the candidate; of the candidate's address
    only the IP is copied.
    Modelled from the spec: [reset_peer] is declared outside [src/]; a
    slot is "reset on bind", which is taken here as every field zero. *)
Definition initialize_peer (peerIndex : Z) (ptrCandidate : PeerCandidate) (now : Q)
  : Peer :=
  {| index := peerIndex;
     connectionStart := now;
     handshake := {| acceptThem := false; acceptUs := false; handshakeStart := now |};
     chain_height := 0;
     networking := networking zero_peer;
     candidacy := ptrCandidate;
     address := {| services := 0; ip := ip (net_addr (addr ptrCandidate)); port := 0 |} |}.

(** A candidate last seen at [timestamp] (in seconds), with no latency
    average yet. *)
Definition candidate_seen_at (timestamp : Z) : PeerCandidate :=
  {| addr := {| ar_timestamp := timestamp; net_addr := zero_address |};
     status := PEER_CANDIDATE_STATUS_NORMAL;
     averageLatency := 0 |}.

(** Four slots: an idle peer, a slot that has not completed the
    handshake, a peer that awaits a block, and another idle peer. *)
Definition sample_pool : list Peer :=
  [ handshaken_peer (repeat x00 SHA256_LENGTH);
    zero_peer;
    handshaken_peer sample_hash;
    handshaken_peer (repeat x00 SHA256_LENGTH) ].

(** A chain store that misses three blocks. *)
Definition sample_missing (n : Z) : list SHA256_HASH :=
  take (Z.to_nat n)
    [repeat x02 SHA256_LENGTH; repeat x03 SHA256_LENGTH; repeat x04 SHA256_LENGTH].

(** [q] is at most [2^e] in magnitude. *)
Definition magnitude_at_most (e : Z) (q : Q) : Prop :=
  (Qabs q <= Binary64.pow2 e)%Q.

(** The age [deltaT] that [rate_candidate] computes for a candidate, in
    milliseconds. *)
Definition candidate_age (now : Q) (ptrCandidate : PeerCandidate) : Binary64.double :=
  Binary64.sub (Binary64.Finite now)
    (Binary64.round
       (SECOND_TO_MILLISECOND (inject_Z (ar_timestamp (addr ptrCandidate)) * 1))).

(** * Properties *)

(** The hash agrees with the published test vectors. *)
Example sha256_empty :
  SHA256.sha256 [] =
  [ xe3; xb0; xc4; x42; x98; xfc; x1c; x14; x9a; xfb; xf4; xc8; x99; x6f; xb9; x24;
    x27; xae; x41; xe4; x64; x9b; x93; x4c; xa4; x95; x99; x1b; x78; x52; xb8; x55 ].
Proof. vm_compute. reflexivity. Qed.

Example sha256_abc :
  take 4 (SHA256.sha256 (bytes_of_string "abc")) = [xba; x78; x16; xbf].
Proof. vm_compute. reflexivity. Qed.


(** ** Protocol handler: single messages *)

(** A command field that holds one command name does not hold another. *)
Ltac decide_commands :=
  repeat match goal with
  | H : strcmp_eq ?f ?c = true |- _ =>
      unfold strcmp_eq in H; apply bool_decide_eq_true in H
  end;
  unfold strcmp_eq;
  repeat match goal with
  | H : cstring ?f = _ |- context [cstring ?f] => rewrite H
  end;
  repeat match goal with
  | |- context [bool_decide (bytes_of_string ?a = bytes_of_string ?b)] =>
      let v := eval vm_compute in (bool_decide (bytes_of_string a = bytes_of_string b)) in
      change (bool_decide (bytes_of_string a = bytes_of_string b)) with v
  end;
  cbv iota.

Section HandlerFacts.
Variable env : Env.

Lemma ping_peer_keeps (o : Oracle) (p : Peer) :
  chain_height (ping_peer o p).1 = chain_height p
  /\ candidacy (ping_peer o p).1 = candidacy p
  /\ handshake (ping_peer o p).1 = handshake p.
Proof.
  unfold ping_peer.
  destruct (Qtrue _ && negb _); simpl; auto.
Qed.

Lemma on_handshake_success_keeps (o : Oracle) (p : Peer) :
  chain_height (on_handshake_success env o p).1 = chain_height p
  /\ candidacy (on_handshake_success env o p).1 = candidacy p
  /\ handshake (on_handshake_success env o p).1 = handshake p.
Proof.
  unfold on_handshake_success.
  destruct (ibdMode env && _); [simpl; auto|].
  pose proof (ping_peer_keeps o p) as Hk.
  destruct (ping_peer o p) as [p1 acts]; simpl in *; exact Hk.
Qed.

(** C10.  Whatever the version number of a [version] message, the
    handler copies its [start_height] into the peer's [chain_height] and
    its [services] into the candidate the peer is bound to; when the
    version is below [minimalPeerVersion] the flag [acceptThem] is left
    as it was, and a peer that was not accepted before makes no
    handshake-success call on this message. *)
Theorem version_records_height_and_services
    (o : Oracle) (p : Peer) (m : Message) (vp : VersionPayload) :
  strcmp_eq (hdr_command (header m)) CMD_VERSION = true ->
  ptrPayload m = PVersion vp ->
  let '(p', acts) := handle_incoming_message env o p m in
  chain_height p' = start_height vp
  /\ services (net_addr (addr (candidacy p'))) = vp_services vp
  /\ (version vp < minimalPeerVersion env ->
      acceptThem (handshake p') = acceptThem (handshake p)
      /\ (acceptThem (handshake p) = false -> acts = [])).
Proof.
  intros Hcmd Hpay.
  unfold handle_incoming_message.
  decide_commands. rewrite Hpay.
  set (p0 := set_candidacy p _).
  destruct (Z.leb_spec (minimalPeerVersion env) (version vp)) as [Hge|Hlt].
  - match goal with |- context [if peer_hand_shaken ?q then _ else _] =>
      set (p3 := q) end.
    destruct (peer_hand_shaken p3).
    + pose proof (on_handshake_success_keeps o p3) as (Hc & Hcand & Hh).
      destruct (on_handshake_success env o p3) as [p' acts]; simpl in *.
      rewrite Hc, Hcand. repeat split; try reflexivity. lia. lia.
    + repeat split; try reflexivity; lia.
  - match goal with |- context [if peer_hand_shaken ?q then _ else _] =>
      set (p3 := q) end.
    destruct (peer_hand_shaken p3) eqn:Hshaken.
    + pose proof (on_handshake_success_keeps o p3) as (Hc & Hcand & Hh).
      destruct (on_handshake_success env o p3) as [p' acts]; simpl in *.
      rewrite Hc, Hcand, Hh. repeat split; try reflexivity.
      intros Hfalse. unfold peer_hand_shaken in Hshaken. subst p3. simpl in Hshaken.
      rewrite Hfalse in Hshaken. discriminate.
    + repeat split; reflexivity.
Qed.

(** C8.  On a [pong] whose nonce is the peer's [ping.nonce] the handler
    sets [pongReceived] to the current time and records exactly one
    latency sample, [now - pingSent]; on a [pong] with another nonce it
    records none and leaves the whole [networking] state, the ping state
    included, as it was. *)
Theorem pong_nonce_law
    (o : Oracle) (p : Peer) (m : Message) (pp : PingpongPayload) :
  strcmp_eq (hdr_command (header m)) CMD_PONG = true ->
  ptrPayload m = PPingpong pp ->
  let p' := (handle_incoming_message env o p m).1 in
  (nonce pp = ping_nonce (ping (networking p)) ->
     latencies (networking p')
       = (get_now o - pingSent (ping (networking p)))%Q :: latencies (networking p)
     /\ pongReceived (ping (networking p')) = get_now o
     /\ ping_nonce (ping (networking p')) = ping_nonce (ping (networking p))
     /\ pingSent (ping (networking p')) = pingSent (ping (networking p)))
  /\ (nonce pp <> ping_nonce (ping (networking p)) ->
        networking p' = networking p).
Proof.
  intros Hcmd Hpay.
  unfold handle_incoming_message.
  decide_commands. rewrite Hpay. simpl.
  split; intros Hn.
  - rewrite Hn, Z.eqb_refl.
    match goal with |- context [if is_latency_fully_tested env ?q then _ else _] =>
      destruct (is_latency_fully_tested env q) end; simpl; auto.
  - apply Z.eqb_neq in Hn. rewrite Hn. reflexivity.
Qed.
End HandlerFacts.

(** ** Handshake completion *)

Lemma quiet_no_runs (acts : list Action) :
  quiet acts -> filter (fun a => is_success_outcome a = true) acts = [].
Proof.
  induction 1 as [|a acts [Ha _] _ IH]; [reflexivity|].
  rewrite filter_cons_False by congruence. exact IH.
Qed.

Lemma success_runs_cons (acts : list Action) (trace : list (list Action)) :
  success_runs (acts :: trace)
  = (length (filter (fun a => is_success_outcome a = true) acts) + success_runs trace)%nat.
Proof. unfold success_runs. simpl. rewrite filter_app, length_app. reflexivity. Qed.

Lemma success_runs_app (t1 t2 : list (list Action)) :
  success_runs (t1 ++ t2) = (success_runs t1 + success_runs t2)%nat.
Proof.
  induction t1 as [|acts t1 IH]; [reflexivity|].
  simpl. rewrite !success_runs_cons, IH. lia.
Qed.

Lemma success_runs_quiet (trace : list (list Action)) :
  Forall quiet trace -> success_runs trace = 0%nat.
Proof.
  induction 1 as [|acts trace Hq _ IH]; [reflexivity|].
  rewrite success_runs_cons, IH, (quiet_no_runs _ Hq). reflexivity.
Qed.

Section Handshake.
Variable env : Env.

Lemma on_handshake_success_once (o : Oracle) (p : Peer) :
  length (filter (fun a => is_success_outcome a = true)
                 (on_handshake_success env o p).2) = 1%nat.
Proof.
  unfold on_handshake_success, replace_peer, ping_peer.
  destruct (ibdMode env && _); [reflexivity|].
  destruct (peerCandidateCount env <? getaddrThreshold env); reflexivity.
Qed.

(** One message: the flags only ever go from unset to set, and
    [on_handshake_success] runs exactly when the message is a [version]
    or a [verack] and both flags are set once it has been read. *)
Lemma handle_step (o : Oracle) (p : Peer) (m : Message) :
  let '(p', acts) := handle_incoming_message env o p m in
  acceptThem (handshake p') = acceptThem (handshake p) || accepting_version env m
  /\ acceptUs (handshake p') = acceptUs (handshake p) || is_verack m
  /\ (if (is_version m || is_verack m) && peer_hand_shaken p'
      then length (filter (fun a => is_success_outcome a = true) acts) = 1%nat
      else quiet acts).
Proof.
  unfold handle_incoming_message, is_version, is_verack, accepting_version.
  set (p0 := set_candidacy p _).
  destruct (strcmp_eq (hdr_command (header m)) CMD_VERSION) eqn:Hversion.
  { decide_commands. simpl.
    destruct (ptrPayload m) as [vp| | | | | |];
      try (simpl; rewrite !orb_false_r; repeat split; constructor).
    match goal with |- context [if peer_hand_shaken ?q then _ else _] =>
      set (p3 := q) end.
    assert (Hthem : acceptThem (handshake p3)
                    = acceptThem (handshake p) || (minimalPeerVersion env <=? version vp)).
    { subst p3. destruct (minimalPeerVersion env <=? version vp); simpl;
        [rewrite orb_true_r | rewrite orb_false_r]; reflexivity. }
    assert (Hus : acceptUs (handshake p3) = acceptUs (handshake p)).
    { subst p3. destruct (minimalPeerVersion env <=? version vp); reflexivity. }
    destruct (peer_hand_shaken p3) eqn:Hshaken.
    - pose proof (on_handshake_success_keeps env o p3) as (_ & _ & Hh).
      pose proof (on_handshake_success_once o p3) as Hone.
      destruct (on_handshake_success env o p3) as [p' acts]; cbn [fst snd] in *.
      unfold peer_hand_shaken. rewrite Hh.
      fold (peer_hand_shaken p3). rewrite Hshaken, Hthem, Hus, orb_false_r. auto.
    - rewrite Hshaken, Hthem, Hus, orb_false_r. repeat split. constructor. }
  destruct (strcmp_eq (hdr_command (header m)) CMD_VERACK) eqn:Hverack.
  { simpl. rewrite orb_false_r, orb_true_r.
    match goal with |- context [if peer_hand_shaken ?q then _ else _] =>
      set (p1 := q) end.
    destruct (peer_hand_shaken p1) eqn:Hshaken.
    - pose proof (on_handshake_success_keeps env o p1) as (_ & _ & Hh).
      pose proof (on_handshake_success_once o p1) as Hone.
      destruct (on_handshake_success env o p1) as [p' acts]; cbn [fst snd] in *.
      unfold peer_hand_shaken. rewrite Hh.
      fold (peer_hand_shaken p1). rewrite Hshaken. auto.
    - rewrite Hshaken. repeat split. repeat constructor. }
  simpl. rewrite !orb_false_r.
  destruct (strcmp_eq (hdr_command (header m)) CMD_ADDR).
  { destruct (ptrPayload m) as [| |addr_list| | | |]; repeat split; try constructor.
    induction addr_list as [|r l IH]; [constructor|].
    simpl. destruct (is_ipv4 _); [constructor; [split; reflexivity|]|]; exact IH. }
  destruct (strcmp_eq (hdr_command (header m)) CMD_PING).
  { repeat split. repeat constructor. }
  destruct (strcmp_eq (hdr_command (header m)) CMD_PONG).
  { destruct (ptrPayload m) as [|pp| | | | |]; repeat split; try constructor.
    destruct (nonce pp =? _).
    - match goal with |- context [if is_latency_fully_tested env ?q then _ else _] =>
        destruct (is_latency_fully_tested env q) end; repeat split; constructor.
    - repeat split. repeat constructor. }
  destruct (strcmp_eq (hdr_command (header m)) CMD_HEADERS).
  { destruct (ptrPayload m) as [| | |hs| | |]; repeat split; try constructor.
    induction hs as [|h l IH]; constructor; [split; reflexivity | exact IH]. }
  destruct (strcmp_eq (hdr_command (header m)) CMD_BLOCK).
  { destruct (ptrPayload m); repeat split; repeat constructor. }
  repeat split. constructor.
Qed.
End Handshake.

Section HandshakeRuns.
Variable env : Env.

Lemma handle_all_app (p : Peer) (l1 l2 : list (Oracle * Message)) :
  handle_all env p (l1 ++ l2)
  = let '(p1, t1) := handle_all env p l1 in
    let '(p2, t2) := handle_all env p1 l2 in
    (p2, t1 ++ t2).
Proof.
  revert p. induction l1 as [|[o m] l1 IH]; intros p; simpl.
  - destruct (handle_all env p l2); reflexivity.
  - destruct (handle_incoming_message env o p m) as [p1 acts].
    rewrite IH.
    destruct (handle_all env p1 l1) as [p2 t1].
    destruct (handle_all env p2 l2) as [p3 t2]. reflexivity.
Qed.

Lemma handle_all_length (p : Peer) (l : list (Oracle * Message)) :
  length (handle_all env p l).2 = length l.
Proof.
  revert p. induction l as [|[o m] l IH]; intros p; simpl; [reflexivity|].
  destruct (handle_incoming_message env o p m) as [p1 acts].
  specialize (IH p1). destruct (handle_all env p1 l) as [p2 t].
  simpl in *. congruence.
Qed.

(** The flags after a run are the flags before it or what was observed. *)
Lemma handle_all_flags (p : Peer) (l : list (Oracle * Message)) :
  acceptThem (handshake (handle_all env p l).1)
    = acceptThem (handshake p) || existsb (accepting_version env) (map snd l)
  /\ acceptUs (handshake (handle_all env p l).1)
    = acceptUs (handshake p) || existsb is_verack (map snd l).
Proof.
  revert p. induction l as [|[o m] l IH]; intros p; simpl.
  - rewrite !orb_false_r. auto.
  - pose proof (handle_step env o p m) as Hstep.
    destruct (handle_incoming_message env o p m) as [p1 acts].
    destruct Hstep as (Hthem & Hus & _).
    specialize (IH p1). destruct (handle_all env p1 l) as [p2 t].
    simpl in *. destruct IH as [IH1 IH2].
    rewrite IH1, IH2, Hthem, Hus, !orb_assoc. auto.
Qed.

(** Until both have been observed nothing of the handshake-success
    action is sent. *)
Lemma handle_all_quiet (p : Peer) (l : list (Oracle * Message)) :
  peer_hand_shaken (handle_all env p l).1 = false ->
  Forall quiet (handle_all env p l).2.
Proof.
  revert p. induction l as [|[o m] l IH]; intros p; simpl; [constructor|].
  pose proof (handle_step env o p m) as Hstep.
  destruct (handle_incoming_message env o p m) as [p1 acts].
  destruct Hstep as (Hthem & Hus & Hacts).
  pose proof (handle_all_flags p1 l) as [Hf1 Hf2].
  specialize (IH p1). destruct (handle_all env p1 l) as [p2 t].
  simpl in *. intros Hno.
  constructor; [|apply IH; exact Hno].
  assert (Hp1 : peer_hand_shaken p1 = false).
  { unfold peer_hand_shaken in *. rewrite Hf1, Hf2 in Hno.
    destruct (acceptThem (handshake p1)), (acceptUs (handshake p1));
      simpl in *; congruence. }
  rewrite Hp1, andb_false_r in Hacts. exact Hacts.
Qed.

(** Once both flags are set, every further [version] or [verack] runs
    [on_handshake_success] again. *)
Lemma handle_all_shaken (p : Peer) (l : list (Oracle * Message)) :
  peer_hand_shaken p = true ->
  success_runs (handle_all env p l).2
  = length (filter (fun m => retriggers m = true) (map snd l)).
Proof.
  revert p. induction l as [|[o m] l IH]; intros p Hp; simpl; [reflexivity|].
  pose proof (handle_step env o p m) as Hstep.
  destruct (handle_incoming_message env o p m) as [p1 acts].
  destruct Hstep as (Hthem & Hus & Hacts).
  assert (Hp1 : peer_hand_shaken p1 = true).
  { unfold peer_hand_shaken in *. rewrite Hthem, Hus.
    apply andb_true_iff in Hp as [-> ->]. reflexivity. }
  specialize (IH p1 Hp1). destruct (handle_all env p1 l) as [p2 t].
  simpl in *. rewrite success_runs_cons, IH.
  rewrite Hp1, andb_true_r in Hacts. fold (retriggers m) in Hacts.
  destruct (retriggers m) eqn:Hr.
  - rewrite filter_cons_True by assumption. rewrite Hacts. reflexivity.
  - rewrite filter_cons_False by congruence.
    rewrite (quiet_no_runs _ Hacts). reflexivity.
Qed.

Lemma accepting_version_is_version (m : Message) :
  accepting_version env m = true -> is_version m = true.
Proof.
  unfold accepting_version, is_version.
  destruct (strcmp_eq _ _); [|discriminate].
  destruct (ptrPayload m); simpl; congruence.
Qed.

(** C7, as the code has it.  Take a peer with both flags unset and a
    sequence of messages in which [x] is the first message after which
    both a [version] with version >= minimum and a [verack] have been
    observed.  Before [x] the handler sends no [ping] and no [getaddr]
    and never runs [on_handshake_success]; on [x] it runs it exactly
    once; after [x] it runs it once more for every further [version] or
    [verack] message, so the number of runs is one plus the number of
    those. *)
Theorem handshake_success_runs
    (p0 : Peer) (pre post : list (Oracle * Message)) (x : Oracle * Message) :
  acceptThem (handshake p0) = false ->
  acceptUs (handshake p0) = false ->
  both_observed env (map snd pre) = false ->
  both_observed env (map snd (pre ++ [x])) = true ->
  let trace := (handle_all env p0 (pre ++ x :: post)).2 in
  Forall quiet (take (length pre) trace)
  /\ success_runs (take (S (length pre)) trace) = 1%nat
  /\ success_runs trace
     = (1 + length (filter (fun m => retriggers m = true) (map snd post)))%nat.
Proof.
  intros Hthem0 Hus0 Hpre Hx. cbv zeta.
  rewrite handle_all_app.
  pose proof (handle_all_flags p0 pre) as [Hf1 Hf2].
  pose proof (handle_all_quiet p0 pre) as Hquiet.
  pose proof (handle_all_length p0 pre) as Hlen.
  destruct (handle_all env p0 pre) as [p1 t1]. simpl in Hf1, Hf2, Hquiet, Hlen.
  rewrite Hthem0 in Hf1. rewrite Hus0 in Hf2. simpl in Hf1, Hf2.
  assert (Hp1 : peer_hand_shaken p1 = false).
  { unfold peer_hand_shaken. rewrite Hf1, Hf2. exact Hpre. }
  specialize (Hquiet Hp1).
  destruct x as [o m]. simpl.
  pose proof (handle_step env o p1 m) as Hstep.
  destruct (handle_incoming_message env o p1 m) as [p2 acts].
  destruct Hstep as (Hthem & Hus & Hacts).
  assert (Hp2 : peer_hand_shaken p2 = true).
  { unfold peer_hand_shaken. rewrite Hthem, Hus, Hf1, Hf2.
    unfold both_observed in Hx. rewrite map_app, !existsb_app in Hx.
    simpl in Hx. rewrite !orb_false_r in Hx. exact Hx. }
  assert (Hm : retriggers m = true).
  { unfold retriggers. unfold peer_hand_shaken in Hp1, Hp2.
    rewrite Hthem, Hus in Hp2.
    destruct (is_verack m); [apply orb_true_r|].
    destruct (accepting_version env m) eqn:Hacc.
    - rewrite (accepting_version_is_version _ Hacc). reflexivity.
    - rewrite !orb_false_r in Hp2. congruence. }
  unfold retriggers in Hm. rewrite Hm, Hp2 in Hacts. simpl in Hacts.
  pose proof (handle_all_shaken p2 post Hp2) as Hpost.
  destruct (handle_all env p2 post) as [p3 t2]. simpl in Hpost |- *.
  rewrite <- Hlen.
  split; [|split].
  - rewrite take_app_length. exact Hquiet.
  - replace (S (length t1)) with (length (t1 ++ [acts])) by (rewrite length_app; simpl; lia).
    rewrite (cons_middle acts t1 t2), app_assoc, take_app_length.
    rewrite success_runs_app, success_runs_cons, Hacts, (success_runs_quiet _ Hquiet).
    reflexivity.
  - rewrite success_runs_app, success_runs_cons, Hacts, (success_runs_quiet _ Hquiet), Hpost.
    reflexivity.
Qed.
End HandshakeRuns.

(** *** Worked examples for the handler *)

Lemma version_records_height_and_services_witness :
  strcmp_eq (hdr_command (header (version_message 209 600000 1))) CMD_VERSION = true
  /\ (let '(p', acts) :=
        handle_incoming_message sample_env sample_oracle zero_peer
          (version_message 209 600000 1) in
      chain_height p' = 600000
      /\ services (net_addr (addr (candidacy p'))) = 1
      /\ (209 < minimalPeerVersion sample_env ->
          acceptThem (handshake p') = acceptThem (handshake zero_peer)
          /\ (acceptThem (handshake zero_peer) = false -> acts = []))).
Proof.
  split; [vm_compute; reflexivity|].
  pose proof (version_records_height_and_services sample_env sample_oracle zero_peer
                (version_message 209 600000 1) _
                ltac:(vm_compute; reflexivity) eq_refl) as Hrec.
  exact Hrec.
Defined.

Lemma pong_nonce_law_witness :
  let p := set_networking zero_peer
             (set_ping (networking zero_peer)
                {| ping_nonce := 42; pingSent := 4000; pongReceived := 0 |}) in
  let p' := (handle_incoming_message sample_env sample_oracle p (pong_message 42)).1 in
  strcmp_eq (hdr_command (header (pong_message 42))) CMD_PONG = true
  /\ latencies (networking p') = [(5000 - 4000)%Q]
  /\ pongReceived (ping (networking p')) = 5000%Q.
Proof.
  cbv zeta.
  split; [vm_compute; reflexivity|].
  pose proof (pong_nonce_law sample_env sample_oracle
                (set_networking zero_peer
                   (set_ping (networking zero_peer)
                      {| ping_nonce := 42; pingSent := 4000; pongReceived := 0 |}))
                (pong_message 42) {| nonce := 42 |}) as Hlaw.
  destruct Hlaw as [Hmatch _]; [vm_compute; reflexivity | reflexivity |].
  destruct Hmatch as (Hl & Hp & _); [reflexivity|].
  split; [exact Hl | exact Hp].
Defined.

(** C7 as the spec states it does not hold: a second [verack] after the
    handshake is complete runs [on_handshake_success] a second time (two
    first pings are sent). *)
Lemma handshake_success_runs_twice :
  let inputs := [ (sample_oracle, version_message 70015 600000 1);
                  (sample_oracle, verack_message);
                  (sample_oracle, verack_message) ] in
  both_observed sample_env (map snd (take 2 inputs)) = true
  /\ success_runs (handle_all sample_env zero_peer inputs).2 = 2%nat.
Proof. vm_compute. split; reflexivity. Qed.

Lemma handshake_success_runs_witness :
  let pre := [ (sample_oracle, version_message 70015 600000 1) ] in
  let x := (sample_oracle, verack_message) in
  let post := [ (sample_oracle, ping_message 7) ] in
  let trace := (handle_all sample_env zero_peer (pre ++ x :: post)).2 in
  both_observed sample_env (map snd pre) = false
  /\ both_observed sample_env (map snd (pre ++ [x])) = true
  /\ Forall quiet (take (length pre) trace)
  /\ success_runs (take (S (length pre)) trace) = 1%nat
  /\ success_runs trace = 1%nat.
Proof.
  cbv zeta.
  split; [vm_compute; reflexivity|].
  split; [vm_compute; reflexivity|].
  apply (handshake_success_runs sample_env zero_peer
           [ (sample_oracle, version_message 70015 600000 1) ]
           [ (sample_oracle, ping_message 7) ]
           (sample_oracle, verack_message));
    vm_compute; reflexivity.
Defined.

(** ** Data exchange *)

(** C4 at two ticks.  With one handshaken peer that is still waiting for a
    block and no missing hash, the tick calls [send_getdata_for_block] for
    that peer with the NULL pointer.  With one idle handshaken peer and one
    missing hash, the tick requests the hash and leaves the peer's
    [requesting] all-zero. *)
Theorem exchange_data_requests_without_discipline :
  exchange_data_with_peers sample_env (fun _ => []) [handshaken_peer sample_hash]
    = ([handshaken_peer sample_hash], [(0, SendGetdataForBlock None)])
  /\ is_peer_idle (handshaken_peer sample_hash) = false
  /\ exchange_data_with_peers sample_env (fun _ => [sample_hash])
       [handshaken_peer (repeat x00 SHA256_LENGTH)]
     = ([handshaken_peer (repeat x00 SHA256_LENGTH)],
        [(0, SendGetdataForBlock (Some sample_hash))]).
Proof. vm_compute. repeat split; reflexivity. Qed.

(** No tick writes a peer: [requesting] is as it was, whatever was sent. *)
Lemma exchange_loop_keeps_peers (env : Env) (peers : list Peer)
    (blocksDesired : list SHA256_HASH) (i blockIndex : Z) :
  (exchange_loop env i peers blocksDesired blockIndex).1 = peers.
Proof.
  revert i blockIndex. induction peers as [|p peers IH]; intros i blockIndex; simpl.
  - reflexivity.
  - destruct (negb (peer_hand_shaken p)).
    + specialize (IH (i + 1) blockIndex).
      destruct (exchange_loop env (i + 1) peers blocksDesired blockIndex).
      simpl in *. congruence.
    + destruct (is_peer_idle p && _); [|reflexivity].
      destruct (blocksDesired !! Z.to_nat blockIndex); [|reflexivity].
      specialize (IH (i + 1) (u32 (blockIndex + 1))).
      destruct (exchange_loop env (i + 1) peers blocksDesired (u32 (blockIndex + 1))).
      simpl in *. congruence.
Qed.

(** ** Candidate selection *)

(** C5 at two candidates, the first bound to a slot and the second free:
    the first is rated 2.5, the second 1.5, and the function returns the
    first, the bound one. *)
Theorem pick_best_returns_bound_candidate :
  let bound := [0%nat] in
  is_peer bound 1 = false
  /\ match pick_best_nonpeer_candidate sample_env sample_rate_oracle
             [zero_candidate; zero_candidate] bound with
     | Some (best, finalScore) =>
         best = 0%nat /\ is_peer bound best = true
         /\ finalScore = Binary64.Finite (5 # 2)
     | None => False
     end.
Proof. vm_compute. repeat split; reflexivity. Qed.

(** ** Binary64 rounding *)



Module Binary64Facts.
Import Binary64.
#[local] Open Scope Q_scope.

Lemma pow2_pos (e : Z) : 0 < pow2 e.
Proof. apply Qpower_0_lt. reflexivity. Qed.

Lemma pow2_add (a b : Z) : pow2 (a + b) == pow2 a * pow2 b.
Proof. apply Qpower_plus. discriminate. Qed.

Lemma pow2_le (a b : Z) : (a <= b)%Z -> pow2 a <= pow2 b.
Proof. intros H. apply Qpower_le_compat_l; [exact H | discriminate]. Qed.

Lemma pow2_lt (a b : Z) : (a < b)%Z -> pow2 a < pow2 b.
Proof. intros H. apply Qpower_lt_compat_l; [exact H | reflexivity]. Qed.

Lemma pow2_lt_inv (a b : Z) : pow2 a < pow2 b -> (a < b)%Z.
Proof. intros H. apply (Qpower_lt_compat_l_inv 2); [exact H | reflexivity]. Qed.

Lemma pow2_inject (e : Z) : (0 <= e)%Z -> pow2 e == inject_Z (2 ^ e).
Proof. intros H. symmetry. apply (Zpower_Qpower 2 e H). Qed.

Lemma Qnum_pos (q : Q) : 0 < q <-> (0 < Qnum q)%Z.
Proof. unfold Qlt. simpl. lia. Qed.

Lemma Qnum_neg (q : Q) : q < 0 <-> (Qnum q < 0)%Z.
Proof. unfold Qlt. simpl. lia. Qed.

Lemma Qnum_zero (q : Q) : q == 0 <-> Qnum q = 0%Z.
Proof. unfold Qeq. simpl. lia. Qed.

(** [ilog2] is the integer part of the binary logarithm. *)
Lemma ilog2_spec (q : Q) : 0 < q -> pow2 (ilog2 q) <= q < pow2 (ilog2 q + 1).
Proof.
  intros Hq. destruct q as [n d]. apply Qnum_pos in Hq. cbn [Qnum] in Hq.
  unfold ilog2. cbn [Qnum Qden].
  pose proof (Z.log2_spec n Hq) as [Hn1 Hn2].
  pose proof (Z.log2_spec (Zpos d) ltac:(lia)) as [Hd1 Hd2].
  pose proof (Z.log2_nonneg n) as Hn0.
  pose proof (Z.log2_nonneg (Zpos d)) as Hd0.
  set (ln := Z.log2 n) in *. set (ld := Z.log2 (Zpos d)) in *.
  assert (Hup : n # d < pow2 (ln - ld + 1)).
  { apply (Qmult_lt_r _ _ (pow2 ld) (pow2_pos ld)).
    rewrite <- pow2_add. replace (ln - ld + 1 + ld)%Z with (Z.succ ln) by lia.
    rewrite !pow2_inject by lia.
    unfold Qlt, Qmult, inject_Z; cbn [Qnum Qden].
    assert (0 < 2 ^ ld)%Z by (apply Z.pow_pos_nonneg; lia). nia. }
  assert (Hlow : pow2 (ln - ld - 1) <= n # d).
  { apply (Qmult_le_r _ _ (pow2 (Z.succ ld)) (pow2_pos _)).
    rewrite <- pow2_add. replace (ln - ld - 1 + Z.succ ld)%Z with ln by lia.
    rewrite !pow2_inject by lia.
    unfold Qle, Qmult, inject_Z; cbn [Qnum Qden].
    assert (0 < 2 ^ ln)%Z by (apply Z.pow_pos_nonneg; lia). nia. }
  destruct (Qle_bool (pow2 (ln - ld)) (n # d)) eqn:Hle.
  - apply Qle_bool_iff in Hle. split; assumption.
  - split; [exact Hlow|].
    replace (ln - ld - 1 + 1)%Z with (ln - ld)%Z by lia.
    apply Qnot_le_lt. intros Hc. apply Qle_bool_iff in Hc. congruence.
Qed.

Lemma ilog2_mono (a b : Q) : 0 < a -> a <= b -> (ilog2 a <= ilog2 b)%Z.
Proof.
  intros Ha Hab.
  pose proof (ilog2_spec a Ha) as [Ha1 _].
  pose proof (ilog2_spec b ltac:(lra)) as [_ Hb2].
  assert (H : pow2 (ilog2 a) < pow2 (ilog2 b + 1)) by lra.
  apply pow2_lt_inv in H. lia.
Qed.

Lemma nearest_even_Z (n : Z) : nearest_even (inject_Z n) = n.
Proof.
  unfold nearest_even. rewrite Qfloor_Z.
  destruct (Qcompare_spec (inject_Z n - inject_Z n) (1 # 2)) as [H|H|H];
    [exfalso; lra | reflexivity | exfalso; lra].
Qed.

Lemma nearest_even_floor (x : Q) :
  nearest_even x = Qfloor x \/ nearest_even x = (Qfloor x + 1)%Z.
Proof.
  unfold nearest_even.
  destruct (x - inject_Z (Qfloor x) ?= 1 # 2); [destruct (Z.even _)| |]; auto.
Qed.

Lemma nearest_even_mono (x y : Q) : x <= y -> (nearest_even x <= nearest_even y)%Z.
Proof.
  intros Hxy. pose proof (Qfloor_resp_le x y Hxy) as Hf.
  destruct (Z.eq_dec (Qfloor x) (Qfloor y)) as [Heq|Hne].
  - unfold nearest_even. rewrite <- Heq.
    destruct (Qcompare_spec (x - inject_Z (Qfloor x)) (1 # 2)) as [Hx|Hx|Hx];
      destruct (Qcompare_spec (y - inject_Z (Qfloor x)) (1 # 2)) as [Hy|Hy|Hy];
      try (destruct (Z.even (Qfloor x))); try lia; exfalso; lra.
  - destruct (nearest_even_floor x) as [-> | ->];
      destruct (nearest_even_floor y) as [-> | ->]; lia.
Qed.

Lemma nearest_even_ext (x y : Q) : x == y -> nearest_even x = nearest_even y.
Proof.
  intros H. apply Z.le_antisymm; apply nearest_even_mono; lra.
Qed.

Lemma nearest_even_lower (n : Z) (x : Q) : inject_Z n <= x -> (n <= nearest_even x)%Z.
Proof.
  intros H. pose proof (nearest_even_mono _ _ H) as Hm.
  rewrite nearest_even_Z in Hm. exact Hm.
Qed.

Lemma nearest_even_upper (n : Z) (x : Q) : x <= inject_Z n -> (nearest_even x <= n)%Z.
Proof.
  intros H. pose proof (nearest_even_mono _ _ H) as Hm.
  rewrite nearest_even_Z in Hm. exact Hm.
Qed.


(** The scaled value lies below [2^53], and from [2^52] on when the
    exponent is not the smallest. *)
Lemma scaled_upper (q : Q) : 0 < q -> q / pow2 (exponent q) < pow2 53.
Proof.
  intros Hq. pose proof (ilog2_spec q Hq) as [_ Hup].
  apply Qlt_shift_div_r; [apply pow2_pos|].
  rewrite <- pow2_add.
  apply Qlt_le_trans with (pow2 (ilog2 q + 1)); [exact Hup|].
  apply pow2_le. unfold exponent. lia.
Qed.

Lemma scaled_lower (q : Q) :
  0 < q -> (-1074 < exponent q)%Z -> pow2 52 <= q / pow2 (exponent q).
Proof.
  intros Hq He. pose proof (ilog2_spec q Hq) as [Hlow _].
  apply Qle_shift_div_l; [apply pow2_pos|].
  rewrite <- pow2_add.
  replace (52 + exponent q)%Z with (ilog2 q) by (unfold exponent in *; lia).
  exact Hlow.
Qed.

Lemma exponent_mono (a b : Q) : 0 < a -> a <= b -> (exponent a <= exponent b)%Z.
Proof.
  intros Ha Hab. pose proof (ilog2_mono a b Ha Hab). unfold exponent. lia.
Qed.

Lemma nearest_mono (a b : Q) : 0 < a -> a <= b -> nearest a <= nearest b.
Proof.
  intros Ha Hab. assert (Hb : 0 < b) by lra.
  pose proof (exponent_mono a b Ha Hab) as He.
  unfold nearest.
  destruct (Z.eq_dec (exponent a) (exponent b)) as [Heq|Hne].
  - rewrite Heq. apply Qmult_le_compat_r; [|apply Qlt_le_weak, pow2_pos].
    rewrite <- Zle_Qle. apply nearest_even_mono.
    apply Qmult_le_compat_r; [exact Hab|].
    apply Qlt_le_weak, Qinv_lt_0_compat, pow2_pos.
  - assert (Hlt : (exponent a < exponent b)%Z) by lia.
    assert (Hma : (nearest_even (a / pow2 (exponent a)) <= 2 ^ 53)%Z).
    { apply nearest_even_upper. rewrite <- (pow2_inject 53) by lia.
      apply Qlt_le_weak, scaled_upper, Ha. }
    assert (Hmb : (2 ^ 52 <= nearest_even (b / pow2 (exponent b)))%Z).
    { apply nearest_even_lower. rewrite <- (pow2_inject 52) by lia.
      apply scaled_lower; [exact Hb|]. unfold exponent in *. lia. }
    apply Qle_trans with (pow2 53 * pow2 (exponent a)).
    { apply Qmult_le_compat_r; [|apply Qlt_le_weak, pow2_pos].
      rewrite (pow2_inject 53) by lia. rewrite <- Zle_Qle. exact Hma. }
    apply Qle_trans with (pow2 52 * pow2 (exponent b)).
    { rewrite <- !pow2_add. apply pow2_le. lia. }
    apply Qmult_le_compat_r; [|apply Qlt_le_weak, pow2_pos].
    rewrite (pow2_inject 52) by lia. rewrite <- Zle_Qle. exact Hmb.
Qed.

Lemma nearest_nonneg (q : Q) : 0 < q -> 0 <= nearest q.
Proof.
  intros Hq. unfold nearest.
  apply Qmult_le_0_compat; [|apply Qlt_le_weak, pow2_pos].
  change 0 with (inject_Z 0). rewrite <- Zle_Qle.
  apply nearest_even_lower. change (inject_Z 0) with 0.
  apply Qlt_le_weak. apply Qlt_shift_div_l; [apply pow2_pos|]. lra.
Qed.

(** A multiple of a power of two with fewer than 54 significant bits is a
    value of the format. *)
Lemma nearest_exact (n k : Z) :
  (0 < n < 2 ^ 53)%Z -> (-1074 <= k)%Z ->
  nearest (inject_Z n * pow2 k) == inject_Z n * pow2 k.
Proof.
  intros Hn Hk. set (q := inject_Z n * pow2 k).
  assert (Hq : 0 < q).
  { subst q. apply Qmult_lt_0_compat; [|apply pow2_pos].
    change 0 with (inject_Z 0). rewrite <- Zlt_Qlt. lia. }
  assert (He : (exponent q <= k)%Z).
  { pose proof (ilog2_spec q Hq) as [Hlow _].
    assert (Hup : q < pow2 (53 + k)).
    { subst q. rewrite pow2_add. apply Qmult_lt_compat_r; [apply pow2_pos|].
      rewrite (pow2_inject 53) by lia. rewrite <- Zlt_Qlt. lia. }
    assert (H : pow2 (ilog2 q) < pow2 (53 + k)) by lra.
    apply pow2_lt_inv in H. unfold exponent. lia. }
  unfold nearest. fold q.
  assert (Hscaled : q / pow2 (exponent q) == inject_Z (n * 2 ^ (k - exponent q))).
  { subst q. rewrite inject_Z_mult, <- pow2_inject by lia.
    replace k with ((k - exponent (inject_Z n * pow2 k)) + exponent (inject_Z n * pow2 k))%Z
      at 1 by lia.
    rewrite pow2_add. field.
    pose proof (pow2_pos (exponent (inject_Z n * pow2 k))). lra. }
  assert (Hm : nearest_even (q / pow2 (exponent q)) = (n * 2 ^ (k - exponent q))%Z).
  { rewrite (nearest_even_ext _ _ Hscaled). apply nearest_even_Z. }
  rewrite Hm, inject_Z_mult, <- pow2_inject by lia.
  rewrite <- Qmult_assoc, <- pow2_add.
  replace (k - exponent q + exponent q)%Z with k by lia. reflexivity.
Qed.



Lemma ltb_Finite (a b : Q) : ltb (Finite a) (Finite b) = true <-> a < b.
Proof.
  cbn [ltb]. rewrite negb_true_iff. split.
  - intros H. apply Qnot_le_lt. intros Hc. apply Qle_bool_iff in Hc. congruence.
  - intros H. destruct (Qle_bool b a) eqn:Hc; [|reflexivity].
    apply Qle_bool_iff in Hc. lra.
Qed.

Lemma leb_trans (x y z : double) : leb x y = true -> leb y z = true -> leb x z = true.
Proof.
  destruct x, y, z; cbn [leb]; try congruence.
  rewrite !Qle_bool_iff. apply Qle_trans.
Qed.

Lemma leb_opp (x y : double) : leb x y = true -> leb (opp y) (opp x) = true.
Proof.
  destruct x, y; cbn [leb opp]; try congruence.
  rewrite !Qle_bool_iff, !Qred_correct. lra.
Qed.


Lemma round_pos_mono (a b : Q) :
  0 < a -> a <= b -> leb (round_pos a) (round_pos b) = true.
Proof.
  intros Ha Hab. pose proof (nearest_mono a b Ha Hab) as Hm. unfold round_pos.
  destruct (Qle_bool (pow2 1024) (nearest a)) eqn:Hoa;
    destruct (Qle_bool (pow2 1024) (nearest b)) eqn:Hob; cbn [leb]; try reflexivity.
  - apply Qle_bool_iff in Hoa.
    assert (Hc : pow2 1024 <= nearest b) by lra.
    apply Qle_bool_iff in Hc. congruence.
  - apply Qle_bool_iff. rewrite !Qred_correct. exact Hm.
Qed.

Lemma round_pos_nonneg (q : Q) : 0 < q -> leb (Finite 0) (round_pos q) = true.
Proof.
  intros Hq. unfold round_pos.
  destruct (Qle_bool (pow2 1024) (nearest q)); cbn [leb]; [reflexivity|].
  apply Qle_bool_iff. rewrite Qred_correct. apply nearest_nonneg, Hq.
Qed.

Lemma round_cases (q : Q) :
  (q == 0 /\ round q = Finite 0)
  \/ (0 < q /\ round q = round_pos q)
  \/ (q < 0 /\ round q = opp (round_pos (- q))).
Proof.
  unfold round. destruct (Qnum q) eqn:Hn.
  - left. split; [apply Qnum_zero, Hn | reflexivity].
  - right; left. split; [apply Qnum_pos; lia | reflexivity].
  - right; right. split; [apply Qnum_neg; lia | reflexivity].
Qed.

(** Rounding keeps the order. *)
Lemma round_mono (a b : Q) : a <= b -> leb (round a) (round b) = true.
Proof.
  intros Hab.
  destruct (round_cases a) as [[Ha ->] | [[Ha ->] | [Ha ->]]];
    destruct (round_cases b) as [[Hb ->] | [[Hb ->] | [Hb ->]]];
    try (exfalso; lra).
  - reflexivity.
  - apply round_pos_nonneg, Hb.
  - apply round_pos_mono; assumption.
  - apply (leb_opp (Finite 0)). apply round_pos_nonneg. lra.
  - apply leb_trans with (Finite 0).
    + apply (leb_opp (Finite 0)). apply round_pos_nonneg. lra.
    + apply round_pos_nonneg, Hb.
  - apply leb_opp. apply round_pos_mono; lra.
Qed.


(** The values of the format are kept. *)
Lemma round_exact (n k : Z) :
  (Z.abs n < 2 ^ 53)%Z -> (-1074 <= k <= 971)%Z ->
  is_value (round (inject_Z n * pow2 k)) (inject_Z n * pow2 k).
Proof.
  intros Hn Hk.
  assert (Hpos : forall m, (0 < m < 2 ^ 53)%Z ->
            is_value (round_pos (inject_Z m * pow2 k)) (inject_Z m * pow2 k)).
  { intros m Hm. unfold round_pos.
    pose proof (nearest_exact m k Hm ltac:(lia)) as He.
    assert (Hlt : nearest (inject_Z m * pow2 k) < pow2 1024).
    { rewrite He. apply Qlt_le_trans with (pow2 53 * pow2 k).
      - apply Qmult_lt_compat_r; [apply pow2_pos|].
        rewrite (pow2_inject 53) by lia. rewrite <- Zlt_Qlt. lia.
      - rewrite <- pow2_add. apply pow2_le. lia. }
    destruct (Qle_bool (pow2 1024) (nearest (inject_Z m * pow2 k))) eqn:Ho.
    - apply Qle_bool_iff in Ho. lra.
    - eexists. split; [reflexivity|]. rewrite Qred_correct. exact He. }
  pose proof (pow2_pos k) as Hp.
  destruct (round_cases (inject_Z n * pow2 k)) as [[Hz ->] | [[Hq ->] | [Hq ->]]].
  - exists 0. split; [reflexivity | symmetry; exact Hz].
  - apply Hpos. split; [|lia].
    destruct (Z.lt_trichotomy n 0) as [Hlt | [-> | Hgt]]; [| |exact Hgt]; exfalso.
    + assert (inject_Z n < 0) by (change 0 with (inject_Z 0); rewrite <- Zlt_Qlt; lia).
      assert (inject_Z n * pow2 k <= 0 * pow2 k)
        by (apply Qmult_le_compat_r; lra). lra.
    + change (inject_Z 0) with 0 in Hq. lra.
  - assert (Hneg : (n < 0)%Z).
    { destruct (Z.lt_trichotomy n 0) as [Hlt | [-> | Hgt]]; [exact Hlt| |]; exfalso.
      - change (inject_Z 0) with 0 in Hq. lra.
      - assert (0 < inject_Z n) by (change 0 with (inject_Z 0); rewrite <- Zlt_Qlt; lia).
        assert (0 * pow2 k <= inject_Z n * pow2 k)
          by (apply Qmult_le_compat_r; lra). lra. }
    assert (Heq : - (inject_Z n * pow2 k) == inject_Z (- n) * pow2 k)
      by (rewrite inject_Z_opp; ring).
    destruct (Hpos (- n)%Z ltac:(lia)) as (w & Hw & Hv).
    unfold round_pos in Hw |- *.
    assert (Hnear : nearest (- (inject_Z n * pow2 k)) == nearest (inject_Z (- n) * pow2 k)).
    { apply Qle_antisym; apply nearest_mono; lra. }
    destruct (Qle_bool (pow2 1024) (nearest (inject_Z (- n) * pow2 k))) eqn:Ho;
      [discriminate|].
    injection Hw as <-.
    destruct (Qle_bool (pow2 1024) (nearest (- (inject_Z n * pow2 k)))) eqn:Ho'.
    + apply Qle_bool_iff in Ho'. rewrite Hnear in Ho'.
      apply Qle_bool_iff in Ho'. congruence.
    + cbn [opp]. eexists. split; [reflexivity|].
      rewrite !Qred_correct, Hnear. rewrite Qred_correct in Hv. rewrite Hv. lra.
Qed.

Lemma round_pos_ext (a b : Q) : 0 < a -> a == b -> round_pos a = round_pos b.
Proof.
  intros Ha Hab.
  assert (Hnear : nearest a == nearest b) by (apply Qle_antisym; apply nearest_mono; lra).
  unfold round_pos.
  destruct (Qle_bool (pow2 1024) (nearest a)) eqn:Hoa;
    destruct (Qle_bool (pow2 1024) (nearest b)) eqn:Hob.
  - reflexivity.
  - apply Qle_bool_iff in Hoa. rewrite Hnear in Hoa. apply Qle_bool_iff in Hoa. congruence.
  - apply Qle_bool_iff in Hob. rewrite <- Hnear in Hob. apply Qle_bool_iff in Hob. congruence.
  - f_equal. apply Qred_complete, Hnear.
Qed.

(** Rounding does not depend on how the rational is written. *)
Lemma round_ext (a b : Q) : a == b -> round a = round b.
Proof.
  intros Hab.
  destruct (round_cases a) as [[Ha ->] | [[Ha ->] | [Ha ->]]];
    destruct (round_cases b) as [[Hb ->] | [[Hb ->] | [Hb ->]]];
    try (exfalso; lra).
  - reflexivity.
  - apply round_pos_ext; assumption.
  - f_equal. apply round_pos_ext; lra.
Qed.

Lemma round_exact_Z (n : Z) :
  (Z.abs n < 2 ^ 53)%Z -> is_value (round (inject_Z n)) (inject_Z n).
Proof.
  intros Hn. destruct (round_exact n 0 Hn ltac:(lia)) as (w & Hw & Hv).
  assert (Heq : inject_Z n * pow2 0 == inject_Z n) by (unfold pow2; simpl; ring).
  exists w. split; [rewrite <- Hw; apply round_ext; symmetry; exact Heq|].
  rewrite Hv. exact Heq.
Qed.

(** A rational between two values of the format rounds to a value
    between them. *)
Lemma round_between (n1 n2 k : Z) (q : Q) :
  (Z.abs n1 < 2 ^ 53)%Z -> (Z.abs n2 < 2 ^ 53)%Z -> (-1074 <= k <= 971)%Z ->
  inject_Z n1 * pow2 k <= q <= inject_Z n2 * pow2 k ->
  exists w, round q = Finite w /\ inject_Z n1 * pow2 k <= w <= inject_Z n2 * pow2 k.
Proof.
  intros H1 H2 Hk [Hlow Hup].
  destruct (round_exact n1 k H1 Hk) as (w1 & Hw1 & Hv1).
  destruct (round_exact n2 k H2 Hk) as (w2 & Hw2 & Hv2).
  pose proof (round_mono _ _ Hlow) as Hl. pose proof (round_mono _ _ Hup) as Hu.
  rewrite Hw1 in Hl. rewrite Hw2 in Hu.
  destruct (round q) as [w| | |]; cbn [leb] in Hl, Hu; try discriminate.
  exists w. split; [reflexivity|].
  apply Qle_bool_iff in Hl, Hu. lra.
Qed.

Lemma round_between_Z (n1 n2 : Z) (q : Q) :
  (Z.abs n1 < 2 ^ 53)%Z -> (Z.abs n2 < 2 ^ 53)%Z ->
  inject_Z n1 <= q <= inject_Z n2 ->
  exists w, round q = Finite w /\ inject_Z n1 <= w <= inject_Z n2.
Proof.
  intros H1 H2 Hq.
  assert (Hone : forall n, inject_Z n * pow2 0 == inject_Z n)
    by (intros n; unfold pow2; simpl; ring).
  destruct (round_between n1 n2 0 q H1 H2 ltac:(lia)) as (w & Hw & Hv).
  - rewrite !Hone. exact Hq.
  - exists w. split; [exact Hw|]. rewrite !Hone in Hv. exact Hv.
Qed.




Lemma ltb_irrefl (x : double) : ltb x x = false.
Proof.
  destruct x; cbn [ltb]; try reflexivity.
  apply negb_false_iff, Qle_bool_iff, Qle_refl.
Qed.

Lemma ltb_trans (x y z : double) : ltb x y = true -> ltb y z = true -> ltb x z = true.
Proof.
  destruct x, y, z; cbn [ltb]; try congruence.
  intros H1 H2. apply ltb_Finite in H1, H2. apply (ltb_Finite q q1). lra.
Qed.

Lemma ltb_asym (x y : double) : ltb x y = true -> ltb y x = false.
Proof.
  intros H. destruct (ltb y x) eqn:H'; [|reflexivity].
  pose proof (ltb_trans _ _ _ H H') as Hc. rewrite ltb_irrefl in Hc. discriminate.
Qed.
(** A rational within the range where the last place is at most [2^k]
    rounds to a finite value less than [2^k] away. *)
Lemma round_near_grid (k : Z) (p : Q) :
  (-1074 <= k <= 971)%Z ->
  - pow2 (52 + k) <= p <= pow2 (52 + k) ->
  exists u, round p = Finite u
            /\ p - pow2 k < u < p + pow2 k
            /\ - pow2 (52 + k) <= u <= pow2 (52 + k).
Proof.
  intros Hk [Hlow Hup]. pose proof (pow2_pos k) as Hp.
  assert (Hscale : - inject_Z (2 ^ 52) <= p / pow2 k <= inject_Z (2 ^ 52)).
  { rewrite <- (pow2_inject 52) by lia. split.
    - apply Qle_shift_div_l; [exact Hp|].
      assert (He : - pow2 52 * pow2 k == - pow2 (52 + k))
        by (rewrite pow2_add; ring).
      rewrite He. exact Hlow.
    - apply Qle_shift_div_r; [exact Hp|]. rewrite <- pow2_add. exact Hup. }
  set (x := p / pow2 k) in *.
  assert (Hx : p == x * pow2 k) by (subst x; field; lra).
  assert (Hf : (- 2 ^ 52 <= Qfloor x)%Z).
  { rewrite <- (Qfloor_Z (- 2 ^ 52)). apply Qfloor_resp_le.
    rewrite inject_Z_opp. exact (proj1 Hscale). }
  assert (Hc : (Qceiling x <= 2 ^ 52)%Z).
  { rewrite <- (Qceiling_Z (2 ^ 52)). apply Qceiling_resp_le. exact (proj2 Hscale). }
  pose proof (Qle_floor_ceiling x) as Hfc. rewrite <- Zle_Qle in Hfc.
  pose proof (Qfloor_le x) as Hf1. pose proof (Qlt_floor x) as Hf2.
  pose proof (Qle_ceiling x) as Hc1. pose proof (Qceiling_lt x) as Hc2.
  rewrite inject_Z_plus in Hf2.
  unfold Z.sub in Hc2. rewrite inject_Z_plus, inject_Z_opp in Hc2.
  change (inject_Z 1) with 1 in Hf2, Hc2.
  assert (Hpow : (2 ^ 52 < 2 ^ 53)%Z) by reflexivity.
  destruct (round_between (Qfloor x) (Qceiling x) k p) as (u & Hu & Hlo & Hhi);
    [lia | lia | exact Hk | |].
  { rewrite Hx. split; apply Qmult_le_compat_r; lra. }
  exists u. split; [exact Hu|].
  assert (H1 : (x - 1) * pow2 k < inject_Z (Qfloor x) * pow2 k)
    by (apply Qmult_lt_compat_r; lra).
  assert (H2 : inject_Z (Qceiling x) * pow2 k < (x + 1) * pow2 k)
    by (apply Qmult_lt_compat_r; lra).
  assert (H3 : inject_Z (- 2 ^ 52) * pow2 k <= inject_Z (Qfloor x) * pow2 k)
    by (apply Qmult_le_compat_r; [rewrite <- Zle_Qle; exact Hf | lra]).
  assert (H4 : inject_Z (Qceiling x) * pow2 k <= inject_Z (2 ^ 52) * pow2 k)
    by (apply Qmult_le_compat_r; [rewrite <- Zle_Qle; exact Hc | lra]).
  rewrite inject_Z_opp in H3.
  rewrite <- (pow2_inject 52) in H3, H4 by lia.
  rewrite (pow2_add 52 k).
  split; [split|split]; nra.
Qed.

(** Up to [2^52], rounding moves a rational by less than 1. *)
Lemma round_near (p : Q) :
  - 4503599627370496 <= p <= 4503599627370496 ->
  exists u, round p = Finite u
            /\ p - 1 < u < p + 1
            /\ - 4503599627370496 <= u <= 4503599627370496.
Proof.
  intros Hp.
  assert (H52 : pow2 (52 + 0) == 4503599627370496) by reflexivity.
  assert (H0 : pow2 0 == 1) by reflexivity.
  destruct (round_near_grid 0 p ltac:(lia)) as (u & Hu & Hnear & Hrange).
  - rewrite H52. exact Hp.
  - exists u. split; [exact Hu|].
    rewrite H52 in Hrange. rewrite H0 in Hnear. split; lra.
Qed.

(** Up to [2^46], rounding moves a rational by less than 1/64. *)
Lemma round_near_64 (p : Q) :
  - 70368744177664 <= p <= 70368744177664 ->
  exists u, round p = Finite u
            /\ p - (1 # 64) < u < p + (1 # 64)
            /\ - 70368744177664 <= u <= 70368744177664.
Proof.
  intros Hp.
  assert (H46 : pow2 (52 + -6) == 70368744177664) by reflexivity.
  assert (H6 : pow2 (-6) == 1 # 64) by reflexivity.
  destruct (round_near_grid (-6) p ltac:(lia)) as (u & Hu & Hnear & Hrange).
  - rewrite H46. exact Hp.
  - exists u. split; [exact Hu|].
    rewrite H46 in Hrange. rewrite H6 in Hnear. split; lra.
Qed.
End Binary64Facts.

(** On the sample values, alone and in pairs, [Binary64] computes what
    the machine computes: the same sums, differences, products, quotients
    and comparisons, and the same value for the literal 0.8. *)
Example binary64_agrees_with_machine :
  forallb (fun a : Z * Z =>
             forallb (fun b : Z * Z =>
                        machine_agrees (to_float a.1 a.2) (to_float b.1 b.2))
                     machine_samples)
          machine_samples = true
  /\ of_float (to_float 7205759403792794 (-53)) = Binary64.round (8 # 10).
Proof. vm_compute. split; reflexivity. Qed.

Section Scoring.
Variable env : Env.
#[local] Open Scope Q_scope.



Lemma magnitude_bounds (e : Z) (q : Q) :
  magnitude_at_most e q -> - Binary64.pow2 e <= q <= Binary64.pow2 e.
Proof. unfold magnitude_at_most. apply Qabs_Qle_condition. Qed.

(** The freshness term is one of three values between 1/2 and 1; the
    middle one, the [double] nearest to 0.8, is less than 1/64 away from
    it. *)
Lemma timestampScore_cases (age : Binary64.double) :
  let timestampScore :=
    if Binary64.ltb (Binary64.Finite (DAY_TO_MILLISECOND 7)) age
    then Binary64.round (8 # 10)
    else if Binary64.ltb (Binary64.Finite (DAY_TO_MILLISECOND 1)) age
    then Binary64.Finite 1
    else Binary64.Finite (1 # 2) in
  exists t, timestampScore = Binary64.Finite t
    /\ ((Binary64.ltb (Binary64.Finite (DAY_TO_MILLISECOND 7)) age = true
         /\ (8 # 10) - (1 # 64) < t < (8 # 10) + (1 # 64))
        \/ (Binary64.ltb (Binary64.Finite (DAY_TO_MILLISECOND 7)) age = false
            /\ Binary64.ltb (Binary64.Finite (DAY_TO_MILLISECOND 1)) age = true
            /\ t = 1)
        \/ (Binary64.ltb (Binary64.Finite (DAY_TO_MILLISECOND 7)) age = false
            /\ Binary64.ltb (Binary64.Finite (DAY_TO_MILLISECOND 1)) age = false
            /\ t = 1 # 2)).
Proof.
  cbv zeta.
  destruct (Binary64.ltb (Binary64.Finite (DAY_TO_MILLISECOND 7)) age).
  - destruct (Binary64Facts.round_near_64 (8 # 10)) as (t & Ht & Hnear & _); [lra|].
    exists t. split; [exact Ht|]. left. split; [reflexivity | exact Hnear].
  - destruct (Binary64.ltb (Binary64.Finite (DAY_TO_MILLISECOND 1)) age).
    + exists 1. split; [reflexivity|]. right; left. repeat split.
    + exists (1 # 2). split; [reflexivity|]. right; right. repeat split.
Qed.

Lemma timestampScore_range (age : Binary64.double) :
  let timestampScore :=
    if Binary64.ltb (Binary64.Finite (DAY_TO_MILLISECOND 7)) age
    then Binary64.round (8 # 10)
    else if Binary64.ltb (Binary64.Finite (DAY_TO_MILLISECOND 1)) age
    then Binary64.Finite 1
    else Binary64.Finite (1 # 2) in
  exists t, timestampScore = Binary64.Finite t /\ 1 # 2 <= t <= 1.
Proof.
  cbv zeta. destruct (timestampScore_cases age) as (t & Ht & Hcases).
  exists t. split; [exact Ht|].
  destruct Hcases as [[_ H] | [(_ & _ & ->) | (_ & _ & ->)]]; lra.
Qed.

(** The latency term is finite and of moderate size when the quotient
    is. *)
Lemma latencyScore_moderate (c : PeerCandidate) (e : Z) :
  (0 <= e <= 50)%Z ->
  (Qtrue (averageLatency c) = true ->
   magnitude_at_most e (tolerance_latency env / averageLatency c)) ->
  let latencyScore :=
    if Qtrue (averageLatency c)
    then Binary64.round (tolerance_latency env / averageLatency c)
    else Binary64.Finite 1 in
  exists l, latencyScore = Binary64.Finite l
            /\ - Binary64.pow2 e - 1 <= l <= Binary64.pow2 e + 1.
Proof.
  intros He Hmod. cbv zeta.
  assert (Hpow : 1 <= Binary64.pow2 e <= 1125899906842624).
  { split.
    - change 1 with (Binary64.pow2 0). apply Binary64Facts.pow2_le. lia.
    - assert (H50 : Binary64.pow2 50 == 1125899906842624) by reflexivity.
      rewrite <- H50. apply Binary64Facts.pow2_le. lia. }
  destruct (Qtrue (averageLatency c)).
  - pose proof (magnitude_bounds _ _ (Hmod eq_refl)) as Hq.
    destruct (Binary64Facts.round_near (tolerance_latency env / averageLatency c))
      as (l & Hl & Hnear & _); [lra|].
    exists l. split; [exact Hl | lra].
  - exists 1. split; [reflexivity | lra].
Qed.


(** The same with a jitter sample between 0 and 1: the two small
    additions are less than 1/64 away from the exact sums. *)
Lemma score_near_unit (x t l j : Q) :
  -10 <= x <= 0 -> 0 <= t <= 1 ->
  - 1125899906842625 <= l <= 1125899906842625 ->
  0 <= j <= 1 ->
  exists v,
    Binary64.add
      (Binary64.add (Binary64.add (Binary64.Finite x) (Binary64.Finite t))
         (Binary64.Finite l))
      (Binary64.round (j * 2))
    = Binary64.Finite v
    /\ x + t + l + j * 2 - 3 < v < x + t + l + j * 2 + 3.
Proof.
  intros Hx Ht Hl Hj. cbn [Binary64.add].
  destruct (Binary64Facts.round_near_64 (x + t)) as (a & -> & Ha & _); [lra|].
  cbn [Binary64.add].
  destruct (Binary64Facts.round_near (a + l)) as (b & -> & Hb & _); [lra|].
  destruct (Binary64Facts.round_near_64 (j * 2)) as (s & -> & Hs & _); [lra|].
  cbn [Binary64.add].
  destruct (Binary64Facts.round_near (b + s)) as (v & -> & Hv & _); [lra|].
  exists v. split; [reflexivity | lra].
Qed.


(** X19.  The penalty for a disabled candidate outweighs freshness and
    jitter while no term is absorbed: with the same latency average, a
    latency term of at most [2^50] in magnitude and jitter samples
    between 0 and 1, a disabled candidate scores strictly below one that
    is not disabled, whatever the two timestamps and the two clock
    readings. *)
Theorem disabled_scores_below_enabled
    (now1 now2 jitter1 jitter2 : Q) (c1 c2 : PeerCandidate) :
  status c1 = PEER_CANDIDATE_STATUS_DISABLED ->
  status c2 <> PEER_CANDIDATE_STATUS_DISABLED ->
  averageLatency c1 = averageLatency c2 ->
  0 <= jitter1 <= 1 -> 0 <= jitter2 <= 1 ->
  (Qtrue (averageLatency c2) = true ->
   magnitude_at_most 50 (tolerance_latency env / averageLatency c2)) ->
  Binary64.ltb (rate_candidate env now1 jitter1 c1)
               (rate_candidate env now2 jitter2 c2) = true.
Proof.
  intros Hd He Hl Hj1 Hj2 Hmod. unfold rate_candidate. cbv zeta. rewrite Hl.
  rewrite (bool_decide_eq_true_2 _ Hd), (bool_decide_eq_false_2 _ He).
  match goal with
  | |- Binary64.ltb ?lhs _ = _ =>
      match lhs with
      | context [if Binary64.ltb _ ?age then _ else _] =>
          destruct (timestampScore_range age) as (t1 & -> & Ht1)
      end
  end.
  match goal with
  | |- context [if Binary64.ltb _ ?age then _ else _] =>
      destruct (timestampScore_range age) as (t2 & -> & Ht2)
  end.
  destruct (latencyScore_moderate c2 50 ltac:(lia) Hmod) as (l & -> & Hlat).
  assert (H50 : Binary64.pow2 50 == 1125899906842624) by reflexivity.
  rewrite H50 in Hlat.
  destruct (score_near_unit (-10) t1 l jitter1) as (v1 & -> & Hv1); [lra..|].
  destruct (score_near_unit 0 t2 l jitter2) as (v2 & -> & Hv2); [lra..|].
  apply Binary64Facts.ltb_Finite. lra.
Qed.
(** The same with every term at most [2^44] in magnitude: each addition
    is less than 1/64 away from the exact sum. *)
Lemma score_near_64 (x t l j : Q) :
  -10 <= x <= 0 -> 0 <= t <= 1 ->
  - 17592186044417 <= l <= 17592186044417 ->
  - 17592186044416 <= j <= 17592186044416 ->
  exists v,
    Binary64.add
      (Binary64.add (Binary64.add (Binary64.Finite x) (Binary64.Finite t))
         (Binary64.Finite l))
      (Binary64.round (j * 2))
    = Binary64.Finite v
    /\ x + t + l + j * 2 - (4 # 64) < v < x + t + l + j * 2 + (4 # 64).
Proof.
  intros Hx Ht Hl Hj. cbn [Binary64.add].
  destruct (Binary64Facts.round_near_64 (x + t)) as (a & -> & Ha & _); [lra|].
  cbn [Binary64.add].
  destruct (Binary64Facts.round_near_64 (a + l)) as (b & -> & Hb & _); [lra|].
  destruct (Binary64Facts.round_near_64 (j * 2)) as (s & -> & Hs & _); [lra|].
  cbn [Binary64.add].
  destruct (Binary64Facts.round_near_64 (b + s)) as (v & -> & Hv & _); [lra|].
  exists v. split; [reflexivity | lra].
Qed.

(** X20.  Freshness is not monotone.  Of three candidates with the same
    status, latency average and jitter sample, the one last seen between
    one and seven days ago scores highest, the one last seen more than
    seven days ago comes second, and the one seen within the last day
    scores lowest, as long as the jitter and the latency term are at
    most [2^44] in magnitude. *)
Theorem freshness_prefers_one_to_seven_days
    (now jitter : Q) (recent middle old : PeerCandidate) :
  status recent = status middle -> status old = status middle ->
  averageLatency recent = averageLatency middle ->
  averageLatency old = averageLatency middle ->
  magnitude_at_most 44 jitter ->
  (Qtrue (averageLatency middle) = true ->
   magnitude_at_most 44 (tolerance_latency env / averageLatency middle)) ->
  Binary64.ltb (Binary64.Finite (DAY_TO_MILLISECOND 7)) (candidate_age now recent) = false ->
  Binary64.ltb (Binary64.Finite (DAY_TO_MILLISECOND 1)) (candidate_age now recent) = false ->
  Binary64.ltb (Binary64.Finite (DAY_TO_MILLISECOND 7)) (candidate_age now middle) = false ->
  Binary64.ltb (Binary64.Finite (DAY_TO_MILLISECOND 1)) (candidate_age now middle) = true ->
  Binary64.ltb (Binary64.Finite (DAY_TO_MILLISECOND 7)) (candidate_age now old) = true ->
  Binary64.ltb (rate_candidate env now jitter recent)
               (rate_candidate env now jitter old) = true
  /\ Binary64.ltb (rate_candidate env now jitter old)
                  (rate_candidate env now jitter middle) = true.
Proof.
  unfold candidate_age. intros Hs1 Hs2 Hl1 Hl2 Hj Hmod Hr7 Hr1 Hm7 Hm1 Ho7.
  unfold rate_candidate. cbv zeta. rewrite Hs1, Hs2, Hl1, Hl2.
  rewrite Hr7, Hr1, Hm7, Hm1, Ho7.
  destruct (Binary64Facts.round_near_64 (8 # 10)) as (t & -> & Ht & _); [lra|].
  destruct (latencyScore_moderate middle 44 ltac:(lia) Hmod) as (l & -> & Hlat).
  apply magnitude_bounds in Hj.
  assert (H44 : Binary64.pow2 44 == 17592186044416) by reflexivity.
  rewrite H44 in Hj, Hlat.
  assert (Hx : exists x, (if bool_decide (status middle = PEER_CANDIDATE_STATUS_DISABLED)
                          then Binary64.Finite (-10) else Binary64.Finite 0)
                         = Binary64.Finite x /\ -10 <= x <= 0).
  { destruct (bool_decide _); [exists (-10) | exists 0]; split; try reflexivity; lra. }
  destruct Hx as (x & -> & Hx).
  destruct (score_near_64 x (1 # 2) l jitter) as (v1 & -> & Hv1); [lra..|].
  destruct (score_near_64 x t l jitter) as (v2 & -> & Hv2); [lra..|].
  destruct (score_near_64 x 1 l jitter) as (v3 & -> & Hv3); [lra..|].
  split; apply Binary64Facts.ltb_Finite; lra.
Qed.
End Scoring.



(** ** Admin listener *)

(** C9 at a read of two bytes, "KI", into a buffer whose next two bytes
    hold "LL": the payload is shorter than four bytes and is not a
    [KILL] command, and the event loop is stopped. *)
Theorem kill_compares_beyond_the_read :
  let seg := {| base := bytes_of_string "KILL" ++ repeat x00 12; nread := 2 |} in
  payload_of seg = bytes_of_string "KI"
  /\ on_incoming_segment_to_api seg = [UvStop; UvLoopClose].
Proof. vm_compute. split; reflexivity. Qed.

(** X25.  When the read delivered at least the four bytes that are
    compared, the loop is stopped exactly when the payload starts with
    [KILL]. *)
Lemma kill_on_full_read (seg : Segment) :
  4 <= nread seg ->
  stops_loop (on_incoming_segment_to_api seg)
  <-> take 4 (payload_of seg) = bytes_of_string INSTRUCTION_KILL.
Proof.
  intros Hn. unfold on_incoming_segment_to_api, payload_of, stops_loop.
  destruct (Z.ltb_spec (nread seg) 0); [lia|].
  rewrite take_take. replace (4 `min` Z.to_nat (nread seg))%nat with 4%nat by lia.
  change (String.length INSTRUCTION_KILL) with 4%nat.
  destruct (bool_decide_reflect (take 4 (base seg) = bytes_of_string INSTRUCTION_KILL))
    as [Heq|Hne].
  - split; [intros _; exact Heq | intros _; simpl; constructor].
  - split; [intros Hin; inversion Hin | intros Heq; contradiction].
Qed.

(** ** Stream framer *)

Lemma byteZ_range (b : byte) : 0 <= byteZ b < 256.
Proof.
  unfold byteZ. pose proof (Byte.to_N_bounded b). lia.
Qed.

Lemma le_decode_range (bs : list byte) :
  0 <= le_decode bs < 256 ^ Z.of_nat (length bs).
Proof.
  induction bs as [|b bs IH]; simpl le_decode; [simpl; lia|].
  pose proof (byteZ_range b).
  replace (Z.of_nat (length (b :: bs))) with (Z.succ (Z.of_nat (length bs)))
    by (simpl; lia).
  rewrite Z.pow_succ_r by lia. lia.
Qed.

Lemma hdr_length_range (buf : list byte) :
  0 <= hdr_length (parse_message_header buf) < 2 ^ 32.
Proof.
  unfold parse_message_header; simpl.
  pose proof (le_decode_range (take 4 (drop 16 buf))) as Hr.
  assert (Hlen : (length (take 4 (drop 16 buf)) <= 4)%nat)
    by (rewrite length_take; lia).
  assert (256 ^ Z.of_nat (length (take 4 (drop 16 buf))) <= 256 ^ 4)
    by (apply Z.pow_le_mono_r; lia).
  change (2 ^ 32) with (256 ^ 4). lia.
Qed.

Lemma messageSize_range (buf : list byte) :
  u64 (sizeof_Header + hdr_length (parse_message_header buf))
    = sizeof_Header + hdr_length (parse_message_header buf)
  /\ 24 <= sizeof_Header + hdr_length (parse_message_header buf).
Proof.
  pose proof (hdr_length_range buf) as Hr. unfold u64, sizeof_Header.
  split; [|lia].
  apply Z.mod_small. change (2 ^ 64) with 18446744073709551616.
  change (2 ^ 32) with 4294967296 in Hr. lia.
Qed.

Lemma u64_small (x : Z) : 0 <= x <= CAPACITY -> u64 x = x.
Proof.
  intros Hx. unfold u64. apply Z.mod_small.
  unfold CAPACITY in Hx. change (2 ^ 64) with 18446744073709551616. lia.
Qed.

Lemma parse_message_header_app (f rest : list byte) :
  (24 <= length f)%nat ->
  parse_message_header (f ++ rest) = parse_message_header f.
Proof.
  intros Hlen. unfold parse_message_header.
  rewrite !(drop_app_le f rest) by lia.
  rewrite !take_app_le by (rewrite ?length_drop; lia).
  reflexivity.
Qed.

Lemma framed_length (f : list byte) : framed f -> (24 <= length f)%nat.
Proof.
  intros [_ Hlen]. pose proof (hdr_length_range f). unfold sizeof_Header in Hlen. lia.
Qed.

Lemma checksum_match_app (f rest : list byte) :
  framed f -> checksum_match (f ++ rest) = checksum_match f.
Proof.
  intros Hf. pose proof (framed_length f Hf) as H24. destruct Hf as [_ Hlen].
  unfold checksum_match.
  rewrite (parse_message_header_app f rest H24).
  unfold sizeof_Header in *. change (Z.to_nat 24) with 24%nat.
  rewrite (drop_app_le f rest) by lia.
  rewrite take_app_le by (rewrite length_drop; lia).
  reflexivity.
Qed.

Lemma starts_with_magic_app (f rest : list byte) :
  (4 <= length f)%nat -> take 4 f = mainnet_magic ->
  starts_with_magic (f ++ rest) = true.
Proof.
  intros Hlen Hmagic. unfold starts_with_magic.
  rewrite take_app_le by lia. apply bool_decide_eq_true. exact Hmagic.
Qed.

(** [find_first_magic] answers [-1] or an offset at which the magic lies
    with more than four bytes left. *)
Lemma find_first_magic_from_spec (turns : nat) (data : list byte) (off maxLength : Z) :
  0 <= off <= CAPACITY -> maxLength <= CAPACITY ->
  let r := find_first_magic_from turns data off maxLength in
  r = -1 \/ (off <= r /\ r + 4 < maxLength
             /\ starts_with_magic (drop (Z.to_nat r) data) = true).
Proof.
  revert off. induction turns as [|turns IH]; intros off Hoff Hmax; simpl; [left; reflexivity|].
  assert (Hsmall : u64 (off + sizeof_magic) = off + 4).
  { unfold u64, sizeof_magic. apply Z.mod_small.
    unfold CAPACITY in Hoff. change (2 ^ 64) with 18446744073709551616. lia. }
  rewrite Hsmall.
  destruct (Z.ltb_spec (off + 4) maxLength) as [Hlt|Hge]; [|left; reflexivity].
  destruct (starts_with_magic (drop (Z.to_nat off) data)) eqn:Hm.
  - right. repeat split; try lia. exact Hm.
  - destruct (IH (off + 1) ltac:(lia) Hmax) as [Hr|(Hr1 & Hr2 & Hr3)];
      [left; exact Hr|].
    right. repeat split; try lia. exact Hr3.
Qed.

Lemma find_first_magic_spec (c : MessageCache) :
  cache_wf c ->
  let r := find_first_magic (buffer c) (bufferIndex c) in
  r = -1 \/ (0 <= r /\ r + 4 < bufferIndex c
             /\ starts_with_magic (drop (Z.to_nat r) (buffer c)) = true).
Proof.
  intros [_ Hidx]. unfold find_first_magic.
  apply find_first_magic_from_spec; unfold CAPACITY in *; lia.
Qed.

Lemma find_first_magic_head (data : list byte) (maxLength : Z) :
  starts_with_magic data = true -> 4 < maxLength ->
  find_first_magic data maxLength = 0.
Proof.
  intros Hm Hlen. unfold find_first_magic.
  destruct (Z.to_nat maxLength) as [|turns] eqn:Ht; [lia|].
  simpl. change (u64 (0 + sizeof_magic)) with 4.
  destruct (Z.ltb_spec 4 maxLength); [|lia].
  rewrite drop_0, Hm. reflexivity.
Qed.

Lemma find_first_magic_short (data : list byte) (maxLength : Z) :
  maxLength <= 4 -> find_first_magic data maxLength = -1.
Proof.
  intros Hlen. unfold find_first_magic.
  destruct (Z.to_nat maxLength) as [|turns]; [reflexivity|].
  simpl. change (u64 (0 + sizeof_magic)) with 4.
  destruct (Z.ltb_spec 4 maxLength); [lia|reflexivity].
Qed.

Lemma pending_length (c : MessageCache) :
  cache_wf c -> length (pending c) = Z.to_nat (bufferIndex c).
Proof.
  intros [Hlen Hidx]. unfold pending. rewrite length_take, Hlen. lia.
Qed.

Lemma buffer_pending (c : MessageCache) :
  buffer c = pending c ++ drop (Z.to_nat (bufferIndex c)) (buffer c).
Proof. unfold pending. symmetry. apply take_drop. Qed.

(** Shifting [n] bytes out keeps the array's size and drops the first [n]
    pending bytes. *)
Lemma shift_out_spec (c : MessageCache) (n : Z) :
  cache_wf c -> 0 <= n <= bufferIndex c ->
  cache_wf (shift_out c n)
  /\ bufferIndex (shift_out c n) = bufferIndex c - n
  /\ pending (shift_out c n) = drop (Z.to_nat n) (pending c).
Proof.
  intros [Hlen Hidx] Hn.
  assert (Hu : u64 (bufferIndex c - n) = bufferIndex c - n)
    by (apply u64_small; lia).
  unfold shift_out, cache_wf, pending, move_to_front; simpl. rewrite Hu.
  assert (Htake : length (take (Z.to_nat (bufferIndex c - n))
                                (drop (Z.to_nat n) (buffer c)))
                  = Z.to_nat (bufferIndex c - n)).
  { rewrite length_take, length_drop, Hlen. lia. }
  repeat split; try lia.
  - rewrite length_app, Htake, length_drop, Hlen. lia.
  - rewrite take_app_le by lia. rewrite take_idemp.
    rewrite take_drop_commute. f_equal. f_equal. lia.
Qed.

Section FramerFacts.
Context `{PayloadParsers}.

(** One turn of the loop, with the trimmed cache named. *)
Lemma extract_loop_turn (turns : nat) (c : MessageCache) (magicOffset : Z) :
  0 <= magicOffset ->
  extract_loop (S turns) c magicOffset
  = let c1 := if negb (magicOffset =? 0) then shift_out c magicOffset else c in
    let ev1 := if negb (magicOffset =? 0) then [Trimmed magicOffset] else [] in
    let messageSize :=
      u64 (sizeof_Header + hdr_length (parse_message_header (buffer c1))) in
    if messageSize <=? bufferIndex c1 then
      match extract_loop turns (shift_out c1 messageSize)
              (find_first_magic (buffer (shift_out c1 messageSize))
                                (bufferIndex (shift_out c1 messageSize))) with
      | Returned (c3, ev4) =>
          Returned (c3, (ev1 ++ [HeaderParsed (bufferIndex c1) messageSize])
                          ++ [frame_event (buffer c1)] ++ ev4)
      | OutOfBounds => OutOfBounds
      | OutOfFuel => OutOfFuel
      end
    else Returned (c1, ev1 ++ [HeaderParsed (bufferIndex c1) messageSize]).
Proof.
  intros Hpos. cbn [extract_loop].
  destruct (Z.leb_spec 0 magicOffset); [|lia].
  destruct (magicOffset =? 0); reflexivity.
Qed.

Lemma extract_loop_no_magic (turns : nat) (c : MessageCache) (magicOffset : Z) :
  magicOffset < 0 -> extract_loop turns c magicOffset = Returned (c, []).
Proof.
  intros Hneg. destruct turns; cbn [extract_loop];
    destruct (Z.leb_spec 0 magicOffset); (lia || reflexivity).
Qed.

(** The loop of [extract_message_from_stream_buffer] ends: with more
    turns than bytes buffered it returns, and it never leaves the
    buffer. *)
Lemma extract_loop_returns (turns : nat) (c : MessageCache) (magicOffset : Z) :
  cache_wf c ->
  (magicOffset < 0 \/ (0 <= magicOffset /\ magicOffset + 4 < bufferIndex c)) ->
  (Z.to_nat (bufferIndex c) < turns)%nat ->
  exists c' evs,
    extract_loop turns c magicOffset = Returned (c', evs)
    /\ cache_wf c' /\ bufferIndex c' <= bufferIndex c.
Proof.
  revert c magicOffset.
  induction turns as [|turns IH]; intros c mo Hwf Hmo Hturns; [lia|].
  destruct Hmo as [Hneg|[Hpos Hmo]].
  { rewrite extract_loop_no_magic by exact Hneg.
    exists c, []. repeat split; try apply Hwf. lia. }
  rewrite extract_loop_turn by exact Hpos. cbv zeta.
  pose proof (shift_out_spec c mo Hwf ltac:(lia)) as (Hwf1 & Hidx1 & _).
  set (c1 := if negb (mo =? 0) then shift_out c mo else c).
  assert (Hc1 : cache_wf c1 /\ bufferIndex c1 <= bufferIndex c).
  { subst c1. destruct (mo =? 0); cbn [negb]; [split; [exact Hwf|lia]|].
    split; [exact Hwf1|lia]. }
  destruct Hc1 as [Hwfc1 Hle1].
  pose proof (messageSize_range (buffer c1)) as [Hsz Hsz24].
  rewrite Hsz.
  destruct (Z.leb_spec (sizeof_Header + hdr_length (parse_message_header (buffer c1)))
              (bufferIndex c1)) as [Hfits|Hwait].
  - pose proof (shift_out_spec c1 _ Hwfc1 ltac:(split; [|exact Hfits]; lia))
      as (Hwf2 & Hidx2 & _).
    set (c2 := shift_out c1 _) in *.
    destruct (IH c2 (find_first_magic (buffer c2) (bufferIndex c2)) Hwf2)
      as (c3 & ev4 & Hrun & Hwf3 & Hle3).
    + pose proof (find_first_magic_spec c2 Hwf2) as [Hr|(Hr1 & Hr2 & _)];
        [left; lia | right; lia].
    + lia.
    + rewrite Hrun. eexists _, _. repeat split; try apply Hwf3. lia.
  - eexists _, _. repeat split; try apply Hwfc1. lia.
Qed.

(** [extract_message_from_stream_buffer] returns on every cache. *)
Lemma extract_returns (c : MessageCache) :
  cache_wf c ->
  exists c' evs,
    extract_message_from_stream_buffer c = Returned (c', evs) /\ cache_wf c'.
Proof.
  intros Hwf. unfold extract_message_from_stream_buffer.
  destruct (extract_loop_returns (S (Z.to_nat (bufferIndex c))) c
              (find_first_magic (buffer c) (bufferIndex c)) Hwf)
    as (c' & evs & Hrun & Hwf' & _).
  - pose proof (find_first_magic_spec c Hwf) as [Hr|(Hr1 & Hr2 & _)];
      [left; lia | right; lia].
  - lia.
  - exists c', evs. split; assumption.
Qed.
End FramerFacts.

Section FramerFrames.
Context `{PayloadParsers}.

(** A complete frame at the front of the buffer is consumed in one turn:
    its header is parsed, its event happens, and its bytes are shifted
    out. *)
Lemma extract_frame (turns : nat) (c : MessageCache) (f r : list byte)
    (e : FramerEvent) :
  cache_wf c -> pending c = f ++ r -> frame_yields f e ->
  let c2 := shift_out c (Z.of_nat (length f)) in
  extract_loop (S turns) c (find_first_magic (buffer c) (bufferIndex c))
  = match extract_loop turns c2 (find_first_magic (buffer c2) (bufferIndex c2)) with
    | Returned (c3, ev4) =>
        Returned (c3, HeaderParsed (bufferIndex c) (Z.of_nat (length f)) :: e :: ev4)
    | OutOfBounds => OutOfBounds
    | OutOfFuel => OutOfFuel
    end
  /\ cache_wf c2
  /\ bufferIndex c2 = bufferIndex c - Z.of_nat (length f)
  /\ pending c2 = r.
Proof.
  intros Hwf Hpend [Hframed Hevent]. cbv zeta.
  pose proof (framed_length f Hframed) as H24.
  pose proof (pending_length c Hwf) as Hplen.
  rewrite Hpend, length_app in Hplen.
  assert (Hbuf : buffer c = f ++ (r ++ drop (Z.to_nat (bufferIndex c)) (buffer c))).
  { rewrite (buffer_pending c) at 1. rewrite Hpend, <- app_assoc. reflexivity. }
  assert (Hmagic : find_first_magic (buffer c) (bufferIndex c) = 0).
  { apply find_first_magic_head; [|lia].
    rewrite Hbuf. apply starts_with_magic_app; [lia|apply Hframed]. }
  assert (Hhdr : parse_message_header (buffer c) = parse_message_header f).
  { rewrite Hbuf. apply parse_message_header_app. exact H24. }
  assert (Hsize : u64 (sizeof_Header + hdr_length (parse_message_header (buffer c)))
                  = Z.of_nat (length f)).
  { rewrite (proj1 (messageSize_range (buffer c))), Hhdr.
    symmetry. apply Hframed. }
  pose proof (shift_out_spec c (Z.of_nat (length f)) Hwf ltac:(lia))
    as (Hwf2 & Hidx2 & Hpend2).
  split; [|split; [exact Hwf2|split; [exact Hidx2|]]].
  - rewrite Hmagic, extract_loop_turn by lia. cbv zeta.
    change (negb (0 =? 0)) with false. cbv iota.
    rewrite Hsize.
    destruct (Z.leb_spec (Z.of_nat (length f)) (bufferIndex c)); [|lia].
    assert (Hev : frame_event (buffer c) = e) by (rewrite Hbuf; apply Hevent).
    rewrite Hev. reflexivity.
  - rewrite Hpend2, Hpend, Nat2Z.id, drop_app_length. reflexivity.
Qed.

(** With only the beginning of a frame buffered the framer waits: it
    hands nothing over and leaves the cache as it is. *)
Lemma extract_partial (turns : nat) (c : MessageCache) :
  cache_wf c -> partial (pending c) -> (1 <= turns)%nat ->
  exists evs,
    extract_loop turns c (find_first_magic (buffer c) (bufferIndex c))
      = Returned (c, evs)
    /\ handled evs = []
    /\ (pending c = [] -> evs = []).
Proof.
  intros Hwf Hpartial Hturns.
  pose proof (pending_length c Hwf) as Hplen.
  destruct (Z_le_gt_dec (bufferIndex c) 4) as [Hshort|Hlong].
  { rewrite find_first_magic_short by exact Hshort.
    rewrite extract_loop_no_magic by lia. exists []. auto. }
  destruct Hpartial as [Hnil|(f & Hframed & Hprefix & Hless)].
  { rewrite Hnil in Hplen. simpl in Hplen. lia. }
  pose proof (framed_length f Hframed) as H24.
  assert (Hbuf : buffer c = take (length (pending c)) f
                            ++ drop (Z.to_nat (bufferIndex c)) (buffer c)).
  { rewrite (buffer_pending c) at 1. rewrite Hprefix at 1. reflexivity. }
  assert (Hmagic : find_first_magic (buffer c) (bufferIndex c) = 0).
  { apply find_first_magic_head; [|lia].
    rewrite Hbuf. apply starts_with_magic_app.
    - rewrite length_take. lia.
    - rewrite take_take. replace (4 `min` length (pending c))%nat with 4%nat by lia.
      apply Hframed. }
  destruct turns as [|turns]; [lia|].
  rewrite Hmagic, extract_loop_turn by lia. cbv zeta.
  change (negb (0 =? 0)) with false. cbv iota.
  pose proof (messageSize_range (buffer c)) as [Hsz Hsz24].
  rewrite Hsz.
  assert (Hwait : bufferIndex c
                  < sizeof_Header + hdr_length (parse_message_header (buffer c))).
  { destruct (Z_lt_le_dec (bufferIndex c) 24) as [Hhead|Hhead]; [lia|].
    assert (Hhdr : parse_message_header (buffer c) = parse_message_header f).
    { rewrite Hbuf.
      rewrite parse_message_header_app by (rewrite length_take; lia).
      rewrite <- (take_drop (length (pending c)) f) at 2.
      rewrite parse_message_header_app by (rewrite length_take; lia).
      reflexivity. }
    rewrite Hhdr. destruct Hframed as [_ Hlen]. lia. }
  destruct (Z.leb_spec (sizeof_Header + hdr_length (parse_message_header (buffer c)))
              (bufferIndex c)); [lia|].
  eexists. split; [reflexivity|]. split; [reflexivity|].
  intros Hnil. rewrite Hnil in Hplen. simpl in Hplen. lia.
Qed.

Lemma handled_frames_trace (buffered : Z) (fs : list (list byte))
    (evs : list FramerEvent) :
  length fs = length evs ->
  handled (frames_trace buffered fs evs) = handled evs.
Proof.
  revert buffered evs. induction fs as [|f fs IH]; intros buffered [|e evs] Hlen;
    try discriminate; [reflexivity|].
  simpl in Hlen. unfold handled in *. simpl.
  rewrite (IH _ evs) by lia. reflexivity.
Qed.

(** Complete frames followed by the beginning of a frame: every frame is
    consumed in order and the beginning is kept. *)
Lemma extract_frames (fs : list (list byte)) (evs : list FramerEvent) :
  Forall2 frame_yields fs evs ->
  forall (c : MessageCache) (p : list byte) (turns : nat),
    cache_wf c -> pending c = concat fs ++ p -> partial p ->
    (Z.to_nat (bufferIndex c) < turns)%nat ->
    exists c' tail,
      extract_loop turns c (find_first_magic (buffer c) (bufferIndex c))
        = Returned (c', frames_trace (bufferIndex c) fs evs ++ tail)
      /\ cache_wf c' /\ pending c' = p
      /\ handled tail = [] /\ (p = [] -> tail = []).
Proof.
  induction 1 as [|f e fs evs Hf Hrest IH]; intros c p turns Hwf Hpend Hp Hturns.
  - simpl in Hpend. rewrite <- Hpend in Hp.
    destruct (extract_partial turns c Hwf Hp ltac:(lia)) as (tail & Hrun & Hh & Hnil).
    exists c, tail. simpl. rewrite Hpend in Hnil. auto.
  - destruct turns as [|turns]; [lia|].
    simpl in Hpend. rewrite <- app_assoc in Hpend.
    destruct (extract_frame turns c f (concat fs ++ p) e Hwf Hpend Hf)
      as (Hrun & Hwf2 & Hidx2 & Hpend2).
    pose proof (framed_length f (proj1 Hf)) as H24.
    pose proof (proj2 Hwf) as Hidx. pose proof (proj2 Hwf2) as Hidx'.
    destruct (IH (shift_out c (Z.of_nat (length f))) p turns Hwf2 Hpend2 Hp
                ltac:(lia)) as (c' & tail & Hrun' & Hwf' & Hpend' & Hh & Hnil).
    rewrite Hrun' in Hrun. rewrite Hidx2 in Hrun.
    exists c', tail. simpl. auto.
Qed.
End FramerFrames.

Lemma is_out_of_bounds_false {A : Type} (o : Outcome A) :
  is_out_of_bounds o = false -> o <> OutOfBounds.
Proof. intros Hb ->. discriminate. Qed.

(** A prefix of a stream of frames is a number of whole frames and the
    beginning of the next. *)
Lemma split_stream (frames : list (list byte)) (q rest : list byte) :
  q ++ rest = concat frames ->
  exists fs1 fs2 p,
    frames = fs1 ++ fs2 /\ q = concat fs1 ++ p /\ p ++ rest = concat fs2
    /\ head_short p fs2.
Proof.
  revert q. induction frames as [|f fs IH]; intros q Hq.
  - simpl in Hq. apply app_eq_nil in Hq as [-> ->].
    exists [], [], []. repeat split.
  - destruct (Nat.lt_ge_cases (length q) (length f)) as [Hshort|Hlong].
    + exists [], (f :: fs), q. repeat split; assumption.
    + simpl in Hq.
      assert (Hf : take (length f) q = f).
      { apply (f_equal (take (length f))) in Hq.
        rewrite take_app_le in Hq by lia. rewrite take_app_length in Hq. exact Hq. }
      assert (Hq' : drop (length f) q ++ rest = concat fs).
      { apply (f_equal (drop (length f))) in Hq.
        rewrite drop_app_le in Hq by lia. rewrite drop_app_length in Hq. exact Hq. }
      destruct (IH _ Hq') as (fs1 & fs2 & p & Hfs & Hd & Hp & Hshort).
      exists (f :: fs1), fs2, p. repeat split.
      * simpl. congruence.
      * simpl. rewrite <- app_assoc, <- Hd, <- Hf at 1. rewrite take_drop. reflexivity.
      * exact Hp.
      * exact Hshort.
Qed.

Lemma head_short_partial (p rest : list byte) (fs : list (list byte)) :
  Forall framed fs -> p ++ rest = concat fs -> head_short p fs -> partial p.
Proof.
  intros Hfs Hp Hshort. destruct fs as [|f fs].
  - simpl in Hp. apply app_eq_nil in Hp as [-> _]. left. reflexivity.
  - right. exists f. simpl in Hp, Hshort.
    split; [apply (Forall_inv Hfs)|]. split; [|exact Hshort].
    apply (f_equal (take (length p))) in Hp.
    rewrite take_app_length, take_app_le in Hp by lia. exact Hp.
Qed.

Lemma handled_app (ev1 ev2 : list FramerEvent) :
  handled (ev1 ++ ev2) = handled ev1 ++ handled ev2.
Proof. unfold handled. apply omap_app. Qed.

Lemma handled_map_Handled (ms : list Message) : handled (map Handled ms) = ms.
Proof.
  induction ms as [|m ms IH]; [reflexivity|].
  change (handled (map Handled (m :: ms))) with (m :: handled (map Handled ms)).
  rewrite IH. reflexivity.
Qed.

Section RoundTrip.
Context `{PayloadParsers}.

Lemma valid_frame_yields (m : Message) (f : list byte) :
  valid_frame m f -> frame_yields f (Handled m).
Proof.
  intros (Hframed & Hsum & Hparse). split; [exact Hframed|].
  intros rest. unfold frame_event.
  rewrite (checksum_match_app f rest Hframed), Hsum, Hparse. reflexivity.
Qed.

Lemma mismatch_frame_yields (f : list byte) :
  framed f -> checksum_match f = false ->
  frame_yields f (ChecksumMismatch (parse_message_header f)).
Proof.
  intros Hframed Hsum. split; [exact Hframed|].
  intros rest. unfold frame_event.
  rewrite (checksum_match_app f rest Hframed), Hsum.
  rewrite (parse_message_header_app f rest (framed_length f Hframed)). reflexivity.
Qed.

(** A read that stays inside the buffer appends the bytes it delivered
    to the pending ones and then runs the extraction. *)
Lemma on_incoming_segment_appends (c : MessageCache) (seg : Segment) :
  cache_wf c -> segment_ok seg ->
  on_incoming_segment c seg <> OutOfBounds ->
  exists c1,
    cache_wf c1
    /\ pending c1 = pending c ++ payload_of seg
    /\ on_incoming_segment c seg = extract_message_from_stream_buffer c1.
Proof.
  intros [Hlen Hidx] [Hn0 Hn] Hin. unfold on_incoming_segment in *.
  destruct (Z.ltb_spec (nread seg) 0); [lia|].
  unfold memcpy_into in *.
  destruct (Z.leb_spec 0 (bufferIndex c)); [|lia].
  destruct (Z.leb_spec 0 (Z.of_nat (length (base seg)))); [|lia].
  destruct (Z.leb_spec (bufferIndex c + Z.of_nat (length (base seg)))
              (Z.of_nat (length (buffer c)))) as [Hfit|Hover];
    cbn [andb] in *; [|contradiction].
  eexists. split; [|split; [|reflexivity]].
  - unfold cache_wf; cbn [bufferIndex buffer].
    rewrite u64_small by (unfold CAPACITY in *; lia).
    rewrite !length_app, !length_take, length_drop. unfold CAPACITY in *. lia.
  - unfold pending, payload_of; cbn [bufferIndex buffer].
    rewrite u64_small by (unfold CAPACITY in *; lia).
    rewrite Nat2Z.id, (take_ge (base seg)) by lia.
    rewrite take_app_ge by (rewrite length_take; lia).
    rewrite length_take.
    replace (Z.to_nat (bufferIndex c) `min` length (buffer c))%nat
      with (Z.to_nat (bufferIndex c)) by lia.
    rewrite take_app_le by lia.
    f_equal. f_equal. lia.
Qed.

(** The round trip from any cache that holds the beginning of the first
    frame. *)
Lemma feed_frames (segs : list Segment) :
  forall (frames : list (list byte)) (msgs : list Message) (c : MessageCache),
    cache_wf c ->
    Forall2 valid_frame msgs frames ->
    Forall segment_ok segs ->
    pending c ++ concat (map payload_of segs) = concat frames ->
    head_short (pending c) frames ->
    feed c segs <> OutOfBounds ->
    exists c' evs,
      feed c segs = Returned (c', evs) /\ handled evs = msgs /\ bufferIndex c' = 0.
Proof.
  induction segs as [|seg segs IH];
    intros frames msgs c Hwf Hvalid Hsegs Hstream Hshort Hin.
  - simpl in Hstream. rewrite app_nil_r in Hstream.
    destruct Hvalid as [|m f msgs frames Hm Hrest].
    + exists c, []. repeat split.
      pose proof (pending_length c Hwf) as Hl. rewrite Hstream in Hl.
      simpl in Hl. destruct Hwf as [_ Hidx]. lia.
    + simpl in Hstream, Hshort. rewrite Hstream, length_app in Hshort. lia.
  - cbn [feed] in *.
    apply Forall_cons in Hsegs as [Hseg Hsegs].
    destruct (on_incoming_segment_appends c seg Hwf Hseg) as (c1 & Hwf1 & Hpend1 & Hrun).
    { intros Hoob. rewrite Hoob in Hin. contradiction. }
    simpl in Hstream. rewrite app_assoc, <- Hpend1 in Hstream.
    destruct (split_stream frames _ _ Hstream)
      as (fs1 & fs2 & p & Hfs & Hq & Hp & Hshort2).
    subst frames.
    apply Forall2_app_inv_r in Hvalid as (ms1 & ms2 & Hv1 & Hv2 & ->).
    assert (Hframed2 : Forall framed fs2).
    { clear -Hv2. induction Hv2 as [|m f ms fs Hm _ IHv]; constructor;
        [apply Hm | exact IHv]. }
    assert (Hyields : Forall2 frame_yields fs1 (map Handled ms1)).
    { clear -Hv1. induction Hv1 as [|m f ms fs Hm _ IHv]; simpl; constructor;
        [apply valid_frame_yields; exact Hm | exact IHv]. }
    destruct (extract_frames fs1 _ Hyields c1 p (S (Z.to_nat (bufferIndex c1)))
                Hwf1 Hq (head_short_partial p _ fs2 Hframed2 Hp Hshort2) ltac:(lia))
      as (c2 & tail & Hextract & Hwf2 & Hpend2 & Htail & _).
    unfold extract_message_from_stream_buffer in Hrun.
    rewrite Hextract in Hrun. rewrite Hrun in Hin |- *.
    rewrite <- Hpend2 in Hp, Hshort2.
    destruct (IH fs2 ms2 c2 Hwf2 Hv2 Hsegs Hp Hshort2) as (c' & evs & Hfeed & Hh & Hidx).
    { intros Hoob. rewrite Hoob in Hin. contradiction. }
    rewrite Hfeed. eexists _, _. split; [reflexivity|]. split; [|exact Hidx].
    rewrite !handled_app, Htail, Hh, app_nil_r.
    rewrite handled_frames_trace
      by (rewrite length_map; symmetry; apply (Forall2_length _ _ _ Hv1)).
    rewrite handled_map_Handled. reflexivity.
Qed.
End RoundTrip.

Lemma empty_cache_wf : cache_wf empty_cache.
Proof.
  unfold cache_wf, empty_cache; cbn [bufferIndex buffer].
  rewrite repeat_length. unfold CAPACITY. lia.
Qed.

Section FramerClaims.
Context `{PayloadParsers}.

(** While fewer than 24 bytes are buffered the framer hands nothing to
    the handler and removes nothing but bytes before a magic. *)
Lemma extract_waits (c : MessageCache) :
  cache_wf c -> bufferIndex c < sizeof_Header ->
  exists c' evs,
    extract_message_from_stream_buffer c = Returned (c', evs)
    /\ handled evs = []
    /\ exists k, pending c' = drop k (pending c).
Proof.
  intros Hwf Hlt. unfold extract_message_from_stream_buffer, sizeof_Header in *.
  destruct (find_first_magic_spec c Hwf) as [Hr|(Hr0 & Hr4 & _)].
  { rewrite Hr, extract_loop_no_magic by lia.
    exists c, []. split; [reflexivity|]. split; [reflexivity|].
    exists 0%nat. rewrite drop_0. reflexivity. }
  set (r := find_first_magic (buffer c) (bufferIndex c)) in *.
  rewrite extract_loop_turn by exact Hr0. cbv zeta.
  pose proof (shift_out_spec c r Hwf ltac:(lia)) as (Hwf1 & Hidx1 & Hpend1).
  set (c1 := if negb (r =? 0) then shift_out c r else c).
  assert (Hc1 : bufferIndex c1 <= bufferIndex c
                /\ exists k, pending c1 = drop k (pending c)).
  { subst c1. destruct (r =? 0); cbn [negb].
    - split; [lia|]. exists 0%nat. rewrite drop_0. reflexivity.
    - split; [lia|]. exists (Z.to_nat r). exact Hpend1. }
  destruct Hc1 as [Hle Hk].
  pose proof (messageSize_range (buffer c1)) as [Hsz Hsz24]. rewrite Hsz.
  unfold sizeof_Header in *.
  destruct (Z.leb_spec (24 + hdr_length (parse_message_header (buffer c1)))
              (bufferIndex c1)); [lia|].
  eexists _, _. split; [reflexivity|]. split; [|exact Hk].
  destruct (r =? 0); reflexivity.
Qed.

(** The round trip for the runs that stay inside the array.  Take valid
    encoded messages, concatenate them and cut the stream into reads in
    any way.  If no read is written past the end of the 65536-byte
    buffer, feeding the reads in order hands to the handler exactly the
    original messages in order and leaves the buffer empty.  With fewer
    than 24 bytes buffered the
    framer hands nothing over and removes no frame (it does read the
    header fields as soon as more than four bytes follow a magic). *)
Theorem framer_round_trip
    (msgs : list Message) (frames : list (list byte)) (segs : list Segment) :
  Forall2 valid_frame msgs frames ->
  Forall segment_ok segs ->
  concat (map payload_of segs) = concat frames ->
  feed empty_cache segs <> OutOfBounds ->
  (exists c evs,
     feed empty_cache segs = Returned (c, evs)
     /\ handled evs = msgs /\ bufferIndex c = 0)
  /\ (forall c, cache_wf c -> bufferIndex c < sizeof_Header ->
      exists c' evs,
        extract_message_from_stream_buffer c = Returned (c', evs)
        /\ handled evs = []
        /\ exists k, pending c' = drop k (pending c)).
Proof.
  intros Hvalid Hsegs Hstream Hin. split; [|exact extract_waits].
  apply (feed_frames segs frames msgs empty_cache empty_cache_wf Hvalid Hsegs);
    [exact Hstream| |exact Hin].
  destruct Hvalid as [|m f msgs frames Hm _]; [exact I|].
  pose proof (framed_length f (proj1 Hm)). simpl. lia.
Qed.

(** C3.  When the buffer holds a valid frame [A], a complete frame [B]
    whose checksum does not match its payload, and a valid frame [C],
    the extraction hands [A] and then [C] to the handler, logs the
    mismatch of [B] and shifts its [24 + length] bytes out, makes no
    other call, and leaves the buffer empty. *)
Theorem checksum_mismatch_recovery
    (c : MessageCache) (mA mC : Message) (A B C : list byte) :
  cache_wf c ->
  pending c = A ++ B ++ C ->
  valid_frame mA A ->
  framed B -> checksum_match B = false ->
  valid_frame mC C ->
  exists c',
    extract_message_from_stream_buffer c
    = Returned
        (c', [ HeaderParsed (bufferIndex c) (Z.of_nat (length A));
               Handled mA;
               HeaderParsed (bufferIndex c - Z.of_nat (length A))
                            (sizeof_Header + hdr_length (parse_message_header B));
               ChecksumMismatch (parse_message_header B);
               HeaderParsed (bufferIndex c - Z.of_nat (length A)
                               - (sizeof_Header + hdr_length (parse_message_header B)))
                            (Z.of_nat (length C));
               Handled mC ])
    /\ bufferIndex c' = 0.
Proof.
  intros Hwf Hpend HA HB HBsum HC.
  assert (Hyields : Forall2 frame_yields [A; B; C]
                      [Handled mA; ChecksumMismatch (parse_message_header B); Handled mC]).
  { constructor; [apply valid_frame_yields, HA|].
    constructor; [apply mismatch_frame_yields; assumption|].
    constructor; [apply valid_frame_yields, HC|]. constructor. }
  destruct (extract_frames _ _ Hyields c [] (S (Z.to_nat (bufferIndex c))) Hwf)
    as (c' & tail & Hrun & Hwf' & Hpend' & _ & Hnil).
  - simpl. rewrite !app_nil_r. exact Hpend.
  - left. reflexivity.
  - lia.
  - rewrite (Hnil eq_refl), app_nil_r in Hrun.
    exists c'. split.
    + unfold extract_message_from_stream_buffer. rewrite Hrun.
      cbn [frames_trace]. rewrite <- (proj2 HB). reflexivity.
    + pose proof (pending_length c' Hwf') as Hl. rewrite Hpend' in Hl.
      simpl in Hl. destruct Hwf' as [_ Hidx]. lia.
Qed.
End FramerClaims.

(** *** Worked examples for the framer *)

(** Computes the command tests on a concrete header. *)
Ltac compute_commands :=
  repeat match goal with
  | |- context [strcmp_eq ?f ?c] =>
      let v := eval vm_compute in (strcmp_eq f c) in
      replace (strcmp_eq f c) with v by (vm_compute; reflexivity)
  end;
  cbv iota.

Ltac solve_framed :=
  split; [vm_compute; reflexivity | vm_compute; reflexivity].

Lemma verack_frame_valid : valid_frame verack_message verack_frame.
Proof.
  split; [solve_framed|]. split; [vm_compute; reflexivity|].
  intros rest. unfold parse_buffer_into_message.
  rewrite parse_message_header_app by (vm_compute; lia).
  compute_commands. cbn [parse_into_verack_message basic_parsers].
  unfold message_of, verack_message.
  rewrite parse_message_header_app by (vm_compute; lia). reflexivity.
Qed.

Lemma ping_frame_valid (n : Z) :
  n = 7 \/ n = 9 -> valid_frame (ping_message n) (ping_frame n).
Proof.
  intros [-> | ->].
  all: split; [solve_framed|]; split; [vm_compute; reflexivity|].
  all: intros rest; unfold parse_buffer_into_message.
  all: rewrite parse_message_header_app by (vm_compute; lia).
  all: compute_commands; cbn [parse_into_pingpong_message basic_parsers].
  all: unfold message_of, ping_message.
  all: rewrite parse_message_header_app by (vm_compute; lia).
  all: rewrite drop_app_le by (vm_compute; lia).
  all: rewrite take_app_le by (vm_compute; lia).
  all: vm_compute; reflexivity.
Qed.

(** Ten bytes of a verack are enough for the framer to parse a header:
    it reads the length field from bytes that were never received.  And
    when the same frame arrives in two reads of libuv's 65536-byte
    buffers, the second read is copied past the end of the cache and
    nothing is handed over. *)
Lemma framer_parses_partial_header :
  match on_incoming_segment empty_cache (full_read (take 10 verack_frame)) with
  | Returned (c, evs) => bufferIndex c = 10 /\ evs = [HeaderParsed 10 24]
  | _ => False
  end
  /\ feed empty_cache [ read_into (Z.to_nat 65536) (take 10 verack_frame);
                       read_into (Z.to_nat 65536) (drop 10 verack_frame) ]
     = OutOfBounds.
Proof. vm_compute. repeat split; reflexivity. Qed.

(** What a read into a buffer of [len] bytes hands over. *)
Lemma read_into_spec (len : nat) (data : list byte) :
  (length data <= len)%nat ->
  0 <= nread (read_into len data)
  /\ length (base (read_into len data)) = len
  /\ payload_of (read_into len data) = data.
Proof.
  intros Hfit. unfold read_into, payload_of; cbn [base nread].
  split; [lia|]. split.
  - rewrite length_take, length_app, repeat_length. lia.
  - rewrite Nat2Z.id, take_take.
    replace (length data `min` len)%nat with (length data) by lia.
    apply take_app_length.
Qed.

Lemma two_reads_spec (len cut : nat) (stream : list byte) :
  (length stream <= len)%nat ->
  let reads := [read_into len (take cut stream); read_into len (drop cut stream)] in
  Forall (fun seg => 0 <= nread seg /\ length (base seg) = len) reads
  /\ concat (map payload_of reads) = stream.
Proof.
  intros Hfit. cbv zeta.
  destruct (read_into_spec len (take cut stream)) as (Hn1 & Hl1 & Hp1);
    [rewrite length_take; lia|].
  destruct (read_into_spec len (drop cut stream)) as (Hn2 & Hl2 & Hp2);
    [rewrite length_drop; lia|].
  split.
  - constructor; [split; assumption|]. constructor; [split; assumption|]. constructor.
  - cbn [map concat]. rewrite Hp1, Hp2, app_nil_r. apply take_drop.
Qed.

(** C1 at a verack and a ping that arrive in two reads.  The read
    buffers have the 65536 bytes that [allocate_read_buffer] is asked
    for, and the stream is cut inside the first magic (2), inside the
    first header (10, 23), inside the second magic (25, 26) or inside
    the second payload (50).  Both frames are valid and the reads deliver
    exactly their bytes, yet the second read is copied past the end of
    the 65536-byte array: line 693 copies [buf->len] bytes where line 694
    advances the cursor by [nread].  No message is handed over.  Cut
    between the frames (24), the same stream is handed over whole. *)
Theorem framer_round_trip_breaks_on_split_reads :
  let stream := verack_frame ++ ping_frame 7 in
  let reads := fun cut : nat =>
    [ read_into (Z.to_nat 65536) (take cut stream);
      read_into (Z.to_nat 65536) (drop cut stream) ] in
  Forall2 valid_frame [verack_message; ping_message 7] [verack_frame; ping_frame 7]
  /\ Forall (fun cut =>
              Forall (fun seg => 0 <= nread seg /\ length (base seg) = Z.to_nat 65536)
                     (reads cut)
              /\ concat (map payload_of (reads cut)) = stream
              /\ feed empty_cache (reads cut) = OutOfBounds)
            [2; 10; 23; 25; 26; 50]%nat
  /\ match feed empty_cache (reads 24%nat) with
     | Returned (c, evs) =>
         handled evs = [verack_message; ping_message 7] /\ bufferIndex c = 0
     | _ => False
     end.
Proof.
  cbv zeta. split.
  { constructor; [exact verack_frame_valid|].
    constructor; [apply ping_frame_valid; left; reflexivity | constructor]. }
  assert (Hfit : (length (verack_frame ++ ping_frame 7) <= Z.to_nat 65536)%nat)
    by (rewrite length_app; change (length verack_frame) with 24%nat;
        change (length (ping_frame 7)) with 32%nat; lia).
  split.
  - repeat (apply Forall_cons; split;
            [ split; [exact (proj1 (two_reads_spec _ _ _ Hfit))|];
              split; [exact (proj2 (two_reads_spec _ _ _ Hfit))|];
              vm_compute; reflexivity | ]).
    apply Forall_nil. exact I.
  - vm_compute. split; reflexivity.
Qed.

(** A run that stays inside the array: every read fills a buffer of
    its own size. *)
Lemma framer_round_trip_sample_run :
  Forall2 valid_frame [verack_message; ping_message 7] [verack_frame; ping_frame 7]
  /\ Forall segment_ok sample_segments
  /\ concat (map payload_of sample_segments) = concat [verack_frame; ping_frame 7]
  /\ feed empty_cache sample_segments <> OutOfBounds
  /\ exists c evs,
       feed empty_cache sample_segments = Returned (c, evs)
       /\ handled evs = [verack_message; ping_message 7] /\ bufferIndex c = 0.
Proof.
  assert (Hvalid : Forall2 valid_frame [verack_message; ping_message 7]
                     [verack_frame; ping_frame 7]).
  { constructor; [exact verack_frame_valid|].
    constructor; [apply ping_frame_valid; left; reflexivity|]. constructor. }
  assert (Hsegs : Forall segment_ok sample_segments).
  { repeat (constructor; [vm_compute; split; discriminate|]). constructor. }
  assert (Hstream : concat (map payload_of sample_segments)
                    = concat [verack_frame; ping_frame 7])
    by (vm_compute; reflexivity).
  assert (Hin : feed empty_cache sample_segments <> OutOfBounds)
    by (apply is_out_of_bounds_false; vm_compute; reflexivity).
  split; [exact Hvalid|]. split; [exact Hsegs|]. split; [exact Hstream|].
  split; [exact Hin|].
  exact (proj1 (framer_round_trip _ _ _ Hvalid Hsegs Hstream Hin)).
Defined.

(** C2 at a frame that declares 70000 bytes of payload.  Its header and
    the first 40000 bytes of payload arrive in one of libuv's 65536-byte
    read buffers: the framer parses the header and waits, with no call to
    replace the peer.  The next 30000 bytes arrive: the cursor would move
    to 70024, and the copy leaves the 65536-byte array, whether the read
    buffer has libuv's 65536 bytes or just the 30000 bytes received. *)
Theorem framer_overflows_on_oversize_frame :
  let head := oversize_header ++ repeat x00 (Z.to_nat 40000) in
  let tail := repeat x00 (Z.to_nat 30000) in
  match on_incoming_segment empty_cache (read_into (Z.to_nat 65536) head) with
  | Returned (c1, evs) =>
      evs = [HeaderParsed 40024 70024]
      /\ bufferIndex c1 = 40024
      /\ u64 (bufferIndex c1 + nread (full_read tail)) = 70024
      /\ on_incoming_segment c1 (read_into (Z.to_nat 65536) tail) = OutOfBounds
      /\ on_incoming_segment c1 (full_read tail) = OutOfBounds
  | _ => False
  end.
Proof. vm_compute. repeat split; reflexivity. Qed.

Lemma cache_holding_spec (stream : list byte) :
  Z.of_nat (length stream) <= CAPACITY ->
  cache_wf (cache_holding stream) /\ pending (cache_holding stream) = stream.
Proof.
  intros Hlen. unfold cache_wf, pending, cache_holding; cbn [bufferIndex buffer].
  repeat split; try lia.
  - rewrite length_take, length_app, repeat_length. lia.
  - rewrite Nat2Z.id, take_take.
    replace (length stream `min` Z.to_nat CAPACITY)%nat with (length stream) by lia.
    apply take_app_length.
Qed.

Lemma checksum_mismatch_recovery_witness :
  let A := verack_frame in
  let B := corrupt_ping_frame 7 in
  let C := ping_frame 9 in
  let c := cache_holding (A ++ B ++ C) in
  cache_wf c /\ pending c = A ++ B ++ C
  /\ valid_frame verack_message A
  /\ framed B /\ checksum_match B = false
  /\ valid_frame (ping_message 9) C
  /\ exists c',
       extract_message_from_stream_buffer c
       = Returned
           (c', [ HeaderParsed 88 24; Handled verack_message;
                  HeaderParsed 64 32; ChecksumMismatch (parse_message_header B);
                  HeaderParsed 32 32; Handled (ping_message 9) ])
       /\ bufferIndex c' = 0.
Proof.
  cbv zeta.
  destruct (cache_holding_spec (verack_frame ++ corrupt_ping_frame 7 ++ ping_frame 9))
    as [Hwf Hpend]; [vm_compute; discriminate|].
  assert (HB : framed (corrupt_ping_frame 7)) by solve_framed.
  assert (HBsum : checksum_match (corrupt_ping_frame 7) = false)
    by (vm_compute; reflexivity).
  assert (HC : valid_frame (ping_message 9) (ping_frame 9))
    by (apply ping_frame_valid; right; reflexivity).
  split; [exact Hwf|]. split; [exact Hpend|]. split; [exact verack_frame_valid|].
  split; [exact HB|]. split; [exact HBsum|]. split; [exact HC|].
  destruct (checksum_mismatch_recovery _ _ _ _ _ _ Hwf Hpend verack_frame_valid
              HB HBsum HC) as (c' & Hrun & Hidx).
  exists c'. split; [|exact Hidx].
  rewrite Hrun. reflexivity.
Defined.

(** *** What holds of the framer and of the selection besides *)

(** The turns given to [find_first_magic] are enough: more turns give the
    same answer. *)
Lemma find_first_magic_from_turns (data : list byte) (maxLength : Z)
    (turns turns' : nat) (off : Z) :
  0 <= off <= CAPACITY -> maxLength <= CAPACITY ->
  maxLength - off <= Z.of_nat turns -> maxLength - off <= Z.of_nat turns' ->
  find_first_magic_from turns data off maxLength
  = find_first_magic_from turns' data off maxLength.
Proof.
  revert turns' off.
  induction turns as [|turns IH]; intros [|turns'] off Hoff Hmax Ht Ht';
    cbn [find_first_magic_from]; try reflexivity.
  - assert (Hs : u64 (off + sizeof_magic) = off + 4)
      by (apply Z.mod_small; unfold sizeof_magic, CAPACITY in *;
          change (2 ^ 64) with 18446744073709551616; lia).
    rewrite Hs. destruct (Z.ltb_spec (off + 4) maxLength); [lia|reflexivity].
  - assert (Hs : u64 (off + sizeof_magic) = off + 4)
      by (apply Z.mod_small; unfold sizeof_magic, CAPACITY in *;
          change (2 ^ 64) with 18446744073709551616; lia).
    rewrite Hs. destruct (Z.ltb_spec (off + 4) maxLength); [lia|reflexivity].
  - assert (Hs : u64 (off + sizeof_magic) = off + 4)
      by (apply Z.mod_small; unfold sizeof_magic, CAPACITY in *;
          change (2 ^ 64) with 18446744073709551616; lia).
    rewrite Hs. destruct (Z.ltb_spec (off + 4) maxLength); [|reflexivity].
    destruct (starts_with_magic _); [reflexivity|].
    apply IH; lia.
Qed.

Section FramerBounds.
Context `{PayloadParsers}.

(** A read that is copied inside the buffer leaves the cursor inside it. *)
Lemma on_incoming_segment_keeps_wf (c c' : MessageCache) (seg : Segment)
    (evs : list FramerEvent) :
  cache_wf c -> segment_ok seg ->
  on_incoming_segment c seg = Returned (c', evs) ->
  cache_wf c'.
Proof.
  intros Hwf Hseg Hrun.
  destruct (on_incoming_segment_appends c seg Hwf Hseg) as (c1 & Hwf1 & _ & Hext).
  { rewrite Hrun. discriminate. }
  destruct (extract_returns c1 Hwf1) as (c2 & evs2 & Hrun2 & Hwf2).
  rewrite Hext, Hrun2 in Hrun. injection Hrun as <- _. exact Hwf2.
Qed.
End FramerBounds.

Section SelectionFacts.
Variable env : Env.

(** The loop of [pick_best_nonpeer_candidate] only ever replaces the best
    candidate by one that is not bound to a slot. *)
Lemma pick_loop_unbound (o : RateOracle) (bound : list nat)
    (candidates : list PeerCandidate) (i best k : nat) (bestScore : Binary64.double) :
  (pick_loop env o bound i candidates best bestScore k).1 = best
  \/ is_peer bound (pick_loop env o bound i candidates best bestScore k).1 = false.
Proof.
  revert i best k bestScore.
  induction candidates as [|c candidates IH]; intros i best k bestScore;
    cbn [pick_loop]; [left; reflexivity|].
  destruct (is_peer bound i) eqn:Hpeer; [apply IH|].
  destruct (Binary64.ltb bestScore _); [|apply IH].
  destruct (IH (S i) i (S k)
              (rate_candidate env (now_at o k) (random_betwen_0_1 o k) c))
    as [Heq|Hfree]; [|right; exact Hfree].
  right. rewrite Heq. exact Hpeer.
Qed.

(** When the first candidate is not bound to a slot, the candidate
    returned is not bound to a slot. *)
Lemma pick_best_unbound_when_first_free (o : RateOracle)
    (peerCandidates : list PeerCandidate) (bound : list nat) (best : nat)
    (score : Binary64.double) :
  is_peer bound 0 = false ->
  pick_best_nonpeer_candidate env o peerCandidates bound = Some (best, score) ->
  is_peer bound best = false.
Proof.
  intros Hfree Hpick. unfold pick_best_nonpeer_candidate in Hpick.
  destruct peerCandidates as [|c0 rest]; [discriminate|].
  pose proof (pick_loop_unbound o bound (c0 :: rest) 0 0 1
                (rate_candidate env (now_at o 0%nat) (random_betwen_0_1 o 0%nat) c0))
    as Hloop.
  destruct (pick_loop env o bound 0 (c0 :: rest) 0 _ 1) as [b s].
  injection Hpick as -> ->. cbn [fst] in Hloop.
  destruct Hloop as [-> | Hloop]; assumption.
Qed.
End SelectionFacts.

Section FullReads.
Context `{PayloadParsers}.

(** A read whose buffer fits behind the cursor is not copied out of
    bounds. *)
Lemma on_incoming_segment_fits (c : MessageCache) (seg : Segment) :
  cache_wf c -> segment_ok seg ->
  bufferIndex c + Z.of_nat (length (base seg)) <= CAPACITY ->
  exists c' evs,
    on_incoming_segment c seg = Returned (c', evs)
    /\ cache_wf c' /\ bufferIndex c' <= bufferIndex c + nread seg.
Proof.
  intros Hwf Hseg Hfit.
  pose proof Hwf as [Hlen Hidx]. pose proof Hseg as [Hn0 Hn].
  unfold on_incoming_segment, memcpy_into.
  destruct (Z.ltb_spec (nread seg) 0); [lia|].
  destruct (Z.leb_spec 0 (bufferIndex c)); [|lia].
  destruct (Z.leb_spec 0 (Z.of_nat (length (base seg)))); [|lia].
  destruct (Z.leb_spec (bufferIndex c + Z.of_nat (length (base seg)))
              (Z.of_nat (length (buffer c)))) as [_|Hover];
    [|unfold CAPACITY in *; lia].
  cbn [andb].
  set (c1 := {| bufferIndex := u64 (bufferIndex c + nread seg); buffer := _ |}).
  assert (Hidx1 : bufferIndex c1 = bufferIndex c + nread seg).
  { subst c1; cbn [bufferIndex]. apply u64_small. unfold CAPACITY in *. lia. }
  assert (Hwf1 : cache_wf c1).
  { split; [|rewrite Hidx1; unfold CAPACITY in *; lia].
    subst c1; cbn [buffer].
    rewrite !length_app, !length_take, length_drop. unfold CAPACITY in *. lia. }
  unfold extract_message_from_stream_buffer.
  destruct (extract_loop_returns (S (Z.to_nat (bufferIndex c1))) c1
              (find_first_magic (buffer c1) (bufferIndex c1)) Hwf1)
    as (c' & evs & Hrun & Hwf' & Hle).
  - pose proof (find_first_magic_spec c1 Hwf1) as [Hr|(Hr1 & Hr2 & _)];
      [left; lia | right; lia].
  - lia.
  - exists c', evs. split; [exact Hrun|]. split; [exact Hwf'|]. lia.
Qed.

(** Reads that fill their buffers and carry no more than the cache can
    hold are never copied out of bounds. *)
Lemma feed_full_reads_in_bounds (segs : list Segment) (c : MessageCache) :
  cache_wf c ->
  Forall (fun seg => nread seg = Z.of_nat (length (base seg))) segs ->
  bufferIndex c + Z.of_nat (length (concat (map base segs))) <= CAPACITY ->
  feed c segs <> OutOfBounds.
Proof.
  revert c. induction segs as [|seg segs IH]; intros c Hwf Hfull Hfit;
    cbn [feed]; [discriminate|].
  apply Forall_cons in Hfull as [Hseg Hfull].
  cbn [map concat] in Hfit. rewrite length_app in Hfit.
  destruct (on_incoming_segment_fits c seg Hwf) as (c1 & ev1 & Hrun & Hwf1 & Hle).
  - unfold segment_ok. lia.
  - lia.
  - rewrite Hrun. specialize (IH c1 Hwf1 Hfull ltac:(lia)).
    destruct (feed c1 segs) as [[c2 ev2]| |]; [discriminate|contradiction|discriminate].
Qed.

(** X24.  The round trip without a condition on the run: when the
    frames fit in the buffer together and every read fills its buffer,
    the handler is given exactly the messages, in order, and the buffer is
    left empty. *)
Lemma framer_round_trip_full_reads
    (msgs : list Message) (frames : list (list byte)) (segs : list Segment) :
  Forall2 valid_frame msgs frames ->
  Forall (fun seg => nread seg = Z.of_nat (length (base seg))) segs ->
  concat (map base segs) = concat frames ->
  Z.of_nat (length (concat frames)) <= CAPACITY ->
  exists c evs,
    feed empty_cache segs = Returned (c, evs)
    /\ handled evs = msgs /\ bufferIndex c = 0.
Proof.
  intros Hvalid Hfull Hstream Hfit.
  assert (Hpay : map payload_of segs = map base segs).
  { clear -Hfull. induction Hfull as [|seg segs Hseg _ IH]; [reflexivity|].
    cbn [map]. rewrite IH. f_equal.
    unfold payload_of. rewrite Hseg, Nat2Z.id. apply take_ge. lia. }
  apply (feed_frames segs frames msgs empty_cache empty_cache_wf Hvalid).
  - clear -Hfull. induction Hfull as [|seg segs Hseg _ IH]; constructor;
      [unfold segment_ok; lia | exact IH].
  - rewrite Hpay. exact Hstream.
  - destruct Hvalid as [|m f ms fs Hm _]; [exact I|].
    pose proof (framed_length f (proj1 Hm)). simpl. lia.
  - apply feed_full_reads_in_bounds; [exact empty_cache_wf|exact Hfull|].
    rewrite Hstream. simpl. lia.
Qed.
End FullReads.

(** * Further properties of the code *)

(** ** The magic scan *)

Lemma find_first_magic_from_first (turns : nat) (data : list byte) (off maxLength : Z) :
  0 <= off <= CAPACITY -> maxLength <= CAPACITY ->
  maxLength - off <= Z.of_nat turns ->
  let r := find_first_magic_from turns data off maxLength in
  (r = -1
   /\ forall o, off <= o -> o + 4 < maxLength ->
                starts_with_magic (drop (Z.to_nat o) data) = false)
  \/ (off <= r /\ r + 4 < maxLength
      /\ starts_with_magic (drop (Z.to_nat r) data) = true
      /\ forall o, off <= o < r ->
                   starts_with_magic (drop (Z.to_nat o) data) = false).
Proof.
  revert off. induction turns as [|turns IH]; intros off Hoff Hmax Hturns;
    cbn [find_first_magic_from].
  { left. split; [reflexivity|]. intros o Ho Ho4. lia. }
  assert (Hs : u64 (off + sizeof_magic) = off + 4)
    by (apply Z.mod_small; unfold sizeof_magic, CAPACITY in *;
        change (2 ^ 64) with 18446744073709551616; lia).
  rewrite Hs.
  destruct (Z.ltb_spec (off + 4) maxLength) as [Hlt|Hge].
  2: { left. split; [reflexivity|]. intros o Ho Ho4. lia. }
  destruct (starts_with_magic (drop (Z.to_nat off) data)) eqn:Hm.
  { right. repeat split; try lia. exact Hm. }
  destruct (IH (off + 1) ltac:(lia) Hmax ltac:(lia))
    as [[Hr Hnone]|(Hr1 & Hr2 & Hr3 & Hnone)].
  - left. split; [exact Hr|]. intros o Ho Ho4.
    destruct (Z.eq_dec o off) as [->|Hne]; [exact Hm|]. apply Hnone; lia.
  - right. repeat split; try lia; [exact Hr3|]. intros o Ho.
    destruct (Z.eq_dec o off) as [->|Hne]; [exact Hm|]. apply Hnone; lia.
Qed.

(** The scan over the buffer of a cache, up to its cursor. *)
Lemma find_first_magic_in_cache (c : MessageCache) :
  cache_wf c ->
  let r := find_first_magic (buffer c) (bufferIndex c) in
  (r = -1
   /\ forall o, 0 <= o -> o + 4 < bufferIndex c ->
                starts_with_magic (drop (Z.to_nat o) (buffer c)) = false)
  \/ (0 <= r /\ r + 4 < bufferIndex c
      /\ starts_with_magic (drop (Z.to_nat r) (buffer c)) = true
      /\ forall o, 0 <= o < r ->
                   starts_with_magic (drop (Z.to_nat o) (buffer c)) = false).
Proof.
  intros [_ Hidx]. unfold find_first_magic.
  apply find_first_magic_from_first; unfold CAPACITY in *; lia.
Qed.

(** X1.  [find_first_magic] answers the first offset at which the magic
    lies with more than four bytes from there to [maxLength], and [-1]
    when there is no such offset: a magic that ends the data, or that has
    fewer than five bytes left, is not reported. *)
Theorem find_first_magic_first_occurrence (data : list byte) (maxLength : Z) :
  0 <= maxLength <= CAPACITY ->
  let r := find_first_magic data maxLength in
  (r = -1
   /\ forall o, 0 <= o -> o + 4 < maxLength ->
                starts_with_magic (drop (Z.to_nat o) data) = false)
  \/ (0 <= r /\ r + 4 < maxLength
      /\ starts_with_magic (drop (Z.to_nat r) data) = true
      /\ forall o, 0 <= o < r ->
                   starts_with_magic (drop (Z.to_nat o) data) = false).
Proof.
  intros Hmax. unfold find_first_magic.
  apply find_first_magic_from_first; unfold CAPACITY in *; lia.
Qed.

Lemma find_first_magic_first_occurrence_witness :
  let data := [x00; xf9; xbe] ++ verack_frame in
  0 <= 27 <= CAPACITY
  /\ find_first_magic data 27 = 3
  /\ find_first_magic (take 7 data) 7 = -1.
Proof.
  cbv zeta.
  assert (Hmax : 0 <= 27 <= CAPACITY) by (unfold CAPACITY; lia).
  split; [exact Hmax|].
  split; [|vm_compute; reflexivity].
  destruct (find_first_magic_first_occurrence ([x00; xf9; xbe] ++ verack_frame) 27 Hmax)
    as [[Hr Hnone]|(Hr0 & Hr4 & Hm & Hnone)].
  - specialize (Hnone 3 ltac:(lia) ltac:(lia)). vm_compute in Hnone. discriminate.
  - destruct (Z.eq_dec (find_first_magic ([x00; xf9; xbe] ++ verack_frame) 27) 3)
      as [Heq|Hne]; [exact Heq|].
    exfalso.
    assert (Hcases : find_first_magic ([x00; xf9; xbe] ++ verack_frame) 27 = 0
                     \/ find_first_magic ([x00; xf9; xbe] ++ verack_frame) 27 = 1
                     \/ find_first_magic ([x00; xf9; xbe] ++ verack_frame) 27 = 2
                     \/ 3 < find_first_magic ([x00; xf9; xbe] ++ verack_frame) 27) by lia.
    destruct Hcases as [Hc|[Hc|[Hc|Hc]]].
    + rewrite Hc in Hm. vm_compute in Hm. discriminate.
    + rewrite Hc in Hm. vm_compute in Hm. discriminate.
    + rewrite Hc in Hm. vm_compute in Hm. discriminate.
    + specialize (Hnone 3 ltac:(lia)). vm_compute in Hnone. discriminate.
Defined.

(** ** Extraction *)

Section ExtractionFacts.
Context `{PayloadParsers}.

Lemma extract_loop_suffix (turns : nat) (c : MessageCache) (magicOffset : Z) :
  cache_wf c ->
  (magicOffset < 0 \/ (0 <= magicOffset /\ magicOffset + 4 < bufferIndex c)) ->
  (Z.to_nat (bufferIndex c) < turns)%nat ->
  exists c' evs k,
    extract_loop turns c magicOffset = Returned (c', evs)
    /\ cache_wf c' /\ bufferIndex c' <= bufferIndex c
    /\ pending c' = drop k (pending c).
Proof.
  revert c magicOffset.
  induction turns as [|turns IH]; intros c mo Hwf Hmo Hturns; [lia|].
  destruct Hmo as [Hneg|[Hpos Hmo]].
  { rewrite extract_loop_no_magic by exact Hneg.
    exists c, [], 0%nat. rewrite drop_0. repeat split; try apply Hwf. lia. }
  rewrite extract_loop_turn by exact Hpos. cbv zeta.
  pose proof (shift_out_spec c mo Hwf ltac:(lia)) as (Hwf1 & Hidx1 & Hpend1).
  set (c1 := if negb (mo =? 0) then shift_out c mo else c).
  assert (Hc1 : cache_wf c1 /\ bufferIndex c1 <= bufferIndex c
                /\ exists k, pending c1 = drop k (pending c)).
  { subst c1. destruct (mo =? 0); cbn [negb].
    - split; [exact Hwf|]. split; [lia|]. exists 0%nat. rewrite drop_0. reflexivity.
    - split; [exact Hwf1|]. split; [lia|]. exists (Z.to_nat mo). exact Hpend1. }
  destruct Hc1 as (Hwfc1 & Hle1 & k1 & Hk1).
  pose proof (messageSize_range (buffer c1)) as [Hsz Hsz24].
  rewrite Hsz.
  destruct (Z.leb_spec (sizeof_Header + hdr_length (parse_message_header (buffer c1)))
              (bufferIndex c1)) as [Hfits|Hwait].
  - pose proof (shift_out_spec c1 _ Hwfc1 ltac:(split; [|exact Hfits]; lia))
      as (Hwf2 & Hidx2 & Hpend2).
    set (c2 := shift_out c1 _) in *.
    destruct (IH c2 (find_first_magic (buffer c2) (bufferIndex c2)) Hwf2)
      as (c3 & ev4 & k3 & Hrun & Hwf3 & Hle3 & Hk3).
    + pose proof (find_first_magic_spec c2 Hwf2) as [Hr|(Hr1 & Hr2 & _)];
        [left; lia | right; lia].
    + lia.
    + rewrite Hrun. eexists _, _, _. split; [reflexivity|].
      split; [exact Hwf3|]. split; [lia|].
      rewrite Hk3, Hpend2, Hk1, !drop_drop. reflexivity.
  - eexists _, _, k1. split; [reflexivity|]. split; [exact Hwfc1|]. split; [lia|exact Hk1].
Qed.

(** X2.  On every cache the extraction ends; it leaves the cursor inside
    the buffer and not higher than it was, and the bytes left pending are
    a tail of the bytes that were pending: nothing is reordered or made
    up. *)
Theorem extract_consumes_a_prefix (c : MessageCache) :
  cache_wf c ->
  exists c' evs k,
    extract_message_from_stream_buffer c = Returned (c', evs)
    /\ cache_wf c' /\ bufferIndex c' <= bufferIndex c
    /\ pending c' = drop k (pending c).
Proof.
  intros Hwf. unfold extract_message_from_stream_buffer.
  apply extract_loop_suffix; [exact Hwf| |lia].
  pose proof (find_first_magic_spec c Hwf) as [Hr|(Hr1 & Hr2 & _)];
    [left; lia | right; lia].
Qed.

(** Reading four bytes inside the pending bytes is reading them in the
    buffer. *)
Lemma starts_with_magic_pending (c : MessageCache) (o : Z) :
  cache_wf c -> 0 <= o -> o + 4 <= bufferIndex c ->
  starts_with_magic (drop (Z.to_nat o) (buffer c))
  = starts_with_magic (drop (Z.to_nat o) (pending c)).
Proof.
  intros Hwf Ho Ho4.
  unfold starts_with_magic, pending.
  rewrite !take_drop_commute, take_take.
  replace ((Z.to_nat o + 4) `min` Z.to_nat (bufferIndex c))%nat
    with (Z.to_nat o + 4)%nat by lia.
  reflexivity.
Qed.

(** X3.  While the pending bytes hold no magic that is followed by more
    than four bytes up to the cursor, the extraction removes nothing and
    reports nothing: bytes out of step are kept until a magic arrives. *)
Theorem extract_keeps_bytes_without_magic (c : MessageCache) :
  cache_wf c ->
  (forall o, 0 <= o -> o + 4 < bufferIndex c ->
             starts_with_magic (drop (Z.to_nat o) (pending c)) = false) ->
  extract_message_from_stream_buffer c = Returned (c, []).
Proof.
  intros Hwf Hnone. unfold extract_message_from_stream_buffer.
  destruct (find_first_magic_in_cache c Hwf)
    as [[Hr _]|(Hr0 & Hr4 & Hm & _)].
  - rewrite Hr. apply extract_loop_no_magic. lia.
  - rewrite starts_with_magic_pending in Hm by (try exact Hwf; lia).
    rewrite Hnone in Hm by lia. discriminate.
Qed.
End ExtractionFacts.

Lemma extract_consumes_a_prefix_witness :
  let c := cache_holding (verack_frame ++ take 10 (ping_frame 7)) in
  cache_wf c
  /\ exists c' evs k,
       extract_message_from_stream_buffer c = Returned (c', evs)
       /\ cache_wf c' /\ bufferIndex c' <= bufferIndex c
       /\ pending c' = drop k (pending c).
Proof.
  cbv zeta.
  destruct (cache_holding_spec (verack_frame ++ take 10 (ping_frame 7)))
    as [Hwf _]; [vm_compute; discriminate|].
  split; [exact Hwf|]. exact (extract_consumes_a_prefix _ Hwf).
Defined.

Lemma extract_keeps_bytes_without_magic_witness :
  let c := cache_holding (bytes_of_string "no magic in here") in
  cache_wf c
  /\ extract_message_from_stream_buffer c = Returned (c, []).
Proof.
  cbv zeta.
  destruct (cache_holding_spec (bytes_of_string "no magic in here"))
    as [Hwf Hpend]; [vm_compute; discriminate|].
  split; [exact Hwf|].
  apply (extract_keeps_bytes_without_magic _ Hwf).
  intros o Ho Ho4. rewrite Hpend.
  change (bufferIndex (cache_holding (bytes_of_string "no magic in here"))) with 16 in Ho4.
  assert (Hcases : o = 0 \/ o = 1 \/ o = 2 \/ o = 3 \/ o = 4 \/ o = 5 \/ o = 6
                   \/ o = 7 \/ o = 8 \/ o = 9 \/ o = 10 \/ o = 11) by lia.
  repeat (destruct Hcases as [->|Hcases]; [vm_compute; reflexivity|]).
  subst o. vm_compute. reflexivity.
Defined.

Section Resync.
Context `{PayloadParsers}.

(** A turn that starts at a magic further on is the turn at offset 0 of
    the trimmed cache, with the trim logged first. *)
Lemma extract_loop_trim (turns : nat) (c : MessageCache) (magicOffset : Z) :
  0 < magicOffset ->
  extract_loop (S turns) c magicOffset
  = match extract_loop (S turns) (shift_out c magicOffset) 0 with
    | Returned (c', evs) => Returned (c', Trimmed magicOffset :: evs)
    | OutOfBounds => OutOfBounds
    | OutOfFuel => OutOfFuel
    end.
Proof.
  intros Hpos. rewrite !extract_loop_turn by lia. cbv zeta.
  destruct (Z.eqb_spec magicOffset 0) as [Hz|_]; [lia|].
  change (negb (0 =? 0)) with false. cbn [negb].
  destruct (_ <=? _); [|reflexivity].
  destruct (extract_loop turns _ _) as [[c3 ev4]| |]; reflexivity.
Qed.

Lemma starts_with_magic_at_frame (pre f rest : list byte) :
  framed f -> starts_with_magic (drop (length pre) (pre ++ f ++ rest)) = true.
Proof.
  intros Hf. rewrite drop_app_length.
  apply starts_with_magic_app; [pose proof (framed_length f Hf); lia | apply Hf].
Qed.

(** X4.  Resynchronisation.  When the pending bytes are some bytes [g]
    in which no magic begins, followed by complete frames and the
    beginning of a frame, the extraction logs the trim of [g], shifts it
    out, and then treats the frames as if [g] had not been there. *)
Theorem extract_resynchronises
    (c : MessageCache) (g f p : list byte) (fs : list (list byte))
    (e : FramerEvent) (evs : list FramerEvent) :
  cache_wf c ->
  pending c = g ++ concat (f :: fs) ++ p ->
  Forall2 frame_yields (f :: fs) (e :: evs) ->
  g <> [] ->
  (forall o, (o < length g)%nat -> starts_with_magic (drop o (g ++ f)) = false) ->
  partial p ->
  exists c' tail,
    extract_message_from_stream_buffer c
    = Returned (c', Trimmed (Z.of_nat (length g))
                      :: frames_trace (bufferIndex c - Z.of_nat (length g))
                           (f :: fs) (e :: evs) ++ tail)
    /\ pending c' = p /\ handled tail = [] /\ (p = [] -> tail = []).
Proof.
  intros Hwf Hpend Hyields Hg Hnone Hp.
  assert (Hf : framed f) by (inversion Hyields; subst; apply H3).
  pose proof (framed_length f Hf) as H24.
  pose proof (pending_length c Hwf) as Hplen.
  assert (Hglen : (0 < length g)%nat) by (destruct g; [contradiction|simpl; lia]).
  rewrite Hpend in Hplen. cbn [concat] in Hplen, Hpend.
  rewrite !length_app in Hplen.
  assert (Hat : starts_with_magic (drop (length g) (pending c)) = true).
  { rewrite Hpend, <- app_assoc. apply starts_with_magic_at_frame. exact Hf. }
  assert (Hbefore : forall o, 0 <= o < Z.of_nat (length g) ->
                      starts_with_magic (drop (Z.to_nat o) (pending c)) = false).
  { intros o Ho. rewrite <- (Hnone (Z.to_nat o)) by lia.
    unfold starts_with_magic. rewrite Hpend, <- app_assoc, (app_assoc g f).
    rewrite drop_app_le by (rewrite length_app; lia).
    rewrite take_app_le by (rewrite length_drop, length_app; lia). reflexivity. }
  assert (Hfind : find_first_magic (buffer c) (bufferIndex c) = Z.of_nat (length g)).
  { destruct (find_first_magic_in_cache c Hwf)
      as [[_ Hno]|(Hr0 & Hr4 & Hm & Hmin)].
    - specialize (Hno (Z.of_nat (length g)) ltac:(lia) ltac:(lia)).
      rewrite starts_with_magic_pending in Hno by (try exact Hwf; lia).
      rewrite Nat2Z.id, Hat in Hno. discriminate.
    - set (r := find_first_magic (buffer c) (bufferIndex c)) in *.
      destruct (Z.lt_trichotomy r (Z.of_nat (length g))) as [Hlt|[Heq|Hgt]];
        [|exact Heq|].
      + rewrite starts_with_magic_pending in Hm by (try exact Hwf; lia).
        rewrite Hbefore in Hm by lia. discriminate.
      + specialize (Hmin (Z.of_nat (length g)) ltac:(lia)).
        rewrite starts_with_magic_pending in Hmin by (try exact Hwf; lia).
        rewrite Nat2Z.id, Hat in Hmin. discriminate. }
  unfold extract_message_from_stream_buffer. rewrite Hfind.
  rewrite extract_loop_trim by lia.
  pose proof (shift_out_spec c (Z.of_nat (length g)) Hwf ltac:(lia))
    as (Hwf1 & Hidx1 & Hpend1).
  rewrite Nat2Z.id, Hpend, drop_app_length in Hpend1.
  set (c1 := shift_out c (Z.of_nat (length g))) in *.
  assert (Hfind1 : find_first_magic (buffer c1) (bufferIndex c1) = 0).
  { apply find_first_magic_head; [|lia].
    rewrite (buffer_pending c1), Hpend1, <- !app_assoc.
    apply starts_with_magic_app; [lia|apply Hf]. }
  rewrite <- Hfind1.
  destruct (extract_frames (f :: fs) (e :: evs) Hyields c1 p
              (S (Z.to_nat (bufferIndex c))) Hwf1 Hpend1 Hp ltac:(lia))
    as (c' & tail & Hrun & _ & Hpend' & Hh & Hnil).
  rewrite Hrun, Hidx1. exists c', tail. auto.
Qed.

Lemma parse_unknown_command (buf : list byte) :
  known_command (hdr_command (parse_message_header buf)) = false ->
  parse_buffer_into_message buf = None.
Proof.
  unfold known_command, parse_buffer_into_message. intros Hk.
  repeat (apply orb_false_iff in Hk as [Hk ?]).
  repeat match goal with Hc : strcmp_eq _ _ = false |- _ => rewrite Hc; clear Hc end.
  reflexivity.
Qed.

(** X5.  A complete frame whose checksum matches but whose command is
    none of the ten that are parsed (among them the commands this node
    itself sends: getaddr, getheaders, getblocks, sendheaders) is shifted
    out without a call of the handler, whatever the payload parsers are,
    and the bytes behind it are kept. *)
Theorem unknown_command_frame_is_dropped (c : MessageCache) (f r : list byte) :
  cache_wf c ->
  pending c = f ++ r ->
  framed f -> checksum_match f = true ->
  known_command (hdr_command (parse_message_header f)) = false ->
  partial r ->
  exists c' tail,
    extract_message_from_stream_buffer c
    = Returned (c', HeaderParsed (bufferIndex c) (Z.of_nat (length f))
                      :: ParseFailed :: tail)
    /\ pending c' = r /\ handled tail = [].
Proof.
  intros Hwf Hpend Hf Hsum Hunknown Hr.
  assert (Hyields : Forall2 frame_yields [f] [ParseFailed]).
  { constructor; [|constructor]. split; [exact Hf|].
    intros rest. unfold frame_event.
    rewrite (checksum_match_app f rest Hf), Hsum. cbn [negb].
    rewrite parse_unknown_command; [reflexivity|].
    rewrite (parse_message_header_app f rest (framed_length f Hf)). exact Hunknown. }
  destruct (extract_frames [f] [ParseFailed] Hyields c r (S (Z.to_nat (bufferIndex c)))
              Hwf) as (c' & tail & Hrun & _ & Hpend' & Hh & _).
  - cbn [concat]. rewrite app_nil_r. exact Hpend.
  - exact Hr.
  - lia.
  - exists c', tail. auto.
Qed.

(** X6.  What a read does to the cache.  The copy is made when
    [bufferIndex + buf->len] is within the 65536 bytes, and then exactly
    the [nread] bytes delivered join the pending bytes (the rest of the
    copied buffer stays beyond the cursor) before the extraction runs;
    when [bufferIndex + buf->len] is larger, the copy leaves the array,
    however few bytes were delivered. *)
Theorem on_incoming_segment_copies (c : MessageCache) (seg : Segment) :
  cache_wf c -> segment_ok seg ->
  (bufferIndex c + Z.of_nat (length (base seg)) <= CAPACITY ->
   exists c1,
     cache_wf c1
     /\ pending c1 = pending c ++ payload_of seg
     /\ on_incoming_segment c seg = extract_message_from_stream_buffer c1)
  /\ (CAPACITY < bufferIndex c + Z.of_nat (length (base seg)) ->
      on_incoming_segment c seg = OutOfBounds).
Proof.
  intros Hwf Hseg. split.
  - intros Hfit. apply on_incoming_segment_appends; [exact Hwf|exact Hseg|].
    destruct (on_incoming_segment_fits c seg Hwf Hseg Hfit) as (c' & evs & Hrun & _).
    rewrite Hrun. discriminate.
  - intros Hover. destruct Hwf as [Hlen Hidx]. destruct Hseg as [Hn0 Hn].
    unfold on_incoming_segment, memcpy_into.
    destruct (Z.ltb_spec (nread seg) 0); [lia|].
    destruct (Z.leb_spec (bufferIndex c + Z.of_nat (length (base seg)))
                (Z.of_nat (length (buffer c)))) as [Hfit|_];
      [unfold CAPACITY in *; lia|].
    rewrite andb_false_r. reflexivity.
Qed.
End Resync.

Lemma extract_resynchronises_witness :
  let g := bytes_of_string "junk" in
  let c := cache_holding (g ++ concat [verack_frame] ++ []) in
  cache_wf c
  /\ pending c = g ++ concat [verack_frame] ++ []
  /\ exists c' tail,
       extract_message_from_stream_buffer c
       = Returned (c', Trimmed 4 :: frames_trace (bufferIndex c - 4)
                                     [verack_frame] [Handled verack_message] ++ tail)
       /\ pending c' = [] /\ handled tail = [] /\ (@nil byte = [] -> tail = []).
Proof.
  cbv zeta.
  destruct (cache_holding_spec (bytes_of_string "junk" ++ concat [verack_frame] ++ []))
    as [Hwf Hpend]; [vm_compute; discriminate|].
  split; [exact Hwf|]. split; [exact Hpend|].
  apply (extract_resynchronises _ (bytes_of_string "junk") verack_frame [] []
           (Handled verack_message) [] Hwf Hpend).
  - constructor; [apply valid_frame_yields, verack_frame_valid|constructor].
  - discriminate.
  - intros o Ho. change (length (bytes_of_string "junk")) with 4%nat in Ho.
    assert (Hcases : o = 0%nat \/ o = 1%nat \/ o = 2%nat \/ o = 3%nat) by lia.
    destruct Hcases as [->|[->|[->| ->]]]; vm_compute; reflexivity.
  - left. reflexivity.
Defined.

Lemma unknown_command_frame_is_dropped_witness :
  let f := frame CMD_GETADDR [] in
  let c := cache_holding (f ++ []) in
  cache_wf c /\ pending c = f ++ []
  /\ framed f /\ checksum_match f = true
  /\ known_command (hdr_command (parse_message_header f)) = false
  /\ exists c' tail,
       extract_message_from_stream_buffer c
       = Returned (c', HeaderParsed (bufferIndex c) (Z.of_nat (length f))
                         :: ParseFailed :: tail)
       /\ pending c' = [] /\ handled tail = [].
Proof.
  cbv zeta.
  destruct (cache_holding_spec (frame CMD_GETADDR [] ++ []))
    as [Hwf Hpend]; [vm_compute; discriminate|].
  assert (Hf : framed (frame CMD_GETADDR [])) by solve_framed.
  assert (Hsum : checksum_match (frame CMD_GETADDR []) = true)
    by (vm_compute; reflexivity).
  assert (Hk : known_command (hdr_command (parse_message_header (frame CMD_GETADDR [])))
               = false) by (vm_compute; reflexivity).
  split; [exact Hwf|]. split; [exact Hpend|]. split; [exact Hf|].
  split; [exact Hsum|]. split; [exact Hk|].
  apply (unknown_command_frame_is_dropped _ _ [] Hwf Hpend Hf Hsum Hk).
  left. reflexivity.
Defined.

Lemma on_incoming_segment_copies_witness :
  let seg := read_into 100 (take 10 verack_frame) in
  cache_wf empty_cache /\ segment_ok seg
  /\ bufferIndex empty_cache + Z.of_nat (length (base seg)) <= CAPACITY
  /\ exists c1,
       cache_wf c1
       /\ pending c1 = pending empty_cache ++ payload_of seg
       /\ on_incoming_segment empty_cache seg = extract_message_from_stream_buffer c1.
Proof.
  cbv zeta.
  assert (Hseg : segment_ok (read_into 100 (take 10 verack_frame)))
    by (vm_compute; split; discriminate).
  assert (Hfit : bufferIndex empty_cache
                 + Z.of_nat (length (base (read_into 100 (take 10 verack_frame))))
                 <= CAPACITY) by (vm_compute; discriminate).
  split; [exact empty_cache_wf|]. split; [exact Hseg|]. split; [exact Hfit|].
  exact (proj1 (on_incoming_segment_copies _ _ empty_cache_wf Hseg) Hfit).
Defined.

Lemma framer_round_trip_full_reads_witness :
  Forall2 valid_frame [verack_message; ping_message 7] [verack_frame; ping_frame 7]
  /\ Forall (fun seg => nread seg = Z.of_nat (length (base seg))) sample_segments
  /\ concat (map base sample_segments) = concat [verack_frame; ping_frame 7]
  /\ Z.of_nat (length (concat [verack_frame; ping_frame 7])) <= CAPACITY
  /\ exists c evs,
       feed empty_cache sample_segments = Returned (c, evs)
       /\ handled evs = [verack_message; ping_message 7] /\ bufferIndex c = 0.
Proof.
  assert (Hvalid : Forall2 valid_frame [verack_message; ping_message 7]
                     [verack_frame; ping_frame 7]).
  { constructor; [exact verack_frame_valid|].
    constructor; [apply ping_frame_valid; left; reflexivity|]. constructor. }
  assert (Hfull : Forall (fun seg => nread seg = Z.of_nat (length (base seg)))
                    sample_segments)
    by (repeat (constructor; [reflexivity|]); constructor).
  assert (Hstream : concat (map base sample_segments)
                    = concat [verack_frame; ping_frame 7]) by (vm_compute; reflexivity).
  assert (Hfit : Z.of_nat (length (concat [verack_frame; ping_frame 7])) <= CAPACITY)
    by (vm_compute; discriminate).
  split; [exact Hvalid|]. split; [exact Hfull|]. split; [exact Hstream|].
  split; [exact Hfit|].
  exact (framer_round_trip_full_reads _ _ _ Hvalid Hfull Hstream Hfit).
Defined.

(** ** The handler, message by message *)

Section HandlerMore.
Variable env : Env.

Lemma ping_peer_keeps_requesting (o : Oracle) (p : Peer) :
  requesting (networking (ping_peer o p).1) = requesting (networking p).
Proof.
  unfold ping_peer. destruct (Qtrue _ && negb _); reflexivity.
Qed.

Lemma on_handshake_success_keeps_requesting (o : Oracle) (p : Peer) :
  requesting (networking (on_handshake_success env o p).1) = requesting (networking p).
Proof.
  unfold on_handshake_success.
  destruct (ibdMode env && _); [reflexivity|].
  pose proof (ping_peer_keeps_requesting o p) as Hk.
  destruct (ping_peer o p) as [p1 acts]. exact Hk.
Qed.

(** X7.  Whatever the message, known command or not, the handler sets the
    timestamp of the peer's candidate to the current time in seconds,
    rounded and truncated to 32 bits. *)
Theorem handler_refreshes_timestamp (o : Oracle) (p : Peer) (m : Message) :
  ar_timestamp (addr (candidacy (handle_incoming_message env o p m).1))
  = u32 (round (get_now o / SECOND_TO_MILLISECOND 1)).
Proof.
  unfold handle_incoming_message.
  set (p0 := set_candidacy p _).
  destruct (strcmp_eq _ CMD_VERSION).
  { destruct (ptrPayload m) as [vp| | | | | |]; try reflexivity.
    match goal with |- context [if peer_hand_shaken ?q then _ else _] =>
      set (p3 := q) end.
    assert (H3 : ar_timestamp (addr (candidacy p3))
                 = u32 (round (get_now o / SECOND_TO_MILLISECOND 1))).
    { subst p3. destruct (minimalPeerVersion env <=? version vp); reflexivity. }
    destruct (peer_hand_shaken p3); [|exact H3].
    pose proof (on_handshake_success_keeps env o p3) as (_ & Hc & _).
    rewrite Hc. exact H3. }
  destruct (strcmp_eq _ CMD_VERACK).
  { match goal with |- context [if peer_hand_shaken ?q then _ else _] =>
      set (p1 := q) end.
    destruct (peer_hand_shaken p1); [|reflexivity].
    pose proof (on_handshake_success_keeps env o p1) as (_ & Hc & _).
    destruct (on_handshake_success env o p1) as [p2 acts]. cbn [fst] in *.
    rewrite Hc. reflexivity. }
  destruct (strcmp_eq _ CMD_ADDR); [destruct (ptrPayload m); reflexivity|].
  destruct (strcmp_eq _ CMD_PING); [reflexivity|].
  destruct (strcmp_eq _ CMD_PONG).
  { destruct (ptrPayload m) as [|pp| | | | |]; try reflexivity.
    destruct (nonce pp =? _); [|reflexivity].
    match goal with |- context [if is_latency_fully_tested env ?q then _ else _] =>
      destruct (is_latency_fully_tested env q) end; reflexivity. }
  destruct (strcmp_eq _ CMD_HEADERS); [destruct (ptrPayload m); reflexivity|].
  destruct (strcmp_eq _ CMD_BLOCK); [destruct (ptrPayload m); reflexivity|].
  reflexivity.
Qed.

(** X8.  A message that is neither [version], [verack], [pong] nor
    [block] changes nothing of the peer but the candidate's timestamp:
    handshake flags, ping state, latency samples, chain height and the
    requested hash are as they were.  This holds for [addr], [ping],
    [headers], [inv] and for every command the handler does not know. *)
Theorem handler_leaves_peer_alone (o : Oracle) (p : Peer) (m : Message) :
  strcmp_eq (hdr_command (header m)) CMD_VERSION = false ->
  strcmp_eq (hdr_command (header m)) CMD_VERACK = false ->
  strcmp_eq (hdr_command (header m)) CMD_PONG = false ->
  strcmp_eq (hdr_command (header m)) CMD_BLOCK = false ->
  (handle_incoming_message env o p m).1 = refreshed o p.
Proof.
  intros Hv Hk Hp Hb. unfold handle_incoming_message, refreshed.
  rewrite Hv, Hk, Hp, Hb.
  destruct (strcmp_eq _ CMD_ADDR); [destruct (ptrPayload m); reflexivity|].
  destruct (strcmp_eq _ CMD_PING); [reflexivity|].
  destruct (strcmp_eq _ CMD_HEADERS); [destruct (ptrPayload m); reflexivity|].
  reflexivity.
Qed.

(** X9.  Address gossip.  For an [addr] message the handler calls
    [add_address_as_candidate] once for every record whose IP is an IPv4
    address, in the order of the message, with the record's timestamp
    less two hours computed on 32 unsigned bits, and makes no other call;
    a record stamped earlier than 7200 is therefore stored with a
    timestamp above 4294960095. *)
Theorem addr_adds_ipv4_records
    (o : Oracle) (p : Peer) (m : Message) (addr_list : list AddrRecord) :
  strcmp_eq (hdr_command (header m)) CMD_ADDR = true ->
  ptrPayload m = PAddr addr_list ->
  (handle_incoming_message env o p m).2
  = map (fun r => AddAddressAsCandidate (net_addr r) (u32 (ar_timestamp r - 7200)))
        (filter (fun r => is_ipv4 (ip (net_addr r)) = true) addr_list)
  /\ forall r, r ∈ addr_list -> 0 <= ar_timestamp r < 7200 ->
               u32 (ar_timestamp r - 7200) = ar_timestamp r + 4294960096.
Proof.
  intros Hcmd Hpay. split.
  - unfold handle_incoming_message. decide_commands. rewrite Hpay. cbn [snd].
    clear Hpay. induction addr_list as [|r l IH]; [reflexivity|].
    cbn [omap list_omap]. destruct (is_ipv4 (ip (net_addr r))) eqn:Hip.
    + rewrite filter_cons_True by exact Hip. cbn [map]. f_equal. exact IH.
    + rewrite filter_cons_False by congruence. exact IH.
  - intros r _ Hts. unfold u32.
    replace (ar_timestamp r - 7200)
      with (ar_timestamp r + 4294960096 + (-1) * 2 ^ 32)
      by (change (2 ^ 32) with 4294967296; lia).
    rewrite Z.mod_add by (change (2 ^ 32) with 4294967296; lia).
    apply Z.mod_small. change (2 ^ 32) with 4294967296. lia.
Qed.

(** X10.  No function of communication.c stores a hash in
    [networking.requesting]: the handler leaves it as it is or clears it
    (on [block]), [ping_peer] leaves it, and a data-exchange tick returns
    every peer as it was.  A slot that starts with the all-zero hash of a
    reset is therefore idle whenever it is handshaken. *)
Theorem requesting_is_never_set :
  (forall o p m,
     requesting (networking (handle_incoming_message env o p m).1)
       = requesting (networking p)
     \/ requesting (networking (handle_incoming_message env o p m).1)
       = repeat x00 SHA256_LENGTH)
  /\ (forall o p,
        requesting (networking (ping_peer o p).1) = requesting (networking p))
  /\ (forall find_missing_blocks peers,
        (exchange_data_with_peers env find_missing_blocks peers).1 = peers).
Proof.
  split; [|split].
  - intros o p m. unfold handle_incoming_message.
    set (p0 := set_candidacy p _).
    destruct (strcmp_eq _ CMD_VERSION).
    { destruct (ptrPayload m) as [vp| | | | | |]; try (left; reflexivity).
      match goal with |- context [if peer_hand_shaken ?q then _ else _] =>
        set (p3 := q) end.
      assert (H3 : requesting (networking p3) = requesting (networking p)).
      { subst p3. destruct (minimalPeerVersion env <=? version vp); reflexivity. }
      left. destruct (peer_hand_shaken p3); [|exact H3].
      rewrite on_handshake_success_keeps_requesting. exact H3. }
    destruct (strcmp_eq _ CMD_VERACK).
    { match goal with |- context [if peer_hand_shaken ?q then _ else _] =>
        set (p1 := q) end.
      left. destruct (peer_hand_shaken p1); [|reflexivity].
      pose proof (on_handshake_success_keeps_requesting o p1) as Hk.
      destruct (on_handshake_success env o p1) as [p2 acts]. exact Hk. }
    destruct (strcmp_eq _ CMD_ADDR); [destruct (ptrPayload m); left; reflexivity|].
    destruct (strcmp_eq _ CMD_PING); [left; reflexivity|].
    destruct (strcmp_eq _ CMD_PONG).
    { destruct (ptrPayload m) as [|pp| | | | |]; try (left; reflexivity).
      destruct (nonce pp =? _); [|left; reflexivity].
      match goal with |- context [if is_latency_fully_tested env ?q then _ else _] =>
        destruct (is_latency_fully_tested env q) end; left; reflexivity. }
    destruct (strcmp_eq _ CMD_HEADERS); [destruct (ptrPayload m); left; reflexivity|].
    destruct (strcmp_eq _ CMD_BLOCK);
      [destruct (ptrPayload m); (left; reflexivity) || (right; reflexivity)|].
    left. reflexivity.
  - exact ping_peer_keeps_requesting.
  - intros find peers. unfold exchange_data_with_peers.
    apply exchange_loop_keeps_peers.
Qed.

(** X11.  A peer whose [version] messages all carry a version below the
    minimum never completes the handshake, whatever else it sends and in
    whatever order: [acceptThem] stays unset, and the handler never sends
    it a [ping] or a [getaddr] and never runs [on_handshake_success]. *)
Theorem low_version_peer_never_handshakes
    (p : Peer) (inputs : list (Oracle * Message)) :
  acceptThem (handshake p) = false ->
  Forall (fun m => accepting_version env m = false) (map snd inputs) ->
  acceptThem (handshake (handle_all env p inputs).1) = false
  /\ peer_hand_shaken (handle_all env p inputs).1 = false
  /\ Forall quiet (handle_all env p inputs).2.
Proof.
  intros Hthem Hlow.
  pose proof (handle_all_flags env p inputs) as [Hf _].
  assert (Hnone : existsb (accepting_version env) (map snd inputs) = false).
  { clear -Hlow. induction Hlow as [|m ms Hm _ IH]; [reflexivity|].
    cbn [existsb]. rewrite Hm, IH. reflexivity. }
  rewrite Hthem, Hnone in Hf. cbn [orb] in Hf.
  assert (Hshaken : peer_hand_shaken (handle_all env p inputs).1 = false)
    by (unfold peer_hand_shaken; rewrite Hf; reflexivity).
  split; [exact Hf|]. split; [exact Hshaken|].
  apply handle_all_quiet. exact Hshaken.
Qed.
End HandlerMore.

Lemma handler_leaves_peer_alone_witness :
  let m := ping_message 7 in
  strcmp_eq (hdr_command (header m)) CMD_VERSION = false
  /\ (handle_incoming_message sample_env sample_oracle zero_peer m).1
     = refreshed sample_oracle zero_peer.
Proof.
  cbv zeta. split; [vm_compute; reflexivity|].
  apply handler_leaves_peer_alone; vm_compute; reflexivity.
Defined.

Lemma addr_adds_ipv4_records_witness :
  let early := {| ar_timestamp := 100;
                  net_addr := {| services := 1;
                                 ip := repeat x00 10 ++ [xff; xff; x01; x02; x03; x04];
                                 port := 8333 |} |} in
  let v6 := {| ar_timestamp := 1000000; net_addr := zero_address |} in
  let m := message_of (frame CMD_ADDR []) (PAddr [early; v6]) in
  strcmp_eq (hdr_command (header m)) CMD_ADDR = true
  /\ (handle_incoming_message sample_env sample_oracle zero_peer m).2
     = [AddAddressAsCandidate (net_addr early) 4294960196].
Proof.
  cbv zeta. split; [vm_compute; reflexivity|].
  match goal with |- (handle_incoming_message _ _ _ ?m).2 = _ =>
    pose proof (addr_adds_ipv4_records sample_env sample_oracle zero_peer m _
                  ltac:(vm_compute; reflexivity) eq_refl) as [Hacts _]
  end.
  rewrite Hacts. vm_compute. reflexivity.
Defined.

Lemma low_version_peer_never_handshakes_witness :
  let inputs := [ (sample_oracle, version_message 209 600000 1);
                  (sample_oracle, verack_message);
                  (sample_oracle, ping_message 7) ] in
  acceptThem (handshake zero_peer) = false
  /\ Forall (fun m => accepting_version sample_env m = false) (map snd inputs)
  /\ peer_hand_shaken (handle_all sample_env zero_peer inputs).1 = false
  /\ Forall quiet (handle_all sample_env zero_peer inputs).2.
Proof.
  cbv zeta.
  assert (Hlow : Forall (fun m => accepting_version sample_env m = false)
                   (map snd [ (sample_oracle, version_message 209 600000 1);
                              (sample_oracle, verack_message);
                              (sample_oracle, ping_message 7) ]))
    by (repeat (constructor; [vm_compute; reflexivity|]); constructor).
  split; [reflexivity|]. split; [exact Hlow|].
  exact (proj2 (low_version_peer_never_handshakes sample_env zero_peer _ eq_refl Hlow)).
Defined.

(** ** Pings *)

Lemma Qgtb_true_iff (a b : Q) : Qgtb a b = true <-> (b < a)%Q.
Proof.
  unfold Qgtb. rewrite negb_true_iff. split.
  - intros Hle. apply Qnot_le_lt. intros Hab.
    apply Qle_bool_iff in Hab. congruence.
  - intros Hlt. destruct (Qle_bool a b) eqn:Hle; [|reflexivity].
    apply Qle_bool_iff in Hle. exfalso. exact (Qlt_not_le _ _ Hlt Hle).
Qed.

Lemma Qgtb_false_iff (a b : Q) : Qgtb a b = false <-> (a <= b)%Q.
Proof.
  unfold Qgtb. rewrite negb_false_iff. apply Qle_bool_iff.
Qed.

Section Pings.
Context `{PayloadParsers}.
Variable env : Env.

Lemma on_message_attempted_ping (buf : list byte) (msg : Message) (now : Q) (p : Peer) :
  parse_buffer_into_message buf = Some msg ->
  strcmp_eq (hdr_command (header msg)) CMD_PING = true ->
  on_message_attempted 0 buf now p
  = set_networking p
      (set_ping (networking p)
         {| ping_nonce := ping_nonce (ping (networking p));
            pingSent := now;
            pongReceived := pongReceived (ping (networking p)) |}).
Proof.
  intros Hparse Hcmd. unfold on_message_attempted.
  change (negb (0 =? 0)) with false. cbv iota. rewrite Hparse, Hcmd. reflexivity.
Qed.

(** X12.  A latency measurement from end to end.  [ping_peer] sends one
    [ping] with a fresh nonce; when its write completes at [t1] the
    callback stamps [pingSent]; when the [pong] with that nonce is handled
    at [t2], exactly the sample [t2 - t1] is added to the samples the peer
    had after [ping_peer], and [pongReceived] is [t2]. *)
Theorem ping_pong_measures_latency
    (o1 o3 : Oracle) (p : Peer) (buf : list byte) (t1 : Q) (sent pong : Message) :
  parse_buffer_into_message buf = Some sent ->
  strcmp_eq (hdr_command (header sent)) CMD_PING = true ->
  strcmp_eq (hdr_command (header pong)) CMD_PONG = true ->
  ptrPayload pong = PPingpong {| nonce := random_uint64 o1 |} ->
  let p1 := (ping_peer o1 p).1 in
  let p2 := on_message_attempted 0 buf t1 p1 in
  let p3 := (handle_incoming_message env o3 p2 pong).1 in
  (ping_peer o1 p).2
    = [SendMessage CMD_PING (Some (PPingpong {| nonce := random_uint64 o1 |}))]
  /\ latencies (networking p3) = (get_now o3 - t1)%Q :: latencies (networking p1)
  /\ pongReceived (ping (networking p3)) = get_now o3.
Proof.
  intros Hparse Hsent Hpong Hpay. cbv zeta.
  split; [reflexivity|].
  rewrite (on_message_attempted_ping buf sent t1 _ Hparse Hsent).
  unfold handle_incoming_message. decide_commands. rewrite Hpay.
  unfold ping_peer. cbn [fst nonce].
  destruct (Qtrue _ && negb _); cbn; rewrite Z.eqb_refl;
    match goal with |- context [if is_latency_fully_tested env ?q then _ else _] =>
      destruct (is_latency_fully_tested env q) end; cbn; split; reflexivity.
Qed.

(** X13.  A ping that was never answered is counted at the next ping:
    when the first ping's write completed at a time [t1] other than 0 and
    no matching [pong] came, the next [ping_peer] adds the sample
    [now - t1] before it draws a new nonce.  When the write completed at
    clock 0, [pingSent] reads as unset and nothing is added. *)
Theorem unanswered_ping_is_counted
    (o1 o2 : Oracle) (p : Peer) (buf : list byte) (t1 : Q) (sent : Message) :
  parse_buffer_into_message buf = Some sent ->
  strcmp_eq (hdr_command (header sent)) CMD_PING = true ->
  let p1 := (ping_peer o1 p).1 in
  let p2 := on_message_attempted 0 buf t1 p1 in
  (~ (t1 == 0)%Q ->
     latencies (networking (ping_peer o2 p2).1)
     = (get_now_ping o2 - t1)%Q :: latencies (networking p1))
  /\ ((t1 == 0)%Q ->
      latencies (networking (ping_peer o2 p2).1) = latencies (networking p1)).
Proof.
  intros Hparse Hsent. cbv zeta.
  rewrite (on_message_attempted_ping buf sent t1 _ Hparse Hsent).
  set (p1 := (ping_peer o1 p).1).
  assert (Hpong : pongReceived (ping (networking p1)) = 0%Q).
  { subst p1. unfold ping_peer. destruct (Qtrue _ && negb _); reflexivity. }
  unfold ping_peer. cbn [networking ping set_networking set_ping pingSent pongReceived].
  rewrite Hpong. change (negb (Qtrue 0)) with true. rewrite andb_true_r.
  split; intros Ht.
  - assert (Hq : Qtrue t1 = true).
    { unfold Qtrue. destruct (Qeq_bool t1 0) eqn:He; [|reflexivity].
      apply Qeq_bool_eq in He. contradiction. }
    rewrite Hq. reflexivity.
  - assert (Hq : Qtrue t1 = false).
    { unfold Qtrue. apply negb_false_iff. apply Qeq_bool_iff. exact Ht. }
    rewrite Hq. reflexivity.
Qed.
End Pings.

Lemma ping_frame_parses :
  parse_buffer_into_message (ping_frame 7) = Some (ping_message 7).
Proof.
  pose proof (ping_frame_valid 7 (or_introl eq_refl)) as (_ & _ & Hparse).
  specialize (Hparse []). rewrite app_nil_r in Hparse. exact Hparse.
Qed.

Lemma ping_pong_measures_latency_witness :
  let o1 := {| get_now := 0; get_now_ping := 1000; random_uint64 := 7 |} in
  let o3 := {| get_now := 1350; get_now_ping := 0; random_uint64 := 0 |} in
  let p1 := (ping_peer o1 zero_peer).1 in
  let p2 := on_message_attempted 0 (ping_frame 7) 1001 p1 in
  let p3 := (handle_incoming_message sample_env o3 p2 (pong_message 7)).1 in
  parse_buffer_into_message (ping_frame 7) = Some (ping_message 7)
  /\ latencies (networking p3) = [(1350 - 1001)%Q]
  /\ pongReceived (ping (networking p3)) = 1350%Q.
Proof.
  cbv zeta. split; [exact ping_frame_parses|].
  pose proof (ping_pong_measures_latency sample_env
                {| get_now := 0; get_now_ping := 1000; random_uint64 := 7 |}
                {| get_now := 1350; get_now_ping := 0; random_uint64 := 0 |}
                zero_peer (ping_frame 7) 1001 (ping_message 7) (pong_message 7)
                ping_frame_parses ltac:(vm_compute; reflexivity)
                ltac:(vm_compute; reflexivity) eq_refl) as (_ & Hl & Hp).
  split; [exact Hl|exact Hp].
Defined.

Lemma unanswered_ping_is_counted_witness :
  let o1 := {| get_now := 0; get_now_ping := 1000; random_uint64 := 7 |} in
  let o2 := {| get_now := 0; get_now_ping := 12000; random_uint64 := 8 |} in
  let p1 := (ping_peer o1 zero_peer).1 in
  let p2 := on_message_attempted 0 (ping_frame 7) 1001 p1 in
  parse_buffer_into_message (ping_frame 7) = Some (ping_message 7)
  /\ ~ (1001 == 0)%Q
  /\ latencies (networking (ping_peer o2 p2).1) = [(12000 - 1001)%Q].
Proof.
  cbv zeta. split; [exact ping_frame_parses|].
  assert (Ht : ~ (1001 == 0)%Q) by (intros Heq; vm_compute in Heq; discriminate).
  split; [exact Ht|].
  exact (proj1 (unanswered_ping_is_counted
                  {| get_now := 0; get_now_ping := 1000; random_uint64 := 7 |}
                  {| get_now := 0; get_now_ping := 12000; random_uint64 := 8 |}
                  zero_peer (ping_frame 7) 1001 (ping_message 7)
                  ping_frame_parses ltac:(vm_compute; reflexivity)) Ht).
Defined.

(** ** Liveness checks *)

Section Liveness.
Context `{PayloadParsers}.
Variable env : Env.
Variable tol : Tolerances.

Lemma handle_keeps_handshakeStart (o : Oracle) (p : Peer) (m : Message) :
  handshakeStart (handshake (handle_incoming_message env o p m).1)
  = handshakeStart (handshake p).
Proof.
  unfold handle_incoming_message.
  set (p0 := set_candidacy p _).
  destruct (strcmp_eq _ CMD_VERSION).
  { destruct (ptrPayload m) as [vp| | | | | |]; try reflexivity.
    match goal with |- context [if peer_hand_shaken ?q then _ else _] =>
      set (p3 := q) end.
    assert (H3 : handshakeStart (handshake p3) = handshakeStart (handshake p)).
    { subst p3. destruct (minimalPeerVersion env <=? version vp); reflexivity. }
    destruct (peer_hand_shaken p3); [|exact H3].
    pose proof (on_handshake_success_keeps env o p3) as (_ & _ & Hh).
    rewrite Hh. exact H3. }
  destruct (strcmp_eq _ CMD_VERACK).
  { match goal with |- context [if peer_hand_shaken ?q then _ else _] =>
      set (p1 := q) end.
    destruct (peer_hand_shaken p1); [|reflexivity].
    pose proof (on_handshake_success_keeps env o p1) as (_ & _ & Hh).
    destruct (on_handshake_success env o p1) as [p2 acts]. cbn [fst] in *.
    rewrite Hh. reflexivity. }
  destruct (strcmp_eq _ CMD_ADDR); [destruct (ptrPayload m); reflexivity|].
  destruct (strcmp_eq _ CMD_PING); [reflexivity|].
  destruct (strcmp_eq _ CMD_PONG).
  { destruct (ptrPayload m) as [|pp| | | | |]; try reflexivity.
    destruct (nonce pp =? _); [|reflexivity].
    match goal with |- context [if is_latency_fully_tested env ?q then _ else _] =>
      destruct (is_latency_fully_tested env q) end; reflexivity. }
  destruct (strcmp_eq _ CMD_HEADERS); [destruct (ptrPayload m); reflexivity|].
  destruct (strcmp_eq _ CMD_BLOCK); [destruct (ptrPayload m); reflexivity|].
  reflexivity.
Qed.

Lemma handle_all_keeps_handshakeStart (p : Peer) (inputs : list (Oracle * Message)) :
  handshakeStart (handshake (handle_all env p inputs).1) = handshakeStart (handshake p).
Proof.
  revert p. induction inputs as [|[o m] inputs IH]; intros p; [reflexivity|].
  cbn [handle_all].
  pose proof (handle_keeps_handshakeStart o p m) as Hstep.
  destruct (handle_incoming_message env o p m) as [p1 acts].
  specialize (IH p1). destruct (handle_all env p1 inputs) as [p2 trace].
  cbn [fst] in *. congruence.
Qed.

(** X14.  The handshake timeout, from bind to check.  A slot is bound at
    [t0], the write of its [version] completes at [t1], and some messages
    are handled.  If among them both a [version] with an accepted version
    and a [verack] were seen, [check_peer] leaves the peer alone whatever
    the time and whatever its latency samples.  Otherwise [check_peer]
    disables the candidate and replaces the peer exactly when more than
    the handshake tolerance has passed since [t1] (not since [t0]), and
    leaves the peer alone when no more than the tolerance has passed. *)
Theorem handshake_timeout_from_version_sent
    (peerIndex : Z) (cand : PeerCandidate) (t0 t1 now : Q)
    (buf : list byte) (sent : Message) (inputs : list (Oracle * Message)) :
  parse_buffer_into_message buf = Some sent ->
  strcmp_eq (hdr_command (header sent)) CMD_VERSION = true ->
  let p1 := on_message_attempted 0 buf t1 (initialize_peer peerIndex cand t0) in
  let p2 := (handle_all env p1 inputs).1 in
  let '(p3, acts, log, timedout) := check_peer env tol now p2 in
  (both_observed env (map snd inputs) = true ->
     timedout = false /\ p3 = p2 /\ acts = [])
  /\ (both_observed env (map snd inputs) = false ->
      ((inject_Z (tolerance_handshake tol) < now - t1)%Q ->
         timedout = true /\ acts = [ReplacePeer]
         /\ status (candidacy p3) = PEER_CANDIDATE_STATUS_DISABLED)
      /\ ((now - t1 <= inject_Z (tolerance_handshake tol))%Q ->
          timedout = false /\ p3 = p2 /\ acts = [])).
Proof.
  intros Hparse Hsent. cbv zeta.
  set (p1 := on_message_attempted 0 buf t1 (initialize_peer peerIndex cand t0)).
  assert (Hp1 : handshake p1
                = {| acceptThem := false; acceptUs := false; handshakeStart := t1 |}).
  { subst p1. unfold on_message_attempted.
    change (negb (0 =? 0)) with false. cbv iota. rewrite Hparse.
    decide_commands. reflexivity. }
  pose proof (handle_all_flags env p1 inputs) as [Hf1 Hf2].
  pose proof (handle_all_keeps_handshakeStart p1 inputs) as Hstart.
  rewrite Hp1 in Hf1, Hf2, Hstart.
  cbn [acceptThem acceptUs handshakeStart orb] in Hf1, Hf2, Hstart.
  set (p2 := (handle_all env p1 inputs).1) in *.
  assert (Hshaken : peer_hand_shaken p2 = both_observed env (map snd inputs)).
  { unfold peer_hand_shaken, both_observed. rewrite Hf1, Hf2. reflexivity. }
  unfold check_peer. rewrite Hshaken, Hstart.
  destruct (both_observed env (map snd inputs)); cbn [negb andb].
  - split; [auto|intros Hfalse; discriminate].
  - destruct (Qgtb (now - t1) (inject_Z (tolerance_handshake tol))) eqn:Hgt.
    + apply Qgtb_true_iff in Hgt. cbn [disable_candidate replace_peer].
      split; [intros Htrue; discriminate|]. intros _.
      split; [intros _; auto|].
      intros Hle. exfalso. exact (Qlt_not_le _ _ Hgt Hle).
    + apply Qgtb_false_iff in Hgt.
      split; [intros Htrue; discriminate|]. intros _.
      split; [|intros _; auto].
      intros Hlt. exfalso. exact (Qlt_not_le _ _ Hlt Hgt).
Qed.

(** X16.  [check_peers_connectivity] drops the answer of [check_peer]: a
    peer that has not completed the handshake in time and has also
    outlived the peer life gets [replace_peer] called twice in the same
    tick, once by each check. *)
Theorem late_and_old_peer_is_replaced_twice
    (clock : nat -> Q) (k : nat) (i : Z) (p : Peer) (rest : list Peer) :
  peer_hand_shaken p = false ->
  (inject_Z (tolerance_handshake tol) < clock k - handshakeStart (handshake p))%Q ->
  tolerance_peerLife tol <> 0 ->
  (inject_Z (tolerance_peerLife tol) < clock (S k) - connectionStart p)%Q ->
  (check_peers_loop env tol clock k i (p :: rest)).1.2
  = (i, ReplacePeer) :: (i, ReplacePeer)
      :: (check_peers_loop env tol clock (S (S k)) (i + 1) rest).1.2.
Proof.
  intros Hshaken Hlate Hlife Hold.
  cbn [check_peers_loop]. unfold check_peer, check_peer_life.
  rewrite Hshaken. cbn [negb andb].
  apply Qgtb_true_iff in Hlate, Hold. rewrite Hlate.
  cbn [disable_candidate replace_peer].
  destruct (Z.eqb_spec (tolerance_peerLife tol) 0) as [Hz|_]; [contradiction|].
  cbn [negb connectionStart set_candidacy]. rewrite Hold.
  destruct (check_peers_loop env tol clock (S (S k)) (i + 1) rest) as [[rest' acts] log].
  reflexivity.
Qed.
End Liveness.

Section PingTick.

Lemma ping_peers_loop_slots (oracles : nat -> Oracle) (i : nat) (peers : list Peer) :
  Forall (fun a => (i <= a.1)%nat) (ping_peers_loop oracles i peers).2.
Proof.
  revert i. induction peers as [|p peers IH]; intros i; cbn [ping_peers_loop];
    [constructor|].
  specialize (IH (S i)).
  destruct (ping_peers_loop oracles (S i) peers) as [rest' acts].
  destruct (if peer_hand_shaken p then ping_peer (oracles i) p else (p, []))
    as [p1 acts1].
  cbn [snd] in *. apply Forall_app. split.
  - apply Forall_forall. intros a Ha. apply list_elem_of_fmap in Ha as (x & -> & _).
    cbn. lia.
  - eapply Forall_impl; [exact IH|]. cbn. intros a Ha. lia.
Qed.

Lemma filter_slot_none (i : nat) (acts : list (nat * Action)) :
  Forall (fun a => (i < a.1)%nat) acts ->
  filter (fun a : nat * Action => a.1 = i) acts = [].
Proof.
  induction 1 as [|a acts Ha _ IH]; [reflexivity|].
  rewrite filter_cons_False by lia. exact IH.
Qed.

Lemma ping_peers_loop_nonces (oracles : nat -> Oracle) (peers : list Peer) :
  forall (i j : nat) (p' : Peer),
    (ping_peers_loop oracles i peers).1 !! j = Some p' ->
    let mine := filter (fun a : nat * Action => a.1 = (i + j)%nat)
                       (ping_peers_loop oracles i peers).2 in
    (peer_hand_shaken p' = true ->
       mine = [((i + j)%nat,
                SendMessage CMD_PING
                  (Some (PPingpong {| nonce := ping_nonce (ping (networking p')) |})))]
       /\ pongReceived (ping (networking p')) = 0%Q)
    /\ (peer_hand_shaken p' = false -> mine = [] /\ peers !! j = Some p').
Proof.
  induction peers as [|p peers IH]; intros i j p' Hlook; cbn [ping_peers_loop] in *;
    [discriminate|].
  pose proof (ping_peers_loop_slots oracles (S i) peers) as Hslots.
  specialize (IH (S i)).
  destruct (ping_peers_loop oracles (S i) peers) as [rest' acts].
  pose proof (ping_peer_keeps (oracles i) p) as (_ & _ & Hh).
  assert (Hhead : forall acts1 k, filter (fun a : nat * Action => a.1 = (S i + k)%nat)
                                  (map (pair i) acts1) = []).
  { clear. intros acts1 k. induction acts1 as [|a l IHl]; [reflexivity|].
    cbn [map]. rewrite filter_cons_False by (cbn; lia). exact IHl. }
  assert (Hrest : filter (fun a : nat * Action => a.1 = i) acts = []).
  { apply filter_slot_none. eapply Forall_impl; [exact Hslots|]. cbn. intros; lia. }
  destruct (peer_hand_shaken p) eqn:Hshaken.
  - destruct (ping_peer (oracles i) p) as [p1 acts1] eqn:Hping.
    cbn [fst snd] in *.
    destruct j as [|j].
    + injection Hlook as <-. replace (i + 0)%nat with i by lia.
      assert (Hp1 : peer_hand_shaken p1 = true)
        by (unfold peer_hand_shaken in *; rewrite Hh; exact Hshaken).
      rewrite filter_app, Hrest, app_nil_r.
      unfold ping_peer in Hping. injection Hping as <- <-.
      split; [|intros Hfalse; cbv zeta in Hp1; congruence].
      intros _. cbn [map]. rewrite filter_cons_True by reflexivity.
      split; reflexivity.
    + cbn [lookup list_lookup] in Hlook |- *.
      replace (i + S j)%nat with (S i + j)%nat by lia.
      rewrite filter_app, Hhead. exact (IH j p' Hlook).
  - cbn [fst snd map app] in *.
    destruct j as [|j].
    + injection Hlook as <-. replace (i + 0)%nat with i by lia.
      rewrite Hrest. split; [intros Htrue; congruence|auto].
    + cbn [lookup list_lookup] in Hlook |- *.
      replace (i + S j)%nat with (S i + j)%nat by lia.
      exact (IH j p' Hlook).
Qed.

(** X15.  After a ping tick, every handshaken slot was sent exactly one
    [ping], the nonce it carried is the nonce stored in that slot, and
    the slot's [pongReceived] is cleared; a slot that is not handshaken
    was sent nothing and is as it was. *)
Theorem ping_tick_sends_the_stored_nonce
    (oracles : nat -> Oracle) (peers : list Peer) (i : nat) (p' : Peer) :
  (ping_peers oracles peers).1 !! i = Some p' ->
  let mine := filter (fun a : nat * Action => a.1 = i) (ping_peers oracles peers).2 in
  (peer_hand_shaken p' = true ->
     mine = [(i, SendMessage CMD_PING
                   (Some (PPingpong {| nonce := ping_nonce (ping (networking p')) |})))]
     /\ pongReceived (ping (networking p')) = 0%Q)
  /\ (peer_hand_shaken p' = false -> mine = [] /\ peers !! i = Some p').
Proof.
  intros Hlook. exact (ping_peers_loop_nonces oracles peers 0 i p' Hlook).
Qed.
End PingTick.

Lemma handshake_timeout_from_version_sent_witness :
  let tol := {| tolerance_handshake := 5000; tolerance_peerLife := 0 |} in
  let buf := frame CMD_VERSION [] in
  let p1 := on_message_attempted (H := version_parsers) 0 buf 100
              (initialize_peer 3 zero_candidate 0) in
  let p2 := (handle_all sample_env p1 [(sample_oracle, verack_message)]).1 in
  parse_buffer_into_message (H := version_parsers) buf
    = Some (version_message 70015 0 1)
  /\ both_observed sample_env (map snd [(sample_oracle, verack_message)]) = false
  /\ (inject_Z (tolerance_handshake tol) < 5101 - 100)%Q
  /\ (check_peer sample_env tol 5101 p2).2 = true
  /\ (check_peer sample_env tol 5101 p2).1.1.2 = [ReplacePeer].
Proof.
  cbv zeta.
  assert (Hparse : parse_buffer_into_message (H := version_parsers) (frame CMD_VERSION [])
                   = Some (version_message 70015 0 1)) by (vm_compute; reflexivity).
  assert (Hnot : both_observed sample_env (map snd [(sample_oracle, verack_message)])
                 = false) by (vm_compute; reflexivity).
  assert (Hlate : (inject_Z 5000 < 5101 - 100)%Q) by (vm_compute; reflexivity).
  split; [exact Hparse|]. split; [exact Hnot|]. split; [exact Hlate|].
  pose proof (handshake_timeout_from_version_sent (H := version_parsers) sample_env
                {| tolerance_handshake := 5000; tolerance_peerLife := 0 |}
                3 zero_candidate 0 100 5101 (frame CMD_VERSION [])
                (version_message 70015 0 1) [(sample_oracle, verack_message)]
                Hparse ltac:(vm_compute; reflexivity)) as Hthm.
  cbv zeta in Hthm.
  destruct (check_peer sample_env _ 5101 _) as [[[p3 acts] log] timedout].
  destruct Hthm as [_ Hthm]. destruct (Hthm Hnot) as [Hto _].
  destruct (Hto Hlate) as (-> & -> & _). split; reflexivity.
Defined.

Lemma late_and_old_peer_is_replaced_twice_witness :
  let tol := {| tolerance_handshake := 5000; tolerance_peerLife := 60000 |} in
  let clock := fun _ : nat => 70000%Q in
  peer_hand_shaken zero_peer = false
  /\ tolerance_peerLife tol <> 0
  /\ (check_peers_loop sample_env tol clock 0 0 [zero_peer]).1.2
     = [(0, ReplacePeer); (0, ReplacePeer)].
Proof.
  cbv zeta. split; [reflexivity|]. split; [discriminate|].
  rewrite (late_and_old_peer_is_replaced_twice sample_env
             {| tolerance_handshake := 5000; tolerance_peerLife := 60000 |}
             (fun _ => 70000%Q) 0 0 zero_peer []);
    try reflexivity; discriminate.
Defined.

Lemma ping_tick_sends_the_stored_nonce_witness :
  let peers := [zero_peer; handshaken_peer (repeat x00 SHA256_LENGTH)] in
  let oracles := fun i : nat =>
    {| get_now := 0; get_now_ping := 0; random_uint64 := Z.of_nat i + 40 |} in
  exists p',
    (ping_peers oracles peers).1 !! 1%nat = Some p'
    /\ peer_hand_shaken p' = true
    /\ ping_nonce (ping (networking p')) = 41
    /\ filter (fun a : nat * Action => a.1 = 1%nat) (ping_peers oracles peers).2
       = [(1%nat, SendMessage CMD_PING (Some (PPingpong {| nonce := 41 |})))].
Proof.
  cbv zeta. eexists. split; [vm_compute; reflexivity|].
  split; [reflexivity|]. split; [reflexivity|].
  match goal with |- filter _ (ping_peers ?o ?ps).2 = _ =>
    pose proof (ping_tick_sends_the_stored_nonce o ps 1 _ eq_refl) as [Hs _]
  end.
  destruct (Hs eq_refl) as [Hmine _]. exact Hmine.
Defined.

(** ** The data-exchange tick *)

Section ExchangeFacts.
Variable env : Env.

Lemma requested_app (a b : list (Z * Action)) :
  requested (a ++ b) = requested a ++ requested b.
Proof. unfold requested. apply omap_app. Qed.

Lemma requested_headers (i : Z) (headers : list Action) (h : SHA256_HASH) :
  headers = [SendGetheaders] \/ headers = [] ->
  requested (map (pair i) (headers ++ send_getdata_for_block (Some h))) = [h].
Proof. intros [-> | ->]; reflexivity. Qed.

Lemma requested_null (i : Z) (headers : list Action) :
  headers = [SendGetheaders] \/ headers = [] ->
  requested (map (pair i) (headers ++ send_getdata_for_block None)) = [].
Proof. intros [-> | ->]; reflexivity. Qed.

Lemma headers_cases (p : Peer) :
  let headers := if mainTip_height env <? u32 (chain_height p)
                 then send_getheaders else [] in
  headers = [SendGetheaders] \/ headers = [].
Proof. cbv zeta. destruct (_ <? _); [left | right]; reflexivity. Qed.

Lemma is_peer_idle_shaken (p : Peer) :
  is_peer_idle p = true -> peer_hand_shaken p = true.
Proof. unfold is_peer_idle. intros H. apply andb_true_iff in H. tauto. Qed.

Lemma exchange_loop_requested (peers : list Peer) (blocksDesired : list SHA256_HASH) :
  Z.of_nat (length blocksDesired) < 2 ^ 32 ->
  forall (i blockIndex : Z),
    0 <= blockIndex <= Z.of_nat (length blocksDesired) ->
    requested (exchange_loop env i peers blocksDesired blockIndex).2
    = take (idle_prefix (filter (fun p => peer_hand_shaken p = true) peers))
           (drop (Z.to_nat blockIndex) blocksDesired).
Proof.
  intros Hsmall. induction peers as [|p peers IH]; intros i b Hb;
    cbn [exchange_loop]; [reflexivity|].
  destruct (peer_hand_shaken p) eqn:Hshaken; cbn [negb].
  2: { rewrite filter_cons_False by (cbv beta; rewrite Hshaken; discriminate).
       specialize (IH (i + 1) b Hb).
       destruct (exchange_loop env (i + 1) peers blocksDesired b) as [rest' acts].
       exact IH. }
  rewrite filter_cons_True by exact Hshaken. cbn [idle_prefix].
  pose proof (headers_cases p) as Hheaders. cbv zeta in Hheaders.
  destruct (is_peer_idle p) eqn:Hidle; cbn [andb].
  - destruct (Z.ltb_spec b (Z.of_nat (length blocksDesired))) as [Hlt|Hge].
    + assert (Hu : u32 (b + 1) = b + 1) by (apply Z.mod_small; lia).
      rewrite Hu.
      destruct (lookup_lt_is_Some_2 blocksDesired (Z.to_nat b) ltac:(lia)) as [h Hh].
      rewrite Hh.
      specialize (IH (i + 1) (b + 1) ltac:(lia)).
      destruct (exchange_loop env (i + 1) peers blocksDesired (b + 1)) as [rest' acts].
      cbn [snd] in *.
      rewrite requested_app, IH, (requested_headers _ _ _ Hheaders).
      rewrite (drop_S _ _ _ Hh). cbn [take].
      replace (Z.to_nat (b + 1)) with (S (Z.to_nat b)) by lia. reflexivity.
    + cbn [snd]. rewrite (requested_null _ _ Hheaders).
      rewrite (drop_ge blocksDesired) by lia. rewrite take_nil. reflexivity.
  - cbn [snd]. rewrite (requested_null _ _ Hheaders). reflexivity.
Qed.

(** X17.  The hashes a tick asks for are the first hashes that the chain
    store found, in its order, one for each handshaken peer in slot order
    up to the first handshaken peer that is not idle: there the NULL
    pointer is passed and nothing more is asked for.  No hash is asked for
    twice and none is skipped. *)
Theorem exchange_requests_hashes_in_order
    (find_missing_blocks : Z -> list SHA256_HASH) (peers : list Peer) :
  let found := find_missing_blocks (count_idle_peers peers) in
  Z.of_nat (length found) < 2 ^ 32 ->
  requested (exchange_data_with_peers env find_missing_blocks peers).2
  = take (idle_prefix (filter (fun p => peer_hand_shaken p = true) peers)) found.
Proof.
  cbv zeta. intros Hsmall. unfold exchange_data_with_peers.
  rewrite (exchange_loop_requested peers _ Hsmall 0 0) by lia.
  reflexivity.
Qed.

Lemma exchange_loop_completes (peers : list Peer) (blocksDesired : list SHA256_HASH) :
  Z.of_nat (length blocksDesired) < 2 ^ 32 ->
  forall (i blockIndex : Z),
    0 <= blockIndex ->
    Forall (fun p => peer_hand_shaken p = true -> is_peer_idle p = true) peers ->
    (Z.of_nat (length (filter (fun p => peer_hand_shaken p = true) peers))
     <= Z.of_nat (length blocksDesired) - blockIndex) ->
    let acts := (exchange_loop env i peers blocksDesired blockIndex).2 in
    Forall (fun a => null_getdata a = false) acts
    /\ length (filter (fun a => is_getdata a = true) acts)
       = length (filter (fun p => peer_hand_shaken p = true) peers).
Proof.
  intros Hsmall. induction peers as [|p peers IH]; intros i b Hb Hidle Hfit;
    cbn [exchange_loop]; cbv zeta; [split; [constructor | reflexivity]|].
  apply Forall_cons in Hidle as [Hp Hidle].
  destruct (peer_hand_shaken p) eqn:Hshaken; cbn [negb].
  2: { rewrite filter_cons_False in Hfit |- *
         by (cbv beta; rewrite Hshaken; discriminate).
       specialize (IH (i + 1) b Hb Hidle Hfit). cbv zeta in IH.
       destruct (exchange_loop env (i + 1) peers blocksDesired b) as [rest' acts].
       exact IH. }
  rewrite filter_cons_True in Hfit |- * by exact Hshaken. cbn [length] in Hfit |- *.
  rewrite (Hp eq_refl). cbn [andb].
  destruct (Z.ltb_spec b (Z.of_nat (length blocksDesired))) as [Hlt|Hge]; [|lia].
  assert (Hu : u32 (b + 1) = b + 1) by (apply Z.mod_small; lia).
  rewrite Hu.
  destruct (lookup_lt_is_Some_2 blocksDesired (Z.to_nat b) ltac:(lia)) as [h Hh].
  rewrite Hh.
  specialize (IH (i + 1) (b + 1) ltac:(lia) Hidle ltac:(lia)). cbv zeta in IH.
  destruct (exchange_loop env (i + 1) peers blocksDesired (b + 1)) as [rest' acts].
  cbn [snd] in *. destruct IH as [IH1 IH2].
  rewrite filter_app, length_app, IH2.
  destruct (headers_cases p) as [-> | ->]; split;
    try (repeat constructor; exact IH1); reflexivity.
Qed.

Lemma exchange_loop_ends_in_null (peers : list Peer) (blocksDesired : list SHA256_HASH) :
  Z.of_nat (length blocksDesired) < 2 ^ 32 ->
  forall (i blockIndex : Z),
    0 <= blockIndex <= Z.of_nat (length blocksDesired) ->
    Exists (fun p => peer_hand_shaken p = true /\ is_peer_idle p = false) peers
    \/ (Z.of_nat (length blocksDesired) - blockIndex
        < Z.of_nat (length (filter (fun p => peer_hand_shaken p = true) peers))) ->
    exists pre j,
      (exchange_loop env i peers blocksDesired blockIndex).2
      = pre ++ [(j, SendGetdataForBlock None)]
      /\ Forall (fun a => null_getdata a = false) pre.
Proof.
  intros Hsmall. induction peers as [|p peers IH]; intros i b Hb Hwhy;
    cbn [exchange_loop].
  { destruct Hwhy as [Hbusy | Hfew]; [inversion Hbusy | cbn in Hfew; lia]. }
  destruct (peer_hand_shaken p) eqn:Hshaken; cbn [negb].
  2: { rewrite filter_cons_False in Hwhy
         by (cbv beta; rewrite Hshaken; discriminate).
       destruct (IH (i + 1) b Hb) as (pre & j & Hacts & Hpre).
       { destruct Hwhy as [Hbusy | Hfew]; [left | right; exact Hfew].
         apply Exists_cons in Hbusy as [[Hs _] | Hbusy]; [congruence | exact Hbusy]. }
       destruct (exchange_loop env (i + 1) peers blocksDesired b) as [rest' acts].
       exists pre, j. split; assumption. }
  rewrite filter_cons_True in Hwhy by exact Hshaken. cbn [length] in Hwhy.
  assert (Hnull : exists pre,
            map (pair i) ((if mainTip_height env <? u32 (chain_height p)
                           then send_getheaders else [])
                          ++ send_getdata_for_block None)
            = pre ++ [(i, SendGetdataForBlock None)]
            /\ Forall (fun a => null_getdata a = false) pre).
  { destruct (headers_cases p) as [-> | ->].
    - exists [(i, SendGetheaders)]. split; [reflexivity | repeat constructor].
    - exists []. split; [reflexivity | constructor]. }
  destruct (is_peer_idle p) eqn:Hidle; cbn [andb].
  - destruct (Z.ltb_spec b (Z.of_nat (length blocksDesired))) as [Hlt|Hge].
    + assert (Hu : u32 (b + 1) = b + 1) by (apply Z.mod_small; lia).
      rewrite Hu.
      destruct (lookup_lt_is_Some_2 blocksDesired (Z.to_nat b) ltac:(lia)) as [h Hh].
      rewrite Hh.
      destruct (IH (i + 1) (b + 1) ltac:(lia)) as (pre & j & Hacts & Hpre).
      { destruct Hwhy as [Hbusy | Hfew]; [left | right; lia].
        apply Exists_cons in Hbusy as [[_ Hb'] | Hbusy]; [congruence | exact Hbusy]. }
      destruct (exchange_loop env (i + 1) peers blocksDesired (b + 1)) as [rest' acts].
      cbn [snd] in *. rewrite Hacts.
      exists (map (pair i) ((if mainTip_height env <? u32 (chain_height p)
                             then send_getheaders else [])
                            ++ send_getdata_for_block (Some h)) ++ pre), j.
      split; [rewrite app_assoc; reflexivity|].
      apply Forall_app. split; [|exact Hpre].
      destruct (headers_cases p) as [-> | ->]; repeat constructor.
    + destruct Hnull as (pre & Hacts & Hpre). exists pre, i. split; assumption.
  - destruct Hnull as (pre & Hacts & Hpre). exists pre, i. split; assumption.
Qed.

(** X18.  When a tick ends in the NULL call.  If every handshaken peer is
    idle and the chain store found a hash for each, the tick visits them
    all: it calls [send_getdata_for_block] once for each, never with the
    NULL pointer.  If some handshaken peer is not idle, or the handshaken
    peers outnumber the hashes found, the last call of the tick is
    [send_getdata_for_block] with the NULL pointer. *)
Theorem exchange_tick_null_call
    (find_missing_blocks : Z -> list SHA256_HASH) (peers : list Peer) :
  let found := find_missing_blocks (count_idle_peers peers) in
  let shaken := filter (fun p => peer_hand_shaken p = true) peers in
  let acts := (exchange_data_with_peers env find_missing_blocks peers).2 in
  Z.of_nat (length found) < 2 ^ 32 ->
  (Forall (fun p => is_peer_idle p = true) shaken ->
   (length shaken <= length found)%nat ->
   Forall (fun a => null_getdata a = false) acts
   /\ length (filter (fun a => is_getdata a = true) acts) = length shaken)
  /\ (Exists (fun p => is_peer_idle p = false) shaken
      \/ (length found < length shaken)%nat ->
      exists pre j,
        acts = pre ++ [(j, SendGetdataForBlock None)]
        /\ Forall (fun a => null_getdata a = false) pre).
Proof.
  cbv zeta. intros Hsmall. unfold exchange_data_with_peers. split.
  - intros Hidle Hfit.
    apply (exchange_loop_completes peers _ Hsmall 0 0); [lia | | lia].
    apply Forall_forall. intros p Hin Hs.
    rewrite Forall_forall in Hidle. apply Hidle.
    apply list_elem_of_filter. split; assumption.
  - intros Hwhy.
    apply (exchange_loop_ends_in_null peers _ Hsmall 0 0); [lia|].
    destruct Hwhy as [Hbusy | Hfew]; [left | right; lia].
    apply Exists_exists in Hbusy as (p & Hin & Hb).
    apply list_elem_of_filter in Hin as [Hs Hin].
    apply Exists_exists. exists p. split; [exact Hin | split; assumption].
Qed.
End ExchangeFacts.

(** ** Choosing and binding candidates *)



Section PickFacts.
Variable env : Env.

(** What the loop of [pick_best_nonpeer_candidate] returns is the start
    value or one of the samples it drew, its score is the start score or
    above it, and no sample is above it. *)
Lemma pick_loop_highest (o : RateOracle) (bound : list nat)
    (candidates : list PeerCandidate) (i best k : nat) (bestScore : Binary64.double) :
  let r := pick_loop env o bound i candidates best bestScore k in
  (r = (best, bestScore) \/ In r (rated env o bound i candidates k))
  /\ (r.2 = bestScore \/ Binary64.ltb bestScore r.2 = true)
  /\ Forall (fun s : nat * Binary64.double => Binary64.ltb r.2 s.2 = false)
            (rated env o bound i candidates k).
Proof.
  cbv zeta. revert i best k bestScore.
  induction candidates as [|c candidates IH]; intros i best k bestScore;
    cbn [pick_loop rated].
  - split; [left; reflexivity|]. split; [left; reflexivity | constructor].
  - destruct (is_peer bound i); [apply IH|].
    set (score := rate_candidate env (now_at o k) (random_betwen_0_1 o k) c).
    destruct (Binary64.ltb bestScore score) eqn:Hlt.
    + destruct (IH (S i) i (S k) score) as (Hin & Hge & Hall).
      split; [|split].
      * right. destruct Hin as [-> | Hin]; [left; reflexivity | right; exact Hin].
      * right. destruct Hge as [Heq | Hge]; [rewrite Heq; exact Hlt|].
        exact (Binary64Facts.ltb_trans _ _ _ Hlt Hge).
      * constructor; [|exact Hall]. cbn [snd].
        destruct Hge as [Heq | Hge];
          [rewrite Heq; apply Binary64Facts.ltb_irrefl
          | apply Binary64Facts.ltb_asym, Hge].
    + destruct (IH (S i) best (S k) bestScore) as (Hin & Hge & Hall).
      split; [|split].
      * destruct Hin as [Heq | Hin]; [left; exact Heq | right; right; exact Hin].
      * exact Hge.
      * constructor; [|exact Hall]. cbn [snd].
        destruct Hge as [Heq | Hge]; [rewrite Heq; exact Hlt|].
        destruct (Binary64.ltb (pick_loop env o bound (S i) candidates best bestScore
                                  (S k)).2 score) eqn:Hc; [|reflexivity].
        rewrite (Binary64Facts.ltb_trans _ _ _ Hge Hc) in Hlt. discriminate.
Qed.

(** The index the loop returns is the start value or the index of a
    candidate it visited. *)
Lemma pick_loop_range (o : RateOracle) (bound : list nat)
    (candidates : list PeerCandidate) (i best k : nat) (bestScore : Binary64.double) :
  (pick_loop env o bound i candidates best bestScore k).1 = best
  \/ (i <= (pick_loop env o bound i candidates best bestScore k).1
        < i + length candidates)%nat.
Proof.
  revert i best k bestScore.
  induction candidates as [|c candidates IH]; intros i best k bestScore;
    cbn [pick_loop length]; [left; reflexivity|].
  destruct (is_peer bound i).
  - destruct (IH (S i) best k bestScore) as [Heq|Hr]; [left; exact Heq | right; lia].
  - destruct (Binary64.ltb bestScore _).
    + destruct (IH (S i) i (S k)
                  (rate_candidate env (now_at o k) (random_betwen_0_1 o k) c))
        as [Heq|Hr]; right; lia.
    + destruct (IH (S i) best (S k) bestScore) as [Heq|Hr];
        [left; exact Heq | right; lia].
Qed.

(** With a candidate in the table, a pick is made: it is an index into
    the table, and it is candidate 0 or a candidate that no slot holds. *)
Lemma pick_best_spec (o : RateOracle) (peerCandidates : list PeerCandidate)
    (bound : list nat) :
  peerCandidates <> [] ->
  exists best score,
    pick_best_nonpeer_candidate env o peerCandidates bound = Some (best, score)
    /\ (best < length peerCandidates)%nat
    /\ (best = 0%nat \/ best ∉ bound).
Proof.
  intros Hne. destruct peerCandidates as [|c0 rest]; [contradiction|].
  unfold pick_best_nonpeer_candidate.
  set (seed := rate_candidate env (now_at o 0%nat) (random_betwen_0_1 o 0%nat) c0).
  pose proof (pick_loop_range o bound (c0 :: rest) 0 0 1 seed) as Hrange.
  pose proof (pick_loop_unbound env o bound (c0 :: rest) 0 0 1 seed) as Hfree.
  destruct (pick_loop env o bound 0 (c0 :: rest) 0 seed 1) as [best score].
  cbn [fst length] in *. exists best, score.
  split; [reflexivity|]. split; [lia|].
  destruct Hfree as [-> | Hfree]; [left; reflexivity|].
  right. unfold is_peer in Hfree. apply bool_decide_eq_false in Hfree. exact Hfree.
Qed.

(** X21.  The pick is the highest draw.  [pick_best_nonpeer_candidate]
    draws one score for candidate 0 before the loop and one in the loop
    for every candidate that no slot holds (candidate 0 again among them
    when it is free); the candidate and the score it returns are one of
    these draws, and no draw is higher. *)
Theorem pick_best_is_a_highest_draw (o : RateOracle)
    (c0 : PeerCandidate) (rest : list PeerCandidate) (bound : list nat) :
  let seed := rate_candidate env (now_at o 0%nat) (random_betwen_0_1 o 0%nat) c0 in
  let draws := (0%nat, seed) :: rated env o bound 0 (c0 :: rest) 1 in
  exists best final,
    pick_best_nonpeer_candidate env o (c0 :: rest) bound = Some (best, final)
    /\ In (best, final) draws
    /\ Forall (fun s : nat * Binary64.double => Binary64.ltb final s.2 = false) draws.
Proof.
  cbv zeta. unfold pick_best_nonpeer_candidate.
  set (seed := rate_candidate env (now_at o 0%nat) (random_betwen_0_1 o 0%nat) c0).
  pose proof (pick_loop_highest o bound (c0 :: rest) 0 0 1 seed) as Hhigh.
  cbv zeta in Hhigh.
  destruct (pick_loop env o bound 0 (c0 :: rest) 0 seed 1) as [best final].
  cbn [snd] in Hhigh. destruct Hhigh as (Hin & Hge & Hall).
  exists best, final. split; [reflexivity|]. split.
  - destruct Hin as [Heq | Hin]; [left; symmetry; exact Heq | right; exact Hin].
  - constructor; [|exact Hall]. cbn [snd].
    destruct Hge as [Heq | Hge];
      [rewrite Heq; apply Binary64Facts.ltb_irrefl
      | apply Binary64Facts.ltb_asym, Hge].
Qed.

(** X22.  Rebinding a slot.  With a candidate in the table,
    [connect_to_best_candidate_as_peer] binds the slot to a candidate of
    the table that is candidate 0 or was held by no slot when the pick
    was made: unless it is candidate 0, the new candidate is neither the
    one the slot held before nor one that another slot holds. *)
Theorem rebinding_avoids_bound_candidates (o : RateOracle)
    (peerCandidates : list PeerCandidate) (bound : list nat) (peerIndex old : nat) :
  peerCandidates <> [] ->
  bound !! peerIndex = Some old ->
  exists best,
    connect_to_best_candidate_as_peer env o peerCandidates bound peerIndex
      = Some (<[peerIndex := best]> bound)
    /\ (<[peerIndex := best]> bound) !! peerIndex = Some best
    /\ (best < length peerCandidates)%nat
    /\ (best = 0%nat \/ (best <> old /\ best ∉ bound)).
Proof.
  intros Hne Hold.
  destruct (pick_best_spec o peerCandidates bound Hne)
    as (best & score & Hpick & Hlt & Hfree).
  exists best. unfold connect_to_best_candidate_as_peer. rewrite Hpick.
  split; [reflexivity|]. split.
  - apply list_lookup_insert_eq. apply lookup_lt_Some in Hold. exact Hold.
  - split; [exact Hlt|].
    destruct Hfree as [Hz | Hfree]; [left; exact Hz|].
    right. split; [|exact Hfree].
    intros ->. apply Hfree. eapply list_elem_of_lookup_2. exact Hold.
Qed.

Lemma connect_loop_spec (oracles : nat -> RateOracle)
    (peerCandidates : list PeerCandidate) :
  peerCandidates <> [] ->
  forall (outgoing i : nat) (bound : list nat),
    Forall (fun j => (j < length peerCandidates)%nat) bound ->
    NoDup (filter (fun j => j <> 0%nat) bound) ->
    let r := connect_loop env oracles peerCandidates outgoing i bound in
    length r = (length bound + outgoing)%nat
    /\ Forall (fun j => (j < length peerCandidates)%nat) r
    /\ NoDup (filter (fun j => j <> 0%nat) r).
Proof.
  intros Hne. induction outgoing as [|outgoing IH]; intros i bound Hall Hnd;
    cbn [connect_loop]; cbv zeta.
  - split; [lia|]. split; assumption.
  - destruct (pick_best_spec (oracles i) peerCandidates bound Hne)
      as (best & score & Hpick & Hlt & Hfree).
    rewrite Hpick.
    destruct (IH (S i) (bound ++ [best])) as (Hlen & Hall' & Hnd').
    + apply Forall_app. split; [exact Hall|]. constructor; [exact Hlt | constructor].
    + rewrite filter_app. destruct (decide (best = 0%nat)) as [-> | Hnz].
      * rewrite filter_cons_False by (intros Hc; apply Hc; reflexivity).
        rewrite filter_nil, app_nil_r. exact Hnd.
      * rewrite filter_cons_True by exact Hnz. rewrite filter_nil.
        apply NoDup_app. split; [exact Hnd|]. split.
        -- intros x Hx Hx'. apply list_elem_of_singleton in Hx'. subst x.
           apply list_elem_of_filter in Hx. destruct Hx as [_ Hx].
           destruct Hfree as [Hz | Hfree]; [contradiction | exact (Hfree Hx)].
        -- apply NoDup_singleton.
    + rewrite length_app in Hlen. cbn [length] in Hlen.
      split; [lia|]. split; assumption.
Qed.

(** X23.  Filling the pool at start.  [connect_to_initial_peers] binds as
    many slots as the configured maximum of the mode allows and the
    candidate table has entries.  Every slot is bound to a candidate of
    the table, and no candidate other than candidate 0 is bound to two
    slots. *)
Theorem initial_peers_are_distinct_candidates (cfg : PoolConfig)
    (oracles : nat -> RateOracle) (peerCandidates : list PeerCandidate) :
  let bound := connect_to_initial_peers env cfg oracles peerCandidates in
  let outgoingConfig := if ibdMode env then maxOutgoingIBD cfg else maxOutgoing cfg in
  length bound
    = Z.to_nat (Z.min outgoingConfig (Z.of_nat (length peerCandidates)))
  /\ Forall (fun j => (j < length peerCandidates)%nat) bound
  /\ NoDup (filter (fun j => j <> 0%nat) bound).
Proof.
  cbv zeta. unfold connect_to_initial_peers.
  destruct peerCandidates as [|c0 rest].
  - cbn [length]. replace (Z.to_nat (Z.min _ (Z.of_nat 0))) with 0%nat by lia.
    cbn [connect_loop]. split; [reflexivity|]. split; constructor.
  - apply (connect_loop_spec oracles (c0 :: rest) ltac:(discriminate) _ 0%nat []).
    + constructor.
    + constructor.
Qed.
End PickFacts.

(** ** The examples of this part *)

Lemma exchange_requests_hashes_in_order_witness :
  Z.of_nat (length (sample_missing (count_idle_peers sample_pool))) < 2 ^ 32
  /\ requested (exchange_data_with_peers sample_env sample_missing sample_pool).2
     = [repeat x02 SHA256_LENGTH].
Proof.
  assert (Hsmall : Z.of_nat (length (sample_missing (count_idle_peers sample_pool)))
                   < 2 ^ 32) by (vm_compute; reflexivity).
  split; [exact Hsmall|].
  rewrite (exchange_requests_hashes_in_order sample_env sample_missing sample_pool Hsmall).
  vm_compute. reflexivity.
Defined.

Lemma exchange_tick_null_call_witness :
  exists pre j,
    (exchange_data_with_peers sample_env sample_missing sample_pool).2
    = pre ++ [(j, SendGetdataForBlock None)]
    /\ Forall (fun a => null_getdata a = false) pre.
Proof.
  assert (Hsmall : Z.of_nat (length (sample_missing (count_idle_peers sample_pool)))
                   < 2 ^ 32) by (vm_compute; reflexivity).
  apply (proj2 (exchange_tick_null_call sample_env sample_missing sample_pool Hsmall)).
  right. vm_compute. lia.
Defined.

Lemma rebinding_avoids_bound_candidates_witness :
  exists best,
    connect_to_best_candidate_as_peer sample_env sample_rate_oracle
      [zero_candidate; zero_candidate; zero_candidate] [1; 2]%nat 0
      = Some (<[0%nat := best]> [1; 2]%nat)
    /\ (<[0%nat := best]> [1; 2]%nat) !! 0%nat = Some best
    /\ (best < 3)%nat
    /\ (best = 0%nat \/ (best <> 1%nat /\ best ∉ [1; 2]%nat)).
Proof.
  exact (rebinding_avoids_bound_candidates sample_env sample_rate_oracle
           [zero_candidate; zero_candidate; zero_candidate] [1; 2]%nat 0 1
           ltac:(discriminate) eq_refl).
Defined.

Lemma kill_on_full_read_witness :
  let seg := {| base := bytes_of_string "KILL now"; nread := 8 |} in
  4 <= nread seg
  /\ (stops_loop (on_incoming_segment_to_api seg)
      <-> take 4 (payload_of seg) = bytes_of_string INSTRUCTION_KILL).
Proof.
  cbv zeta. split; [cbn [nread]; lia|].
  apply kill_on_full_read. cbn [nread]. lia.
Defined.

Lemma disabled_scores_below_enabled_witness :
  Binary64.ltb
    (rate_candidate sample_env 0 0
       (set_status (candidate_seen_at 0) PEER_CANDIDATE_STATUS_DISABLED))
    (rate_candidate sample_env 864000000 1 (candidate_seen_at 0))
  = true.
Proof.
  apply disabled_scores_below_enabled;
    [ reflexivity | discriminate | reflexivity
    | split; vm_compute; discriminate | split; vm_compute; discriminate
    | intros Hc; vm_compute in Hc; discriminate ].
Defined.

Lemma freshness_prefers_one_to_seven_days_witness :
  Binary64.ltb (rate_candidate sample_env 864000000 0 (candidate_seen_at 860400))
               (rate_candidate sample_env 864000000 0 (candidate_seen_at 0)) = true
  /\ Binary64.ltb (rate_candidate sample_env 864000000 0 (candidate_seen_at 0))
                  (rate_candidate sample_env 864000000 0 (candidate_seen_at 604800))
     = true.
Proof.
  apply freshness_prefers_one_to_seven_days;
    [ reflexivity | reflexivity | reflexivity | reflexivity
    | vm_compute; discriminate
    | intros Hc; vm_compute in Hc; discriminate
    | vm_compute; reflexivity | vm_compute; reflexivity | vm_compute; reflexivity
    | vm_compute; reflexivity | vm_compute; reflexivity ].
Defined.
